(** * fissile: release model, link resolver and package compilation engine

    A shallow embedding of the parts of the fissile sources that carry the
    properties stated about them: the signature aggregation of
    [model/instance_groups.go], the release manifest repair of
    [model/release.go], the property merger of the job model, the link
    resolver of [model/resolver/resolver.go], the run aggregation of an
    instance group, the scheduling half of [compilator/compilator.go] and the
    service emitter of the [kube] package.

    Go strings are byte sequences: they are [string] (lists of [ascii]) here.
    Go maps that are only looked up are [gmap]s; slices are lists. *)

From Stdlib Require Import ZArith List String Ascii Lia Bool DecimalString.
From stdpp Require Import gmap strings list relations sorting.

Set Warnings "-register-all".

Open Scope string_scope.
Open Scope Z_scope.
Open Scope list_scope.

(** ** crypto/sha1 and encoding/hex

    The Go standard library is not part of the repository. SHA-1 is written
    out after FIPS 180-4 over 32-bit words held in [Z]; [hex_EncodeToString]
    is the lowercase hexadecimal rendering of [encoding/hex]. *)

Module SHA1.

Definition mask32 (x : Z) : Z := Z.land x 4294967295.

Definition add32 (x y : Z) : Z := mask32 (x + y).

Definition rotl (n : Z) (x : Z) : Z :=
  mask32 (Z.lor (Z.shiftl x n) (Z.shiftr x (32 - n))).

Definition bytes_of_string (s : string) : list Z :=
  List.map (fun c => Z.of_N (N_of_ascii c)) (list_ascii_of_string s).

(** Big-endian bytes of [x], [n] of them. *)
Fixpoint be_bytes (n : nat) (x : Z) : list Z :=
  match n with
  | O => []
  | S n' => Z.land (Z.shiftr x (8 * Z.of_nat n')) 255 :: be_bytes n' x
  end.

Definition pad (msg : list Z) : list Z :=
  let len := Z.of_nat (List.length msg) in
  let zeros := Z.to_nat ((55 - len) mod 64) in
  msg ++ 128 :: List.repeat 0 zeros ++ be_bytes 8 (8 * len).

Fixpoint words_of_bytes (fuel : nat) (bs : list Z) : list Z :=
  match fuel, bs with
  | S f, b0 :: b1 :: b2 :: b3 :: rest =>
      (Z.shiftl b0 24 + Z.shiftl b1 16 + Z.shiftl b2 8 + b3)
        :: words_of_bytes f rest
  | _, _ => []
  end.

(** The message schedule, most recent word first. *)
Fixpoint schedule (n : nat) (w : list Z) : list Z :=
  match n with
  | O => w
  | S n' =>
      let x := Z.lxor (Z.lxor (List.nth 2 w 0) (List.nth 7 w 0))
                      (Z.lxor (List.nth 13 w 0) (List.nth 15 w 0)) in
      schedule n' (rotl 1 x :: w)
  end.

Record regs := Regs { ra : Z; rb : Z; rc : Z; rd : Z; re : Z }.

Definition round_fk (t : nat) (b c d : Z) : Z * Z :=
  if (t <? 20)%nat then
    (Z.lor (Z.land b c) (Z.land (Z.lxor b 4294967295) d), 1518500249)
  else if (t <? 40)%nat then
    (Z.lxor (Z.lxor b c) d, 1859775393)
  else if (t <? 60)%nat then
    (Z.lor (Z.lor (Z.land b c) (Z.land b d)) (Z.land c d), 2400959708)
  else
    (Z.lxor (Z.lxor b c) d, 3395469782).

Fixpoint rounds (t : nat) (ws : list Z) (r : regs) : regs :=
  match ws with
  | [] => r
  | w :: ws' =>
      let '(f, k) := round_fk t (rb r) (rc r) (rd r) in
      let temp := add32 (add32 (add32 (add32 (rotl 5 (ra r)) f) (re r)) k) w in
      rounds (S t) ws' (Regs temp (ra r) (rotl 30 (rb r)) (rc r) (rd r))
  end.

Definition block (h : regs) (blk : list Z) : regs :=
  let w := List.rev (schedule 64 (List.rev (words_of_bytes 16 blk))) in
  let r := rounds 0 w h in
  Regs (add32 (ra h) (ra r)) (add32 (rb h) (rb r)) (add32 (rc h) (rc r))
       (add32 (rd h) (rd r)) (add32 (re h) (re r)).

Fixpoint blocks (fuel : nat) (h : regs) (bs : list Z) : regs :=
  match fuel, bs with
  | S f, _ :: _ => blocks f (block h (List.firstn 64 bs)) (List.skipn 64 bs)
  | _, _ => h
  end.

Definition init : regs :=
  Regs 1732584193 4023233417 2562383102 271733878 3285377520.

(** The 20 digest bytes of a message. *)
Definition sum (msg : list Z) : list Z :=
  let p := pad msg in
  let h := blocks (List.length p) init p in
  be_bytes 4 (ra h) ++ be_bytes 4 (rb h) ++ be_bytes 4 (rc h)
    ++ be_bytes 4 (rd h) ++ be_bytes 4 (re h).

Definition hex_digit (n : Z) : ascii :=
  List.nth (Z.to_nat n) (list_ascii_of_string "0123456789abcdef") "0"%char.

Fixpoint hex_EncodeToString (bs : list Z) : string :=
  match bs with
  | [] => EmptyString
  | b :: bs' =>
      String (hex_digit (Z.shiftr b 4))
        (String (hex_digit (Z.land b 15)) (hex_EncodeToString bs'))
  end.

Definition hexdigest (s : string) : string :=
  hex_EncodeToString (sum (bytes_of_string s)).

End SHA1.


(** ** Go idioms

    A function returning [(T, error)] returns a [result T]; errors are their
    messages. *)

Inductive result (A : Type) : Type :=
  | Ok (a : A)
  | Err (e : string).
Arguments Ok {A} a.
Arguments Err {A} e.

Definition bind {A B : Type} (c : result A) (k : A -> result B) : result B :=
  match c with
  | Ok a => k a
  | Err e => Err e
  end.

Notation "'do' x <- c ; k" := (bind c (fun x => k))
  (at level 10, x name, c at level 100, k at level 200).

(** A Go map the code ranges over is an association list: the order of the
    list stands for the order in which [range] happens to visit the entries,
    which the language leaves open. Keys are strings throughout. *)
Module amap.

Definition t (V : Type) : Type := list (string * V).

(** [m[k]] with its [ok] flag *)
Fixpoint get {V : Type} (k : string) (m : t V) : option V :=
  match m with
  | [] => None
  | (k', v) :: m' => if String.eqb k k' then Some v else get k m'
  end.

(** [m[k] = v] *)
Fixpoint set {V : Type} (k : string) (v : V) (m : t V) : t V :=
  match m with
  | [] => [(k, v)]
  | (k', v') :: m' =>
      if String.eqb k k' then (k, v) :: m' else (k', v') :: set k v m'
  end.

(** [delete(m, k)] *)
Fixpoint delete {V : Type} (k : string) (m : t V) : t V :=
  match m with
  | [] => []
  | (k', v') :: m' =>
      if String.eqb k k' then delete k m' else (k', v') :: delete k m'
  end.

Definition keys {V : Type} (m : t V) : list string := List.map fst m.

End amap.

(** [strings.Join] *)
Fixpoint Join (elems : list string) (sep : string) : string :=
  match elems with
  | [] => EmptyString
  | [e] => e
  | e :: rest => e +:+ sep +:+ Join rest sep
  end.

(** ** package validation *)

(** Modelled from the spec: the validation package is not among the sources
    at hand. A diagnostic carries a kind (Invalid, Required, NotFound,
    Forbidden, InternalError), a structured field path, the offending value
    and a message; the constructors fill the fields the way the callers
    in the resolver and the model pass them. *)
Module validation.

Inductive ErrorType : Type :=
  | ErrorTypeNotFound
  | ErrorTypeRequired
  | ErrorTypeInvalid
  | ErrorTypeForbidden
  | ErrorTypeInternal.

Record Error (V : Type) : Type := mkError {
  Type_ : ErrorType;
  Field : string;
  BadValue : option V;
  Detail : string
}.
Arguments mkError {V}.
Arguments Type_ {V}.
Arguments Field {V}.
Arguments BadValue {V}.
Arguments Detail {V}.

Definition ErrorList (V : Type) : Type := list (Error V).

Definition NotFound {V : Type} (field : string) (value : V) : Error V :=
  mkError ErrorTypeNotFound field (Some value) EmptyString.

Definition Required {V : Type} (field detail : string) : Error V :=
  mkError ErrorTypeRequired field None detail.

Definition Invalid {V : Type} (field : string) (value : V) (detail : string)
  : Error V :=
  mkError ErrorTypeInvalid field (Some value) detail.

Definition Forbidden {V : Type} (field detail : string) : Error V :=
  mkError ErrorTypeForbidden field None detail.

Definition InternalError {V : Type} (field : string) (err : string) : Error V :=
  mkError ErrorTypeInternal field None err.

End validation.
(** ** model/instance_groups.go: AggregateSignatures *)

Module model.

Definition NUL : string := String Ascii.zero EmptyString.

(** Go's [int] on the 64-bit targets fissile is built for. *)
Definition int_wrap (z : Z) : Z := (z + 2 ^ 63) mod 2 ^ 64 - 2 ^ 63.

(** [fmt.Sprintf("%d", n)] *)
Definition Sprintf_d (n : Z) : string := NilZero.string_of_int (Z.to_int n).

(** The state of the loop of [AggregateSignatures]: the bytes written to the
    hasher so far, and [length]. *)
Fixpoint aggregate_loop (signatures : list string) (st : string * Z)
  : string * Z :=
  match signatures with
  | [] => st
  | signature :: rest =>
      let '(hasher, len) := st in
      aggregate_loop rest
        (hasher +:+ signature +:+ NUL,
         int_wrap (len + Z.of_nat (String.length signature)))
  end.

(** Everything [AggregateSignatures] writes to the hasher before [Sum]. *)
Definition hashed_bytes (signatures : list string) : string :=
  let '(hasher, len) := aggregate_loop signatures (EmptyString, 0) in
  hasher +:+ Sprintf_d len.

Definition AggregateSignatures (signatures : list string) : string :=
  SHA1.hexdigest (hashed_bytes signatures).

(** A string without a zero byte. *)
Fixpoint nul_free (s : string) : bool :=
  match s with
  | EmptyString => true
  | String c s' => negb (Ascii.eqb c Ascii.zero) && nul_free s'
  end.

(** The fields of a sequence, each with its terminator. *)
Fixpoint payload (signatures : list string) : string :=
  match signatures with
  | [] => EmptyString
  | s :: rest => s +:+ NUL +:+ payload rest
  end.


(** ** The job model: properties and opinions

    An [interface{}] holding what [yaml.Unmarshal] produces: [nil], scalars,
    [[]interface{}] for a sequence and [map[interface{}]interface{}] for a
    mapping. [MapS] is the [map[string]interface{}] the property merger
    builds. A gram can only select an entry with a string key, so the
    mappings keep their string keys. *)
Inductive Value : Type :=
  | Nil
  | Bool (b : bool)
  | Int (n : Z)
  | Str (s : string)
  | Slice (items : list Value)
  | MapI (entries : list (string * Value))
  | MapS (entries : list (string * Value)).

(** [reflect.Kind], the kinds these values have and the ones the code names *)
Inductive Kind : Type :=
  | KBool
  | KInt
  | KString
  | KArray
  | KSlice
  | KMap.

Definition Kind_eqb (a b : Kind) : bool :=
  match a, b with
  | KBool, KBool | KInt, KInt | KString, KString
  | KArray, KArray | KSlice, KSlice | KMap, KMap => true
  | _, _ => false
  end.

(** [reflect.TypeOf(v).Kind()] for a non-nil [v]. A YAML sequence is decoded
    to a slice; no decoded value is a Go array. [Nil] has no type: the code
    tests for it before it asks. *)
Definition reflect_Kind (v : Value) : option Kind :=
  match v with
  | Nil => None
  | Bool _ => Some KBool
  | Int _ => Some KInt
  | Str _ => Some KString
  | Slice _ => Some KSlice
  | MapI _ => Some KMap
  | MapS _ => Some KMap
  end.

Module JobProperty.
Record t : Type := mk {
  Name : string;
  Description : string;
  Default : Value
}.
End JobProperty.

Module Opinions.
Record t : Type := mk {
  Light : amap.t Value;
  Dark : amap.t Value
}.
End Opinions.

(** Modelled from the spec: [getKeyGrams] is declared with the opinions,
    which are not among the sources at hand. "Split the name on dots into
    key grams." *)
Fixpoint split_dots (cur : string) (s : string) : list string :=
  match s with
  | EmptyString => [cur]
  | String c rest =>
      if Ascii.eqb c "."%char then cur :: split_dots EmptyString rest
      else split_dots (cur +:+ String c EmptyString) rest
  end.

Definition getKeyGrams (key : string) : result (list string) :=
  Ok (split_dots EmptyString key).

(** Modelled from the spec: [getOpinionValue] is declared with the opinions.
    "Look up the gram path": every gram but the last must select a mapping;
    the last gram selects the leaf, whose value may be null. *)
Fixpoint getOpinionValue (opinions : list (string * Value))
    (keyPieces : list string) : option Value :=
  match keyPieces with
  | [] => None
  | [key] => amap.get key opinions
  | key :: rest =>
      match amap.get key opinions with
      | Some (MapI child) => getOpinionValue child rest
      | _ => None
      end
  end.

(** Modelled from the spec: [insertConfig] is declared with the opinions.
    "Insert the resulting value back into an output tree by splitting the
    name again and creating intermediate maps. Conflict (attempting to
    extend a non-map) is an error." *)
Fixpoint insertGrams (config : list (string * Value)) (keyPieces : list string)
    (value : Value) : result (list (string * Value)) :=
  match keyPieces with
  | [] => Err "insertConfig: empty key"
  | [key] => Ok (amap.set key value config)
  | key :: rest =>
      match amap.get key config with
      | None =>
          do child <- insertGrams [] rest value;
          Ok (amap.set key (MapS child) config)
      | Some (MapS child) =>
          do child' <- insertGrams child rest value;
          Ok (amap.set key (MapS child') config)
      | Some _ => Err "insertConfig: cannot extend a value that is not a map"
      end
  end.

Definition insertConfig (config : list (string * Value)) (name : string)
    (value : Value) : result (list (string * Value)) :=
  do keyPieces <- getKeyGrams name;
  insertGrams config keyPieces value.

(** What the loop of [GetPropertiesForJob] does with one property: [None]
    is the [continue] of a dark property, [Some v] the value to insert. *)
Definition propertyValue (lightOpinionsByString darkOpinionsByString
    : list (string * Value)) (keyPieces : list string) (default : Value)
  : option Value :=
  let excluded :=
    match getOpinionValue darkOpinionsByString keyPieces with
    | Some darkValue =>
        match reflect_Kind darkValue with
        | None => true
        | Some kind => negb (Kind_eqb kind KMap) && negb (Kind_eqb kind KArray)
        end
    | None => false
    end in
  if excluded then None
  else
    match getOpinionValue lightOpinionsByString keyPieces with
    | Some Nil | None => Some default
    | Some lightValue => Some lightValue
    end.

Fixpoint propertiesLoop (lightOpinionsByString darkOpinionsByString
    : list (string * Value)) (properties : list JobProperty.t)
    (props : list (string * Value)) : result (list (string * Value)) :=
  match properties with
  | [] => Ok props
  | property :: rest =>
      do keyPieces <- getKeyGrams (JobProperty.Name property);
      match propertyValue lightOpinionsByString darkOpinionsByString
              keyPieces (JobProperty.Default property) with
      | None => propertiesLoop lightOpinionsByString darkOpinionsByString rest props
      | Some finalValue =>
          do props' <- insertConfig props (JobProperty.Name property) finalValue;
          propertiesLoop lightOpinionsByString darkOpinionsByString rest props'
      end
  end.

(** [GetPropertiesForJob], of the job's [Properties] and the opinions *)
Definition GetPropertiesForJob (Properties : list JobProperty.t)
    (opinions : Opinions.t) : result (list (string * Value)) :=
  match amap.get "properties" (Opinions.Light opinions) with
  | None => Err "getPropertiesForJob: no 'properties' key in light opinions"
  | Some lightOpinions =>
      match amap.get "properties" (Opinions.Dark opinions) with
      | None => Err "getPropertiesForJob: no 'properties' key in dark opinions"
      | Some darkOpinions =>
          match lightOpinions with
          | MapI lightOpinionsByString =>
              match darkOpinions with
              | MapI darkOpinionsByString =>
                  propertiesLoop lightOpinionsByString darkOpinionsByString
                    Properties []
              | _ => Err "getPropertiesForJob: can't convert darkOpinions into a string map"
              end
          | _ => Err "getPropertiesForJob: can't convert lightOpinions into a string map"
          end
      end
  end.

(** ** model/release.go: the repair of the release manifest

    [yamlBinaryRegexp] is [([^!])!binary \|-\n] and [loadMetadata] replaces
    every match by [$1!!binary |-\n]. [regexp.ReplaceAll] takes the leftmost
    match, copies what precedes it, writes the replacement and goes on
    behind the match. A match is one character other than ['!'] followed by
    the eleven bytes of [yamlBinaryTag]; the character class consumes the
    last byte of a longer rune as well as a whole one, and the bytes
    written are the same. *)

Definition LF : string := String "010"%char EmptyString.

Definition yamlBinaryTag : string := "!binary |-" +:+ LF.

Definition yamlBinaryReplacement : string := "!!binary |-" +:+ LF.

(** [skip] counts the bytes of the match at hand that are still to be
    passed over: they were replaced already. *)
Fixpoint replaceAll_go (skip : nat) (s : string) : string :=
  match s with
  | EmptyString => EmptyString
  | String c rest =>
      match skip with
      | S k => replaceAll_go k rest
      | O =>
          if negb (Ascii.eqb c "!"%char) && String.prefix yamlBinaryTag rest
          then String c (yamlBinaryReplacement
                           +:+ replaceAll_go (String.length yamlBinaryTag) rest)
          else String c (replaceAll_go O rest)
      end
  end.

(** [yamlBinaryRegexp.ReplaceAll(manifestContents, "$1!!binary |-\n")] *)
Definition yamlBinaryRegexp_ReplaceAll (manifestContents : string) : string :=
  replaceAll_go O manifestContents.

(** The repair as the specification words it, for comparison: every tag
    [!binary] with a single exclamation mark becomes [!!binary]. [bang]
    tells whether the byte before was an exclamation mark. *)
Fixpoint everyBinaryTag_go (bang : bool) (s : string) : string :=
  match s with
  | EmptyString => EmptyString
  | String c rest =>
      if Ascii.eqb c "!"%char && negb bang && String.prefix "binary" rest
      then String c (String c (everyBinaryTag_go true rest))
      else String c (everyBinaryTag_go (Ascii.eqb c "!"%char) rest)
  end.

Definition everyBinaryTag (manifestContents : string) : string :=
  everyBinaryTag_go false manifestContents.

(** The [manifest] struct, as far as [loadMetadata] reads it. *)
Module manifest.
Record t : Type := mk {
  Name : string;
  Version : string;
  CommitHash : string;
  UncommittedChanges : bool
}.
End manifest.

(** Modelled from the spec: the package struct is declared in a file that
    is not at hand; its fields are the attributes of the data model that the
    code reads, the release by its name. [Dependencies] holds pointers to
    packages of the same release, here the packages themselves. *)
Module Package.
Inductive t : Type := mk {
  Name : string;
  Version : string;
  Fingerprint : string;
  SHA1 : string;
  ReleaseName : string;
  Dependencies : list t
}.
End Package.

Module Release.
Record t : Type := mk {
  Packages : list Package.t;
  Name : string;
  UncommittedChanges : bool;
  CommitHash : string;
  Version : string;
  manifest_ : option manifest.t
}.
End Release.

Section loadMetadata.

(** The file system and the YAML decoder are outside the repository. *)
Variable ReadFile : result string.
Variable yaml_Unmarshal : string -> result manifest.t.

Definition loadMetadata (r : Release.t) : result Release.t :=
  do manifestContents <- ReadFile;
  let manifestContents := yamlBinaryRegexp_ReplaceAll manifestContents in
  do m <- yaml_Unmarshal manifestContents;
  Ok (Release.mk (Release.Packages r) (manifest.Name m)
        (manifest.UncommittedChanges m) (manifest.CommitHash m)
        (manifest.Version m) (Some m)).

End loadMetadata.

(** ** Jobs, job references and instance groups *)

Module JobLinkInfo.
Record t : Type := mk {
  Name : string;
  Type_ : string;
  RoleName : string;
  JobName : string;
  ServiceName : string
}.
Definition zero : t := mk EmptyString EmptyString EmptyString EmptyString EmptyString.
End JobLinkInfo.

Module JobProvidesInfo.
Record t : Type := mk {
  Link : JobLinkInfo.t;
  Alias : string;
  Shared : bool;
  Properties : list string
}.
End JobProvidesInfo.

Module JobConsumesInfo.
Record t : Type := mk {
  Link : JobLinkInfo.t;
  Alias : string;
  Ignore : bool;
  Optional : bool
}.
Definition zero : t := mk JobLinkInfo.zero EmptyString false false.
End JobConsumesInfo.

Module Job.
Record t : Type := mk {
  Name : string;
  Packages : list Package.t;
  Fingerprint : string;
  SHA1 : string;
  Properties : list JobProperty.t;
  AvailableProviders : amap.t JobProvidesInfo.t;
  DesiredConsumers : list JobConsumesInfo.t
}.
End Job.

(** Modelled from the spec: the structs of the run block, of the exposed
    ports, of the container properties and of a job reference are declared
    in files that are not at hand; the fields are the ones section 4.3 lists
    for the run aggregation and the ones the sources at hand read. *)
Module RoleRunScaling.
Record t : Type := mk { Min : Z; Max : Z; HA : Z; MustBeOdd : bool }.
End RoleRunScaling.

Module RoleRunVolume.
Record t : Type := mk { Tag : string; Path : string }.
End RoleRunVolume.

Module RoleRunResource.
Record t : Type := mk { Request : option Z; Limit : option Z }.
End RoleRunResource.

Module HealthCheck.
Record t : Type := mk { Liveness : option string; Readiness : option string }.
End HealthCheck.

Module RoleRunAffinity.
Record t : Type := mk {
  PodAntiAffinity : option string;
  PodAffinity : option string;
  NodeAffinity : option string
}.
End RoleRunAffinity.

Module RoleRun.
Record t : Type := mk {
  Scaling : option RoleRunScaling.t;
  Capabilities : list string;
  Volumes : list RoleRunVolume.t;
  Memory : option RoleRunResource.t;
  CPU : option RoleRunResource.t;
  FlightStage : string;
  HealthCheck : option HealthCheck.t;
  ActivePassiveProbe : string;
  ServiceAccount : string;
  Affinity : option RoleRunAffinity.t
}.
(** [&RoleRun{}] *)
Definition zero : t :=
  mk None [] [] None None EmptyString None EmptyString EmptyString None.
Definition setFlightStage (v : string) (r : t) : t :=
  mk (Scaling r) (Capabilities r) (Volumes r) (Memory r) (CPU r) v
     (HealthCheck r) (ActivePassiveProbe r) (ServiceAccount r) (Affinity r).
Definition setHealthCheck (v : option HealthCheck.t) (r : t) : t :=
  mk (Scaling r) (Capabilities r) (Volumes r) (Memory r) (CPU r)
     (FlightStage r) v (ActivePassiveProbe r) (ServiceAccount r) (Affinity r).
Definition setActivePassiveProbe (v : string) (r : t) : t :=
  mk (Scaling r) (Capabilities r) (Volumes r) (Memory r) (CPU r)
     (FlightStage r) (HealthCheck r) v (ServiceAccount r) (Affinity r).
Definition setServiceAccount (v : string) (r : t) : t :=
  mk (Scaling r) (Capabilities r) (Volumes r) (Memory r) (CPU r)
     (FlightStage r) (HealthCheck r) (ActivePassiveProbe r) v (Affinity r).
Definition setAffinity (v : option RoleRunAffinity.t) (r : t) : t :=
  mk (Scaling r) (Capabilities r) (Volumes r) (Memory r) (CPU r)
     (FlightStage r) (HealthCheck r) (ActivePassiveProbe r) (ServiceAccount r) v.
End RoleRun.

Module JobExposedPort.
Record t : Type := mk {
  Name : string;
  Protocol : string;
  InternalPort : Z;
  ExternalPort : Z;
  Public : bool;
  Count : Z;
  Max : Z;
  PortIsConfigurable : bool;
  CountIsConfigurable : bool
}.
End JobExposedPort.

Module BoshContainerization.
Record t : Type := mk {
  Ports : list JobExposedPort.t;
  Run : option RoleRun.t;
  ServiceName : string;
  ColocatedContainers : list string
}.
End BoshContainerization.

Module JobReference.
Record t : Type := mk {
  Job : Job.t;
  Name : string;
  ReleaseName : string;
  ExportedProvides : amap.t JobProvidesInfo.t;
  ResolvedConsumes : amap.t JobConsumesInfo.t;
  ResolvedConsumedBy : amap.t (list JobLinkInfo.t);
  ContainerProperties : BoshContainerization.t
}.
(** [j.ContainerProperties.BoshContainerization.Run] and its neighbours *)
Definition Run (j : t) : option RoleRun.t :=
  BoshContainerization.Run (ContainerProperties j).
Definition Ports (j : t) : list JobExposedPort.t :=
  BoshContainerization.Ports (ContainerProperties j).
Definition ServiceName (j : t) : string :=
  BoshContainerization.ServiceName (ContainerProperties j).
Definition setResolvedConsumes (v : amap.t JobConsumesInfo.t) (j : t) : t :=
  mk (Job j) (Name j) (ReleaseName j) (ExportedProvides j) v
     (ResolvedConsumedBy j) (ContainerProperties j).
Definition setResolvedConsumedBy (v : amap.t (list JobLinkInfo.t)) (j : t) : t :=
  mk (Job j) (Name j) (ReleaseName j) (ExportedProvides j)
     (ResolvedConsumes j) v (ContainerProperties j).
End JobReference.

Module InstanceGroup.
Record t : Type := mk {
  Name : string;
  Type_ : string;
  JobReferences : list JobReference.t;
  Tags : list string;
  Run : option RoleRun.t
}.
Definition setJobReferences (v : list JobReference.t) (g : t) : t :=
  mk (Name g) (Type_ g) v (Tags g) (Run g).
Definition setRun (v : option RoleRun.t) (g : t) : t :=
  mk (Name g) (Type_ g) (JobReferences g) (Tags g) v.
End InstanceGroup.

Definition RoleTagActivePassive : string := "active-passive".
Definition RoleTagIstioManaged : string := "istio-managed".

(** [HasTag] *)
Definition HasTag (g : InstanceGroup.t) (tag : string) : bool :=
  existsb (String.eqb tag) (InstanceGroup.Tags g).

(** [LookupJob] finds the given job in the instance group. *)
Definition LookupJob (g : InstanceGroup.t) (name : string)
  : option JobReference.t :=
  List.find (fun jobReference =>
               String.eqb (Job.Name (JobReference.Job jobReference)) name)
            (InstanceGroup.JobReferences g).

(** *** CalculateRoleRun *)

(** The value a diagnostic of [CalculateRoleRun] carries. *)
Inductive RunValue : Type :=
  | GroupValue (g : InstanceGroup.t)
  | HealthCheckValue (h : option HealthCheck.t)
  | StringValue (s : string).

(** The run block of a job reference that went through [WithRunProperty]. *)
Definition runOf (j : JobReference.t) : RoleRun.t :=
  match JobReference.Run j with
  | Some r => r
  | None => RoleRun.zero
  end.

(** Modelled from the spec: the predicates and folds over job references
    are declared with the job references, which are not among the sources at
    hand. "health check (at most one job may declare one), active-passive
    probe and service account (at most one distinct value across jobs),
    affinity (at most one job), flight stage (equal across jobs when
    multiple are present)"; a string property is declared when it is not
    empty, a pointer when it is not nil. *)
Definition runPropertyPresent (j : JobReference.t) : bool :=
  match JobReference.Run j with Some _ => true | None => false end.

Definition flightStagePresent (j : JobReference.t) : bool :=
  negb (String.eqb (RoleRun.FlightStage (runOf j)) EmptyString).

Definition healthCheckPresent (j : JobReference.t) : bool :=
  match RoleRun.HealthCheck (runOf j) with Some _ => true | None => false end.

Definition affinityPresent (j : JobReference.t) : bool :=
  match RoleRun.Affinity (runOf j) with Some _ => true | None => false end.

Definition atLeastOnce (property : JobReference.t -> bool)
    (jobs : list JobReference.t) : bool :=
  existsb property jobs.

Definition atMostOnce (property : JobReference.t -> bool)
    (jobs : list JobReference.t) : bool :=
  (List.length (List.filter property jobs) <=? 1)%nat.

Definition WithRunProperty (jobs : list JobReference.t) : list JobReference.t :=
  List.filter runPropertyPresent jobs.

Definition firstFlightStage (jobs : list JobReference.t) : string :=
  match List.find flightStagePresent jobs with
  | Some j => RoleRun.FlightStage (runOf j)
  | None => EmptyString
  end.

Definition equalOrMissing (property : JobReference.t -> bool)
    (jobs : list JobReference.t) : bool :=
  forallb (fun j => String.eqb (RoleRun.FlightStage (runOf j))
                               (firstFlightStage jobs))
          (List.filter property jobs).

Definition firstHealthCheck (jobs : list JobReference.t)
  : option HealthCheck.t :=
  match List.find healthCheckPresent jobs with
  | Some j => RoleRun.HealthCheck (runOf j)
  | None => None
  end.

Definition firstAffinity (jobs : list JobReference.t)
  : option RoleRunAffinity.t :=
  match List.find affinityPresent jobs with
  | Some j => RoleRun.Affinity (runOf j)
  | None => None
  end.

(** The one declared value of a string property (the empty string when no job declares
    it), or an error when two jobs declare different values. *)
Fixpoint uniqueStringLoop (f : JobReference.t -> string)
    (jobs : list JobReference.t) (found : string) : result string :=
  match jobs with
  | [] => Ok found
  | j :: rest =>
      let value := f j in
      if String.eqb value EmptyString then uniqueStringLoop f rest found
      else if String.eqb found EmptyString then uniqueStringLoop f rest value
      else if String.eqb found value then uniqueStringLoop f rest found
      else Err "values are not unique"
  end.

Definition uniqueStringProperty (f : JobReference.t -> string)
    (jobs : list JobReference.t) : result string :=
  uniqueStringLoop f jobs EmptyString.

Section CalculateRoleRun.

(** The four folds that do not take part in any diagnostic of
    [CalculateRoleRun]; they are declared with the run block. *)
Variable setScaling : list JobReference.t -> RoleRun.t -> RoleRun.t.
Variable mergeCapabilities : list JobReference.t -> RoleRun.t -> RoleRun.t.
Variable mergeVolumes : list JobReference.t -> RoleRun.t -> RoleRun.t.
Variable setMaxFields : list JobReference.t -> RoleRun.t -> RoleRun.t.

Definition groupField (g : InstanceGroup.t) : string :=
  "instance_groups[" +:+ InstanceGroup.Name g +:+ "]".

(** [CalculateRoleRun]: the instance group with its [Run] set, and the
    diagnostics. *)
Definition CalculateRoleRun (g : InstanceGroup.t)
  : InstanceGroup.t * validation.ErrorList RunValue :=
  let allErrs : validation.ErrorList RunValue := [] in
  let run := RoleRun.zero in
  if negb (atLeastOnce runPropertyPresent (InstanceGroup.JobReferences g)) then
    (InstanceGroup.setRun (Some run) g,
     allErrs ++ [validation.Required (groupField g)
       "`properties.bosh_containerization.run` required for at least one Job"])
  else
    let jobReferences := WithRunProperty (InstanceGroup.JobReferences g) in
    let '(run, allErrs) :=
      if equalOrMissing flightStagePresent jobReferences then
        (RoleRun.setFlightStage (firstFlightStage jobReferences) run, allErrs)
      else
        (run, allErrs ++ [validation.Invalid (groupField g)
           (GroupValue (InstanceGroup.setRun (Some run) g))
           "If specifying Run.FlightStage properties on multiple jobs of the same instance group, they need to have the same value"]) in
    let run := setScaling jobReferences run in
    let run := mergeCapabilities jobReferences run in
    let run := mergeVolumes jobReferences run in
    let run := setMaxFields jobReferences run in
    let '(run, allErrs) :=
      if atMostOnce healthCheckPresent jobReferences then
        (RoleRun.setHealthCheck (firstHealthCheck jobReferences) run, allErrs)
      else
        (run, allErrs ++ [validation.Invalid (groupField g)
           (HealthCheckValue (firstHealthCheck jobReferences))
           "Cannot specify Run.HealthCheck properties on more than one job of the same instance group"]) in
    let '(run, allErrs) :=
      match uniqueStringProperty
              (fun j => RoleRun.ActivePassiveProbe (runOf j)) jobReferences with
      | Ok property => (RoleRun.setActivePassiveProbe property run, allErrs)
      | Err _ =>
          (run, allErrs ++ [validation.Invalid (groupField g)
             (StringValue EmptyString)
             "Cannot specify Run.ActivePassiveProbe properties on more than one job of the same instance group"])
      end in
    let '(run, allErrs) :=
      match uniqueStringProperty
              (fun j => RoleRun.ServiceAccount (runOf j)) jobReferences with
      | Ok property => (RoleRun.setServiceAccount property run, allErrs)
      | Err _ =>
          (run, allErrs ++ [validation.Invalid (groupField g)
             (StringValue EmptyString)
             "Cannot specify Run.ServiceAccount properties on more than one job of the same instance group"])
      end in
    let '(run, allErrs) :=
      if atMostOnce affinityPresent jobReferences then
        (RoleRun.setAffinity (firstAffinity jobReferences) run, allErrs)
      else
        (run, allErrs ++ [validation.Invalid (groupField g)
           (HealthCheckValue (firstHealthCheck jobReferences))
           "Cannot specify Run.HealthCheck properties on more than one job of the same instance group"]) in
    (InstanceGroup.setRun (Some run) g, allErrs).

End CalculateRoleRun.

(** *** Lookups in a release and in a job *)

(** [r.LookupPackage] *)
Definition LookupPackage (r : Release.t) (packageName : string)
  : result Package.t :=
  match List.find (fun pkg => String.eqb (Package.Name pkg) packageName)
          (Release.Packages r) with
  | Some pkg => Ok pkg
  | None => Err ("Cannot find package " +:+ packageName +:+ " in release")
  end.

(** [j.getProperty] *)
Definition getProperty (j : Job.t) (name : string) : result JobProperty.t :=
  match List.find (fun property => String.eqb (JobProperty.Name property) name)
          (Job.Properties j) with
  | Some property => Ok property
  | None =>
      Err ("Property " +:+ name +:+ " not found in job " +:+ Job.Name j)
  end.

(** [j.MergeSpec(otherJob)] *)
Definition MergeSpec (j otherJob : Job.t) : Job.t :=
  Job.mk (Job.Name j) (Job.Packages j ++ Job.Packages otherJob)
    (Job.Fingerprint j) (Job.SHA1 j)
    (Job.Properties j ++ Job.Properties otherJob)
    (Job.AvailableProviders j) (Job.DesiredConsumers j).

(** *** GetUniqueConfigs *)

(** Modelled from the spec: the [ReleaseConfig] struct is declared in a file
    that is not at hand; its fields are the ones [GetUniqueConfigs] fills. *)
Module ReleaseConfig.
Record t : Type := mk {
  Name : string;
  Jobs : list Job.t;
  UsageCount : Z;
  Description : string
}.
End ReleaseConfig.

(** The body of the loop over [job.Properties]; the configs are reached
    through pointers, so the change is made in the map. *)
Definition uniqueConfigStep (job : Job.t)
    (result : gmap string ReleaseConfig.t) (property : JobProperty.t)
  : gmap string ReleaseConfig.t :=
  match result !! JobProperty.Name property with
  | Some config =>
      <[JobProperty.Name property :=
          ReleaseConfig.mk (ReleaseConfig.Name config)
            (ReleaseConfig.Jobs config ++ [job])
            (int_wrap (ReleaseConfig.UsageCount config + 1))
            (ReleaseConfig.Description config)]> result
  | None =>
      <[JobProperty.Name property :=
          ReleaseConfig.mk (JobProperty.Name property) [job] 1
            (JobProperty.Description property)]> result
  end.

(** [r.GetUniqueConfigs], of the jobs of the release *)
Definition GetUniqueConfigs (Jobs : list Job.t) : gmap string ReleaseConfig.t :=
  fold_left
    (fun result job => fold_left (uniqueConfigStep job) (Job.Properties job) result)
    Jobs ∅.

(** *** CollectPropertyDefaults *)

Module PropertyInfo.
Record t : Type := mk {
  MaybeHash : bool;
  Defaults : gmap string (list Job.t)
}.
End PropertyInfo.

(** [property.Default == nil || reflect.TypeOf(property.Default).Kind() ==
    reflect.Map] *)
Definition maybeHash (default : Value) : bool :=
  match reflect_Kind default with
  | None => true
  | Some kind => Kind_eqb kind KMap
  end.

Section CollectPropertyDefaults.

(** [fmt.Sprintf("%v", v)] of a decoded value: the formatting of the Go
    standard library. *)
Variable Sprintf_v : Value -> string.

(** The body of the loop over [job.Properties] *)
Definition propertyDefaultStep (job : JobReference.t)
    (result : gmap string PropertyInfo.t) (property : JobProperty.t)
  : gmap string PropertyInfo.t :=
  let name := JobProperty.Name property in
  let info :=
    match result !! name with
    | Some info => info
    | None => PropertyInfo.mk false ∅
    end in
  let defaultAsString := Sprintf_v (JobProperty.Default property) in
  let info :=
    PropertyInfo.mk (PropertyInfo.MaybeHash info)
      (<[defaultAsString :=
           default [] (PropertyInfo.Defaults info !! defaultAsString)
             ++ [JobReference.Job job]]> (PropertyInfo.Defaults info)) in
  let info :=
    if maybeHash (JobProperty.Default property)
    then PropertyInfo.mk true (PropertyInfo.Defaults info)
    else info in
  <[name := info]> result.

(** [g.CollectPropertyDefaults], of the job references of the instance
    group *)
Definition CollectPropertyDefaults (JobReferences : list JobReference.t)
  : gmap string PropertyInfo.t :=
  fold_left
    (fun result job =>
       fold_left (propertyDefaultStep job)
         (Job.Properties (JobReference.Job job)) result)
    JobReferences ∅.

End CollectPropertyDefaults.

(** *** Configuration templates and their signature *)

(** Modelled from the spec: the [Configuration] and [ConfigurationTemplate]
    structs are declared in a file that is not at hand; the fields are the
    ones the sources at hand read and write. [RawTemplates] is a
    [yaml.MapSlice]: items of a key and a value, in the order of the
    document. *)
Module ConfigurationTemplate.
Record t : Type := mk { Value : string; IsGlobal : bool }.
End ConfigurationTemplate.

(** A call that may end in a panic of the Go runtime. *)
Inductive mayPanic (A : Type) : Type :=
  | Returns (a : A)
  | Panics (msg : string).
Arguments Returns {A} a.
Arguments Panics {A} msg.

Section templates.

Variable Sprintf_v : Value -> string.

(** The first loop of [CalculateRoleConfigurationTemplates]: every item of
    the instance group is written, [templateDef.Key.(string)] panics on a
    key that is not a string. *)
Fixpoint ownTemplates (RawTemplates : list (Value * Value))
    (Templates : amap.t ConfigurationTemplate.t)
  : mayPanic (amap.t ConfigurationTemplate.t) :=
  match RawTemplates with
  | [] => Returns Templates
  | (Str k, v) :: rest =>
      ownTemplates rest
        (amap.set k (ConfigurationTemplate.mk (Sprintf_v v) false) Templates)
  | _ :: _ => Panics "interface conversion: interface {} is not string"
  end.

(** The second loop: an item of the role manifest is written when there is
    no template of that name yet. *)
Fixpoint globalTemplates (RawTemplates : list (Value * Value))
    (Templates : amap.t ConfigurationTemplate.t)
  : mayPanic (amap.t ConfigurationTemplate.t) :=
  match RawTemplates with
  | [] => Returns Templates
  | (Str k, v) :: rest =>
      globalTemplates rest
        (match amap.get k Templates with
         | Some _ => Templates
         | None =>
             amap.set k (ConfigurationTemplate.mk (Sprintf_v v) true) Templates
         end)
  | _ :: _ => Panics "interface conversion: interface {} is not string"
  end.

(** [g.CalculateRoleConfigurationTemplates]: [own] is
    [g.Configuration.RawTemplates], empty when [g.Configuration] is [nil];
    [global] is [g.roleManifest.Configuration.RawTemplates]. Returned is
    [g.Configuration.Templates]. *)
Definition CalculateRoleConfigurationTemplates
    (own global : list (Value * Value))
  : mayPanic (amap.t ConfigurationTemplate.t) :=
  match ownTemplates own [] with
  | Panics msg => Panics msg
  | Returns Templates => globalTemplates global Templates
  end.

End templates.

(** [sort.Strings]: the strings in increasing order of their bytes. The
    sorting of the Go standard library is written as an insertion sort. *)
Fixpoint insertString (s : string) (l : list string) : list string :=
  match l with
  | [] => [s]
  | x :: rest =>
      if String.leb s x then s :: x :: rest else x :: insertString s rest
  end.

Definition sort_Strings (l : list string) : list string :=
  fold_right insertString [] l.

(** [fmt.Sprintf("%v: %v", templateKey, templateValue.Value)] *)
Definition templateLine (entry : string * ConfigurationTemplate.t) : string :=
  entry.1 +:+ ": " +:+ ConfigurationTemplate.Value entry.2.

(** [g.GetTemplateSignatures], of [g.Configuration.Templates] in the order
    [range] visits it; the error it returns is always [nil]. *)
Definition GetTemplateSignatures (Templates : amap.t ConfigurationTemplate.t)
  : string :=
  SHA1.hexdigest
    (fold_left (fun hasher template => hasher +:+ template)
       (sort_Strings (List.map templateLine Templates)) EmptyString).

(** [g.ColocatedContainers] *)
Definition ColocatedContainers (g : InstanceGroup.t) : list string :=
  List.concat
    (List.map
       (fun j => BoshContainerization.ColocatedContainers
                   (JobReference.ContainerProperties j))
       (InstanceGroup.JobReferences g)).
End model.

(** ** model/resolver/resolver.go: ResolveLinks *)

Module resolver.

(** Modelled from the spec: the role manifest struct is declared in a file
    that is not at hand; link resolution reads and writes its instance
    groups. *)
Module RoleManifest.
Record t : Type := mk { InstanceGroups : list model.InstanceGroup.t }.
End RoleManifest.

Import model.

(** The slice idiom [append(s[:i], s[i+1:]...)] at the first [i] that
    satisfies [p], on the copy the code made. *)
Fixpoint removeFirst {A : Type} (p : A -> bool) (s : list A) : list A :=
  match s with
  | [] => []
  | x :: rest => if p x then rest else x :: removeFirst p rest
  end.

(** In-place change of the first element that satisfies [p]: what a write
    through the pointer a lookup returned does to the slice. *)
Fixpoint updateFirst {A : Type} (p : A -> bool) (f : A -> A) (s : list A)
  : list A :=
  match s with
  | [] => []
  | x :: rest => if p x then f x :: rest else x :: updateFirst p f rest
  end.

(** Modelled from the spec: [m.LookupInstanceGroup] is declared with the
    role manifest, which is not at hand; like [LookupJob], it is the first
    instance group of that name. *)
Definition LookupInstanceGroup (m : list InstanceGroup.t) (name : string)
  : option InstanceGroup.t :=
  List.find (fun g => String.eqb (InstanceGroup.Name g) name) m.

Definition ErrorList : Type := validation.ErrorList string.

(** [fmt.Sprintf("%v", names)] of a [[]string] *)
Definition Sprintf_v (names : list string) : string :=
  "[" +:+ Join names " " +:+ "]".

Section ResolveLinks.

(** [util.ConvertNameToKey] is outside the sources at hand. *)
Variable ConvertNameToKey : string -> string.

(** The two indices of the first pass, and the diagnostics so far. *)
Record indices : Type := mkIndices {
  providersByName : gmap string JobProvidesInfo.t;
  providersByType : gmap string (list JobProvidesInfo.t);
  errors : ErrorList
}.

Definition serviceNameOf (instanceGroup : InstanceGroup.t)
    (jobReference : JobReference.t) : string :=
  let serviceName := JobReference.ServiceName jobReference in
  if String.eqb serviceName EmptyString then
    ConvertNameToKey (InstanceGroup.Name instanceGroup) +:+ "-"
      +:+ ConvertNameToKey (JobReference.Name jobReference)
  else serviceName.

Definition providerInfo (instanceGroup : InstanceGroup.t)
    (jobReference : JobReference.t) (info : JobProvidesInfo.t)
  : JobProvidesInfo.t :=
  JobProvidesInfo.mk
    (JobLinkInfo.mk (JobLinkInfo.Name (JobProvidesInfo.Link info))
                    (JobLinkInfo.Type_ (JobProvidesInfo.Link info))
                    (InstanceGroup.Name instanceGroup)
                    (JobReference.Name jobReference)
                    (serviceNameOf instanceGroup jobReference))
    EmptyString false (JobProvidesInfo.Properties info).

(** The body of the loop over [jobReference.Job.AvailableProviders] *)
Definition availableStep (instanceGroup : InstanceGroup.t)
    (jobReference : JobReference.t)
    (st : list string * gmap string (list JobProvidesInfo.t))
    (entry : string * JobProvidesInfo.t)
  : list string * gmap string (list JobProvidesInfo.t) :=
  let '(availableProviders, byType) := st in
  let '(availableName, availableProvider) := entry in
  let type := JobLinkInfo.Type_ (JobProvidesInfo.Link availableProvider) in
  (availableProviders ++ [availableName],
   if String.eqb type EmptyString then byType
   else <[type := default [] (byType !! type)
                    ++ [providerInfo instanceGroup jobReference availableProvider]]>
          byType).

Definition providesField (instanceGroup : InstanceGroup.t)
    (jobReference : JobReference.t) (name : string) : string :=
  "instance_groups[" +:+ InstanceGroup.Name instanceGroup +:+ "].jobs["
    +:+ JobReference.Name jobReference +:+ "].provides[" +:+ name +:+ "]".

(** The body of the loop over [jobReference.ExportedProvides] *)
Definition exportedStep (instanceGroup : InstanceGroup.t)
    (jobReference : JobReference.t) (availableProviders : list string)
    (st : gmap string JobProvidesInfo.t * ErrorList)
    (entry : string * JobProvidesInfo.t)
  : gmap string JobProvidesInfo.t * ErrorList :=
  let '(byName, errs) := st in
  let '(name, provider) := entry in
  match amap.get name (Job.AvailableProviders (JobReference.Job jobReference)) with
  | None =>
      (byName,
       errs ++ [validation.NotFound
                  (providesField instanceGroup jobReference name)
                  ("Provider not found; available providers: "
                     +:+ Sprintf_v availableProviders)])
  | Some info =>
      let name :=
        if String.eqb (JobProvidesInfo.Alias provider) EmptyString then name
        else JobProvidesInfo.Alias provider in
      (<[name := providerInfo instanceGroup jobReference info]> byName, errs)
  end.

Definition indexJob (instanceGroup : InstanceGroup.t) (ix : indices)
    (jobReference : JobReference.t) : indices :=
  let '(availableProviders, byType) :=
    fold_left (availableStep instanceGroup jobReference)
      (Job.AvailableProviders (JobReference.Job jobReference))
      ([], providersByType ix) in
  let '(byName, errs) :=
    fold_left (exportedStep instanceGroup jobReference availableProviders)
      (JobReference.ExportedProvides jobReference)
      (providersByName ix, errors ix) in
  mkIndices byName byType errs.

Definition indexGroup (ix : indices) (instanceGroup : InstanceGroup.t)
  : indices :=
  fold_left (indexJob instanceGroup) (InstanceGroup.JobReferences instanceGroup) ix.

(** The first pass: providers by name and by type. *)
Definition buildIndices (m : list InstanceGroup.t) : indices :=
  fold_left indexGroup m (mkIndices ∅ ∅ []).

Definition jobField (instanceGroup : InstanceGroup.t)
    (jobReference : JobReference.t) : string :=
  "instance_group[" +:+ InstanceGroup.Name instanceGroup +:+ "].job["
    +:+ JobReference.Name jobReference +:+ "]".

Definition consumesField (instanceGroup : InstanceGroup.t)
    (jobReference : JobReference.t) (name : string) : string :=
  jobField instanceGroup jobReference +:+ ".consumes[" +:+ name +:+ "]".

(** The state of the second pass within one job reference: its
    [ResolvedConsumes], the [expectedConsumers] and the diagnostics. *)
Record resolving : Type := mkResolving {
  consumes : amap.t JobConsumesInfo.t;
  expectedConsumers : list JobConsumesInfo.t;
  errs : ErrorList
}.

(** The body of the loop over the consumers the role manifest marks *)
Definition explicitStep (ix : indices) (instanceGroup : InstanceGroup.t)
    (jobReference : JobReference.t) (st : resolving)
    (entry : string * JobConsumesInfo.t) : resolving :=
  let '(consumerName, consumerInfo) := entry in
  let consumerAlias :=
    if String.eqb (JobConsumesInfo.Alias consumerInfo) EmptyString
    then consumerName else JobConsumesInfo.Alias consumerInfo in
  if String.eqb consumerAlias EmptyString then
    mkResolving (consumes st) (expectedConsumers st)
      (errs st ++ [validation.Invalid (jobField instanceGroup jobReference)
                     "name" "consumer has no name"])
  else
    match providersByName ix !! consumerAlias with
    | None =>
        mkResolving (consumes st) (expectedConsumers st)
          (errs st ++ [validation.NotFound
                         (consumesField instanceGroup jobReference consumerName)
                         ("consumer " +:+ consumerAlias +:+ " not found")])
    | Some provider =>
        mkResolving
          (if JobConsumesInfo.Ignore consumerInfo
           then amap.delete consumerName (consumes st)
           else amap.set consumerName
                  (JobConsumesInfo.mk (JobProvidesInfo.Link provider)
                     EmptyString false false)
                  (consumes st))
          (removeFirst
             (fun c => String.eqb (JobLinkInfo.Name (JobConsumesInfo.Link c))
                                  consumerName)
             (expectedConsumers st))
          (errs st)
    end.

(** The provider an expected consumer is matched to: a published name, or
    the only provider of the same type in the whole deployment. *)
Definition matchProvider (ix : indices) (consumerInfo : JobConsumesInfo.t)
  : option JobProvidesInfo.t :=
  let name := JobLinkInfo.Name (JobConsumesInfo.Link consumerInfo) in
  let type := JobLinkInfo.Type_ (JobConsumesInfo.Link consumerInfo) in
  let byName :=
    if String.eqb name EmptyString then None else providersByName ix !! name in
  match byName with
  | Some provider => Some provider
  | None =>
      match default [] (providersByType ix !! type) with
      | [provider] => Some provider
      | _ => None
      end
  end.

(** The key under which an expected consumer is recorded *)
Definition bindingName (consumerInfo : JobConsumesInfo.t)
    (provider : JobProvidesInfo.t) : string :=
  let name := JobLinkInfo.Name (JobConsumesInfo.Link consumerInfo) in
  if String.eqb name EmptyString
  then JobLinkInfo.Name (JobProvidesInfo.Link provider) else name.

(** The body of the loop over the consumers not overridden in the role
    manifest; the state is [ResolvedConsumes] and the diagnostics. *)
Definition expectedStep (ix : indices) (instanceGroup : InstanceGroup.t)
    (jobReference : JobReference.t)
    (st : amap.t JobConsumesInfo.t * ErrorList)
    (consumerInfo : JobConsumesInfo.t)
  : amap.t JobConsumesInfo.t * ErrorList :=
  let '(rc, errs) := st in
  match matchProvider ix consumerInfo with
  | Some provider =>
      let name := bindingName consumerInfo provider in
      let info := default JobConsumesInfo.zero (amap.get name rc) in
      let link := JobProvidesInfo.Link provider in
      let info :=
        JobConsumesInfo.mk
          (JobLinkInfo.mk (JobLinkInfo.Name link) (JobLinkInfo.Type_ link)
             (JobLinkInfo.RoleName link) (JobLinkInfo.JobName link)
             (JobLinkInfo.ServiceName link))
          (JobConsumesInfo.Alias info) (JobConsumesInfo.Ignore info)
          (JobConsumesInfo.Optional info) in
      (amap.set name info rc, errs)
  | None =>
      if JobConsumesInfo.Optional consumerInfo then (rc, errs)
      else
        let name := JobLinkInfo.Name (JobConsumesInfo.Link consumerInfo) in
        let type := JobLinkInfo.Type_ (JobConsumesInfo.Link consumerInfo) in
        (rc,
         errs ++ [validation.Required
                    (consumesField instanceGroup jobReference name)
                    ("failed to resolve provider " +:+ name +:+ " (type "
                       +:+ type +:+ ")")])
  end.

(** The consumers that are left to the second loop *)
Definition afterExplicit (ix : indices) (instanceGroup : InstanceGroup.t)
    (jobReference : JobReference.t) (errs0 : ErrorList) : resolving :=
  fold_left (explicitStep ix instanceGroup jobReference)
    (JobReference.ResolvedConsumes jobReference)
    (mkResolving (JobReference.ResolvedConsumes jobReference)
       (Job.DesiredConsumers (JobReference.Job jobReference)) errs0).

(** Both loops for one job reference: its new [ResolvedConsumes] and the
    diagnostics. *)
Definition resolveJob (ix : indices) (instanceGroup : InstanceGroup.t)
    (jobReference : JobReference.t) (errs0 : ErrorList)
  : JobReference.t * ErrorList :=
  let st := afterExplicit ix instanceGroup jobReference errs0 in
  let '(rc, errs1) :=
    fold_left (expectedStep ix instanceGroup jobReference)
      (expectedConsumers st) (consumes st, errs st) in
  (JobReference.setResolvedConsumes rc jobReference, errs1).

Fixpoint resolveJobs (ix : indices) (instanceGroup : InstanceGroup.t)
    (jobReferences : list JobReference.t) (errs0 : ErrorList)
  : list JobReference.t * ErrorList :=
  match jobReferences with
  | [] => ([], errs0)
  | jobReference :: rest =>
      let '(jobReference', errs1) :=
        resolveJob ix instanceGroup jobReference errs0 in
      let '(rest', errs2) := resolveJobs ix instanceGroup rest errs1 in
      (jobReference' :: rest', errs2)
  end.

Fixpoint resolveGroups (ix : indices) (m : list InstanceGroup.t)
    (errs0 : ErrorList) : list InstanceGroup.t * ErrorList :=
  match m with
  | [] => ([], errs0)
  | instanceGroup :: rest =>
      let '(jobs', errs1) :=
        resolveJobs ix instanceGroup
          (InstanceGroup.JobReferences instanceGroup) errs0 in
      let '(rest', errs2) := resolveGroups ix rest errs1 in
      (InstanceGroup.setJobReferences jobs' instanceGroup :: rest', errs2)
  end.

(** *** recordJobConsumers *)

(** The append to [providerJob.ResolvedConsumedBy[linkName]], through the
    pointers the two lookups returned. *)
Definition addConsumedBy (roleName jobName linkName : string)
    (linkInfo : JobLinkInfo.t) (m : list InstanceGroup.t)
  : list InstanceGroup.t :=
  updateFirst
    (fun g => String.eqb (InstanceGroup.Name g) roleName)
    (fun g =>
       InstanceGroup.setJobReferences
         (updateFirst
            (fun j => String.eqb (Job.Name (JobReference.Job j)) jobName)
            (fun j =>
               JobReference.setResolvedConsumedBy
                 (amap.set linkName
                    (default [] (amap.get linkName
                                   (JobReference.ResolvedConsumedBy j))
                       ++ [linkInfo])
                    (JobReference.ResolvedConsumedBy j))
                 j)
            (InstanceGroup.JobReferences g))
         g)
    m.

Definition recordStep (consumerInstanceGroup : InstanceGroup.t)
    (consumerJob : JobReference.t) (st : list InstanceGroup.t * ErrorList)
    (entry : string * JobConsumesInfo.t) : list InstanceGroup.t * ErrorList :=
  let '(m, errs) := st in
  let '(linkName, consumer) := entry in
  let link := JobConsumesInfo.Link consumer in
  let field := consumesField consumerInstanceGroup consumerJob linkName in
  match LookupInstanceGroup m (JobLinkInfo.RoleName link) with
  | None =>
      (m, errs ++ [validation.InternalError field
                     ("Could not find resolved instance group "
                        +:+ JobLinkInfo.RoleName link)])
  | Some providerInstanceGroup =>
      match LookupJob providerInstanceGroup (JobLinkInfo.JobName link) with
      | None =>
          (m, errs ++ [validation.InternalError field
                         ("Could not find resolved job "
                            +:+ JobLinkInfo.JobName link
                            +:+ " in instance group "
                            +:+ JobLinkInfo.RoleName link)])
      | Some _ =>
          let linkInfo :=
            JobLinkInfo.mk (JobLinkInfo.Name link) (JobLinkInfo.Type_ link)
              (InstanceGroup.Name consumerInstanceGroup)
              (JobReference.Name consumerJob)
              (JobLinkInfo.ServiceName link) in
          (addConsumedBy (JobLinkInfo.RoleName link) (JobLinkInfo.JobName link)
             linkName linkInfo m,
           errs)
      end
  end.

Definition recordJob (consumerInstanceGroup : InstanceGroup.t)
    (st : list InstanceGroup.t * ErrorList) (consumerJob : JobReference.t)
  : list InstanceGroup.t * ErrorList :=
  fold_left (recordStep consumerInstanceGroup consumerJob)
    (JobReference.ResolvedConsumes consumerJob) st.

Definition recordGroup (st : list InstanceGroup.t * ErrorList)
    (consumerInstanceGroup : InstanceGroup.t)
  : list InstanceGroup.t * ErrorList :=
  fold_left (recordJob consumerInstanceGroup)
    (InstanceGroup.JobReferences consumerInstanceGroup) st.

(** [recordJobConsumers]: the loops range over the resolved consumers,
    which the body does not write. *)
Definition recordJobConsumers (m : list InstanceGroup.t)
  : list InstanceGroup.t * ErrorList :=
  fold_left recordGroup m (m, []).

(** [ResolveLinks]: the role manifest as the call leaves it, and the list
    of diagnostics it returns. *)
Definition ResolveLinks (m : RoleManifest.t) : RoleManifest.t * ErrorList :=
  let ix := buildIndices (RoleManifest.InstanceGroups m) in
  let '(groups, errs) :=
    resolveGroups ix (RoleManifest.InstanceGroups m) (errors ix) in
  let '(groups', errs') := recordJobConsumers groups in
  (RoleManifest.mk groups', errs ++ errs').

End ResolveLinks.

End resolver.

(** ** compilator/compilator.go: the scheduling of package compilation *)

Module compilator.

Import model.

(** A panic of the Go runtime ends the call without a value. *)
Inductive outcome (A : Type) : Type :=
  | Done (a : A)
  | Panic (msg : string).
Arguments Done {A} a.
Arguments Panic {A} msg.

(** A [chan struct{}] that is only ever closed: what counts is whether it
    was. *)
Inductive chan : Type :=
  | Open
  | Closed.

(** [close(signalDependencies[fingerprint])]: closing a nil channel (no
    entry) or a closed one panics. *)
Definition closeSignal (fingerprint : string) (signalDependencies : gmap string chan)
  : outcome (gmap string chan) :=
  match signalDependencies !! fingerprint with
  | Some Open => Done (<[fingerprint := Closed]> signalDependencies)
  | Some Closed => Panic "close of closed channel"
  | None => Panic "close of nil channel"
  end.

(** *** gatherPackagesFromInstanceGroups *)

(** The packages of the jobs of the instance groups that belong to the
    release: the initial content of [pendingPackages]. *)
Definition initialPending (release : Release.t)
    (instanceGroups : list InstanceGroup.t) : list Package.t :=
  List.concat
    (List.map
       (fun instanceGroup =>
          List.concat
            (List.map
               (fun jobReference =>
                  List.filter
                    (fun pkg => String.eqb (Package.ReleaseName pkg)
                                           (Release.Name release))
                    (Job.Packages (JobReference.Job jobReference)))
               (InstanceGroup.JobReferences instanceGroup)))
       instanceGroups).

(** The walk over [pendingPackages], which grows at its back while it is
    walked. [None] when the fuel runs out first. *)
Fixpoint pendingLoop (fuel : nat) (pendingPackages : list Package.t)
    (listedPackages : gmap string bool) (resultPackages : list Package.t)
  : option (list Package.t) :=
  match pendingPackages with
  | [] => Some resultPackages
  | pkg :: rest =>
      match fuel with
      | O => None
      | S fuel' =>
          if default false (listedPackages !! Package.Name pkg) then
            pendingLoop fuel' rest listedPackages resultPackages
          else
            pendingLoop fuel' (rest ++ Package.Dependencies pkg)
              (<[Package.Name pkg := true]> listedPackages)
              (resultPackages ++ [pkg])
      end
  end.

(** The number of packages in a package and everything below it. *)
Fixpoint packageSize (pkg : Package.t) : nat :=
  S ((fix sizes (l : list Package.t) : nat :=
        match l with
        | [] => O
        | d :: l' => (packageSize d + sizes l')%nat
        end) (Package.Dependencies pkg)).

Definition packagesSize (l : list Package.t) : nat :=
  list_sum (List.map packageSize l).

Definition gatherPackagesFromInstanceGroups (release : Release.t)
    (instanceGroups : list InstanceGroup.t) : list Package.t :=
  let pending := initialPending release instanceGroups in
  default [] (pendingLoop (packagesSize pending) pending ∅ []).

(** *** gatherPackages *)

(** The body of the inner loop: a package is taken when its fingerprint has
    no signal channel yet. *)
Definition gatherStep (st : list Package.t * gmap string chan)
    (pkg : Package.t) : list Package.t * gmap string chan :=
  let '(packages, signalDependencies) := st in
  match signalDependencies !! Package.Fingerprint pkg with
  | Some _ => st
  | None =>
      (packages ++ [pkg],
       <[Package.Fingerprint pkg := Open]> signalDependencies)
  end.

(** The packages of one release; [instanceGroups] is [None] for [nil]. *)
Definition releasePackagesOf (instanceGroups : option (list InstanceGroup.t))
    (release : Release.t) : list Package.t :=
  match instanceGroups with
  | Some groups => gatherPackagesFromInstanceGroups release groups
  | None => Release.Packages release
  end.

Definition gatherRelease (instanceGroups : option (list InstanceGroup.t))
    (st : list Package.t * gmap string chan) (release : Release.t)
  : list Package.t * gmap string chan :=
  fold_left gatherStep (releasePackagesOf instanceGroups release) st.

(** [gatherPackages]: the packages to look at, and [c.signalDependencies]
    as the call leaves it. *)
Definition gatherPackages (signalDependencies : gmap string chan)
    (releases : list Release.t) (instanceGroups : option (list InstanceGroup.t))
  : list Package.t * gmap string chan :=
  fold_left (gatherRelease instanceGroups) releases ([], signalDependencies).

(** *** createDepBuckets *)

(** [m[k]] of a Go map of counters: zero when there is no entry. *)
Definition count (depCount : gmap string Z) (fingerprint : string) : Z :=
  default 0 (depCount !! fingerprint).

Definition initDepCount (packages : list Package.t) : gmap string Z :=
  fold_left (fun depCount pkg => <[Package.Fingerprint pkg := 0]> depCount)
    packages ∅.

(** The body of the loop over [pkg.Dependencies] *)
Definition depStep (pkg : Package.t)
    (st : gmap string Z * gmap string (list Package.t)) (dep : Package.t)
  : gmap string Z * gmap string (list Package.t) :=
  let '(depCount, revDeps) := st in
  match depCount !! Package.Fingerprint dep with
  | None => st
  | Some _ =>
      (<[Package.Fingerprint pkg := count depCount (Package.Fingerprint pkg) + 1]>
         depCount,
       <[Package.Fingerprint dep :=
           default [] (revDeps !! Package.Fingerprint dep) ++ [pkg]]> revDeps)
  end.

Definition countDeps (packages : list Package.t)
  : gmap string Z * gmap string (list Package.t) :=
  fold_left (fun st pkg => fold_left (depStep pkg) (Package.Dependencies pkg) st)
    packages (initDepCount packages, ∅).

(** The state of the queueing loops *)
Record queueing : Type := mkQueueing {
  depCount : gmap string Z;
  keepRunning : bool;
  rubies : list Package.t;
  buckets : list Package.t
}.

Definition isRuby (pkg : Package.t) : bool :=
  String.prefix "ruby-2." (Package.Name pkg).

(** [depCount[usr.Fingerprint]--] for every user of the package queued *)
Definition notifyUsers (users : list Package.t) (depCount : gmap string Z)
  : gmap string Z :=
  fold_left
    (fun depCount usr =>
       <[Package.Fingerprint usr := count depCount (Package.Fingerprint usr) - 1]>
         depCount)
    users depCount.

(** The body of the inner loop over [packages] *)
Definition visit (revDeps : gmap string (list Package.t)) (st : queueing)
    (pkg : Package.t) : queueing :=
  if negb (count (depCount st) (Package.Fingerprint pkg) =? 0) then st
  else
    let depCount1 :=
      <[Package.Fingerprint pkg := count (depCount st) (Package.Fingerprint pkg) - 1]>
        (depCount st) in
    let depCount2 :=
      notifyUsers (default [] (revDeps !! Package.Fingerprint pkg)) depCount1 in
    if isRuby pkg then
      mkQueueing depCount2 true (rubies st ++ [pkg]) (buckets st)
    else
      mkQueueing depCount2 true (rubies st) (buckets st ++ [pkg]).

(** One run of the body of [for keepRunning] *)
Definition round (revDeps : gmap string (list Package.t))
    (packages : list Package.t) (st : queueing) : queueing :=
  fold_left (visit revDeps) packages
    (mkQueueing (depCount st) false (rubies st) (buckets st)).

(** [for keepRunning { ... }]; [None] when the fuel runs out first. *)
Fixpoint rounds (fuel : nat) (revDeps : gmap string (list Package.t))
    (packages : list Package.t) (st : queueing) : option queueing :=
  match fuel with
  | O => None
  | S fuel' =>
      let st' := round revDeps packages st in
      if keepRunning st' then rounds fuel' revDeps packages st'
      else Some st'
  end.

Definition createDepBuckets_fuel (fuel : nat) (packages : list Package.t)
  : option (list Package.t) :=
  let '(depCount, revDeps) := countDeps packages in
  match rounds fuel revDeps packages (mkQueueing depCount true [] []) with
  | Some st => Some (rubies st ++ buckets st)
  | None => None
  end.

(** [createDepBuckets]; one round more than there are packages is always
    enough. *)
Definition createDepBuckets (packages : list Package.t) : list Package.t :=
  default [] (createDepBuckets_fuel (S (List.length packages)) packages).

(** *** Compile *)

Definition errWorkerAbort : string := "worker aborted".

Module compileResult.
Record t : Type := mk {
  pkg : Package.t;
  err : option string
}.
End compileResult.

(** What the synchronizer holds while it drains [doneCh]. *)
Record synchronizing : Type := mkSynchronizing {
  signalDependencies : gmap string chan;
  killCh : chan;
  killed : bool;
  err : option string;
  ui : list string
}.

(** The body of [for result := range doneCh] *)
Definition receive (st : synchronizing) (result : compileResult.t)
  : outcome synchronizing :=
  let pkg := compileResult.pkg result in
  match compileResult.err result with
  | None =>
      match closeSignal (Package.Fingerprint pkg) (signalDependencies st) with
      | Panic msg => Panic msg
      | Done signals =>
          Done (mkSynchronizing signals (killCh st) (killed st) (err st)
                  (ui st ++ ["result   > success: " +:+ Package.ReleaseName pkg
                               +:+ "/" +:+ Package.Name pkg]))
      end
  | Some e =>
      let ui' :=
        ui st ++ ["result   > failure: " +:+ Package.ReleaseName pkg +:+ "/"
                    +:+ Package.Name pkg +:+ " - " +:+ e] in
      if killed st then
        Done (mkSynchronizing (signalDependencies st) (killCh st) true (Some e) ui')
      else
        Done (mkSynchronizing (signalDependencies st) Closed true (Some e) ui')
  end.

Fixpoint drain (results : list compileResult.t) (st : synchronizing)
  : outcome synchronizing :=
  match results with
  | [] => Done st
  | result :: rest =>
      match receive st result with
      | Panic msg => Panic msg
      | Done st' => drain rest st'
      end
  end.

Section Compile.

(** [isPackageCompiledHarness] looks at the disk; [sort.Sort(packages)]
    uses the order on packages, which is declared with them. *)
Variable isPackageCompiledHarness : Package.t -> result bool.
Variable sortPackages : list Package.t -> list Package.t.

(** [removeCompiledPackages]: the signal of a compiled package is closed,
    the others are kept. Returned are the packages kept, or the error, and
    [c.signalDependencies] as the call leaves it. *)
Fixpoint removeCompiledPackages (packages : list Package.t)
    (signalDependencies : gmap string chan) (culledPackages : list Package.t)
  : outcome (result (list Package.t) * gmap string chan) :=
  match packages with
  | [] => Done (Ok culledPackages, signalDependencies)
  | pkg :: rest =>
      match isPackageCompiledHarness pkg with
      | Err e => Done (Err e, signalDependencies)
      | Ok true =>
          match closeSignal (Package.Fingerprint pkg) signalDependencies with
          | Panic msg => Panic msg
          | Done signals => removeCompiledPackages rest signals culledPackages
          end
      | Ok false =>
          removeCompiledPackages rest signalDependencies (culledPackages ++ [pkg])
      end
  end.

(** What a call of [Compile] leaves behind: the error it returns, the
    compile jobs it added to the worker, and the state of the channels. *)
Record compiled : Type := mkCompiled {
  returned : option string;
  jobs : list Package.t;
  final : synchronizing
}.

(** [Compile]. The workers run beside the synchronizer; [results] is what
    they send on [doneCh] until it is closed, in the order the synchronizer
    receives it. *)
Definition Compile (signalDependencies0 : gmap string chan)
    (releases : list Release.t) (instanceGroups : option (list InstanceGroup.t))
    (results : list compileResult.t) : outcome compiled :=
  let '(gathered, signals) :=
    gatherPackages signalDependencies0 releases instanceGroups in
  match removeCompiledPackages gathered signals [] with
  | Panic msg => Panic msg
  | Done (Err e, signals') =>
      Done (mkCompiled (Some ("failed to remove compiled packages: " +:+ e)) []
              (mkSynchronizing signals' Open false (Some e) []))
  | Done (Ok [], signals') =>
      Done (mkCompiled None []
              (mkSynchronizing signals' Open false None
                 ["No package needed to be built"]))
  | Done (Ok packages, signals') =>
      let packages := sortPackages packages in
      let buckets := createDepBuckets packages in
      match drain results (mkSynchronizing signals' Open false None []) with
      | Panic msg => Panic msg
      | Done st => Done (mkCompiled (err st) buckets st)
      end
  end.

End Compile.

(** *** isPackageCompiled *)

(** What the operating system answers: [os.Stat] (an error for which
    [os.IsNotExist] holds, another error, or the information whether the
    path is a directory), and [os.Open] followed by [Readdir(1)] (which
    reports [io.EOF] for an empty directory). *)
Inductive statResult : Type :=
  | StatNotExist
  | StatError (e : string)
  | StatInfo (isDir : bool).

Inductive readdirResult : Type :=
  | ReaddirEOF
  | ReaddirError (e : string)
  | ReaddirEntry.

Inductive openResult : Type :=
  | OpenError (e : string)
  | Opened (entries : readdirResult).

(** [validatePath], on what [os.Stat(path)] answered *)
Definition validatePath (stat : statResult) (path : string)
    (shouldBeDir : bool) (pathDescription : string) : bool * option string :=
  match stat with
  | StatNotExist => (false, None)
  | StatError e => (false, Some e)
  | StatInfo isDir =>
      if isDir && negb shouldBeDir then
        (false,
         Some ("Path " +:+ path +:+ " (" +:+ pathDescription
                 +:+ ") points to a directory. It should be a a file"))
      else if negb isDir && shouldBeDir then
        (false,
         Some ("Path " +:+ path +:+ " (" +:+ pathDescription
                 +:+ ") points to a file. It should be a directory"))
      else (true, None)
  end.

(** [isDirEmpty], on what [os.Open(path)] and [Readdir(1)] answered *)
Definition isDirEmpty (opened : openResult) : bool * option string :=
  match opened with
  | OpenError e => (true, Some e)
  | Opened ReaddirEOF => (true, None)
  | Opened (ReaddirError e) => (false, Some e)
  | Opened ReaddirEntry => (false, None)
  end.

Section isPackageCompiled.

(** The disk, and the directory of the compiled package below the work
    directory of the host, which is declared with the packages. *)
Variable os_Stat : string -> statResult.
Variable os_Open : string -> openResult.
Variable GetPackageCompiledDir : Package.t -> string.

Definition isPackageCompiled (pkg : Package.t) : bool * option string :=
  let compiledPackagePath := GetPackageCompiledDir pkg in
  let '(compiledPackagePathExists, err) :=
    validatePath (os_Stat compiledPackagePath) compiledPackagePath true
      "package path" in
  match err with
  | Some e => (false, Some e)
  | None =>
      if negb compiledPackagePathExists then (false, None)
      else
        let '(compiledDirEmpty, err) := isDirEmpty (os_Open compiledPackagePath) in
        match err with
        | Some e => (false, Some e)
        | None => (negb compiledDirEmpty, None)
        end
  end.

End isPackageCompiled.

(** *** compileJob.Run *)

(** The case a [select] of the wait loop takes: the kill channel, the
    timer, or the signal of the dependency. *)
Inductive selected : Type :=
  | KillCase
  | TimeoutCase
  | DepCase.

(** The inner loop [for !done]: [choices] are the cases the selects take,
    one after the other. [None]: still waiting when they are used up.
    Else whether the job was killed, and the choices that are left. *)
Fixpoint waitForDep (choices : list selected) : option (bool * list selected) :=
  match choices with
  | [] => None
  | KillCase :: rest => Some (true, rest)
  | TimeoutCase :: rest => waitForDep rest
  | DepCase :: rest => Some (false, rest)
  end.

(** The loop over [j.pkg.Dependencies] *)
Fixpoint waitForDeps (deps : list Package.t) (choices : list selected)
  : option bool :=
  match deps with
  | [] => Some false
  | dep :: deps' =>
      match waitForDep choices with
      | None => None
      | Some (true, _) => Some true
      | Some (false, rest) => waitForDeps deps' rest
      end
  end.

(** What the calls on [c.packageStorage] answer for the package. *)
Module packageStorage.
Record t : Type := mk {
  Exists : bool * option string;
  Download : option string;
  Upload : option string;
  ReadOnly : bool
}.
End packageStorage.

(** What [Run] sends on [doneCh] once the dependencies are there;
    [compilePackage] is the error of [c.compilePackage(c, j.pkg)]. The
    messages to the user and the metrics are left out. *)
Definition runCompile (pkg : Package.t) (storage : option packageStorage.t)
    (compilePackage : option string) : list compileResult.t :=
  let '(exists_, sent) :=
    match storage with
    | None => (false, [])
    | Some s =>
        match packageStorage.Exists s with
        | (b, Some e) => (b, [compileResult.mk pkg (Some e)])
        | (b, None) => (b, [])
        end
    end in
  match exists_, storage with
  | true, Some s => sent ++ [compileResult.mk pkg (packageStorage.Download s)]
  | _, _ =>
      let workerErr :=
        match compilePackage, storage with
        | None, Some s =>
            if negb (packageStorage.ReadOnly s) then packageStorage.Upload s
            else None
        | _, _ => compilePackage
        end in
      sent ++ [compileResult.mk pkg workerErr]
  end.

(** [compileJob.Run]: the results the job sends on [doneCh]; [None] while
    it still waits. *)
Definition Run (pkg : Package.t) (choices : list selected)
    (storage : option packageStorage.t) (compilePackage : option string)
  : option (list compileResult.t) :=
  match waitForDeps (Package.Dependencies pkg) choices with
  | None => None
  | Some true => Some [compileResult.mk pkg (Some errWorkerAbort)]
  | Some false => Some (runCompile pkg storage compilePackage)
  end.

End compilator.

(** ** package kube: the service emitter *)

(** Modelled from the spec: the helm package, whose nodes the emitter
    builds, is not among the sources at hand. A document is a tree of
    scalars, lists and mappings ("a set of container-orchestration
    documents ... emitted either as concrete YAML or as a templated chart");
    a node may carry the condition of a template block. *)
Module helm.

Inductive Node : Type :=
  | Scalar (value : string) (block : string)
  | Number (value : Z)
  | Strings (values : list string)
  | List_ (items : list Node)
  | Mapping (nodes : list (string * Node)) (block : string).

(** [helm.NewMapping(k1, v1, k2, v2, ...)] *)
Definition NewMapping (nodes : list (string * Node)) : Node :=
  Mapping nodes EmptyString.

(** [mapping.Add(name, value)] *)
Definition Add (name : string) (value : Node) (mapping : Node) : Node :=
  match mapping with
  | Mapping nodes block => Mapping (nodes ++ [(name, value)]) block
  | other => other
  end.

(** [node.Set(helm.Block(block))] *)
Definition SetBlock (block : string) (node : Node) : Node :=
  match node with
  | Mapping nodes _ => Mapping nodes block
  | Scalar value _ => Scalar value block
  | other => other
  end.

Fixpoint insertSorted (entry : string * Node) (nodes : list (string * Node))
  : list (string * Node) :=
  match nodes with
  | [] => [entry]
  | e :: rest =>
      if String.leb (fst entry) (fst e) then entry :: e :: rest
      else e :: insertSorted entry rest
  end.

(** [mapping.Sort()]: the entries by name *)
Definition Sort (mapping : Node) : Node :=
  match mapping with
  | Mapping nodes block => Mapping (fold_right insertSorted [] nodes) block
  | other => other
  end.

(** [mapping.Get(name)] *)
Definition Get (name : string) (mapping : Node) : option Node :=
  match mapping with
  | Mapping nodes _ => amap.get name nodes
  | _ => None
  end.

End helm.

Module kube.

Import model.

(** Modelled from the spec: the export settings are declared in a file that
    is not at hand; the emitter reads whether a chart is created. *)
Module ExportSettings.
Record t : Type := mk { CreateHelmChart : bool }.
End ExportSettings.

(** [newServiceType] *)
Inductive newServiceType : Type :=
  | newServiceTypeHeadless
  | newServiceTypePrivate
  | newServiceTypePublic.

Definition isHeadless (serviceType : newServiceType) : bool :=
  match serviceType with newServiceTypeHeadless => true | _ => false end.

Definition isPublic (serviceType : newServiceType) : bool :=
  match serviceType with newServiceTypePublic => true | _ => false end.

Section services.

(** Declared elsewhere in the package or in [util]: the label names, the
    variable names of the chart, the key of a name and the builder of the
    document head. *)
Variable RoleNameLabel : string.
Variable AppNameLabel : string.
Variable makeVarName : string -> string.
Variable ConvertNameToKey : string -> string.
Variable Build : ExportSettings.t -> string -> string -> string -> result helm.Node.

Definition Sprintf_int (n : Z) : string := Sprintf_d n.

(** The double quote character *)
Definition quote : string := String "034"%char EmptyString.

(** The ports of the branch without a configurable count: one for every
    [portIndex] from [0] up to [port.Count]. *)
Fixpoint countedPorts (settings : ExportSettings.t)
    (serviceType : newServiceType) (roleName : string)
    (port : JobExposedPort.t) (n : nat) (portIndex : Z) : list helm.Node :=
  match n with
  | O => []
  | S n' =>
      let portName :=
        if 1 <? JobExposedPort.Max port
        then JobExposedPort.Name port +:+ "-" +:+ Sprintf_int portIndex
        else JobExposedPort.Name port in
      let portNumber :=
        if ExportSettings.CreateHelmChart settings
           && JobExposedPort.PortIsConfigurable port
        then helm.Scalar
               ("{{ add (int $.Values.sizing." +:+ makeVarName roleName
                  +:+ ".ports." +:+ makeVarName (JobExposedPort.Name port)
                  +:+ ".port) " +:+ Sprintf_int portIndex +:+ " }}")
               EmptyString
        else helm.Number (int_wrap (JobExposedPort.ExternalPort port + portIndex)) in
      let newPort :=
        helm.NewMapping
          [("name", helm.Scalar portName EmptyString);
           ("port", portNumber);
           ("protocol", helm.Scalar (JobExposedPort.Protocol port) EmptyString)] in
      let newPort :=
        if isHeadless serviceType
        then helm.Add "targetPort" (helm.Number 0) newPort
        else helm.Add "targetPort"
               (helm.Number (int_wrap (JobExposedPort.InternalPort port + portIndex)))
               newPort in
      newPort :: countedPorts settings serviceType roleName port n' (portIndex + 1)
  end.

(** [createPorts] *)
Definition createPorts (settings : ExportSettings.t)
    (serviceType : newServiceType) (roleName : string)
    (port : JobExposedPort.t) : list helm.Node :=
  if ExportSettings.CreateHelmChart settings
     && JobExposedPort.CountIsConfigurable port
  then
    let sizing :=
      ".Values.sizing." +:+ makeVarName roleName +:+ ".ports."
        +:+ makeVarName (JobExposedPort.Name port) in
    let block := "range $port := until (int " +:+ sizing +:+ ".count)" in
    let portName :=
      if 1 <? JobExposedPort.Max port
      then JobExposedPort.Name port +:+ "-{{ $port }}"
      else JobExposedPort.Name port in
    let portNumber :=
      if JobExposedPort.PortIsConfigurable port
      then "{{ add (int $" +:+ sizing +:+ ".port) $port }}"
      else "{{ add " +:+ Sprintf_int (JobExposedPort.ExternalPort port)
             +:+ " $port }}" in
    let newPort :=
      helm.SetBlock block
        (helm.NewMapping
           [("name", helm.Scalar portName EmptyString);
            ("port", helm.Scalar portNumber EmptyString);
            ("protocol", helm.Scalar (JobExposedPort.Protocol port) EmptyString)]) in
    let newPort :=
      if isHeadless serviceType
      then helm.Add "targetPort" (helm.Number 0) newPort
      else helm.Add "targetPort" (helm.Scalar portName EmptyString) newPort in
    [newPort]
  else
    countedPorts settings serviceType roleName port
      (Z.to_nat (JobExposedPort.Count port)) 0.

(** The selector of a service of the instance group *)
Definition selectorOf (role : InstanceGroup.t) (settings : ExportSettings.t)
  : helm.Node :=
  let selector :=
    helm.NewMapping [(RoleNameLabel, helm.Scalar (InstanceGroup.Name role) EmptyString)] in
  let selector :=
    if HasTag role RoleTagActivePassive
    then helm.Add "skiff-role-active" (helm.Scalar "true" EmptyString) selector
    else selector in
  if HasTag role RoleTagIstioManaged && ExportSettings.CreateHelmChart settings
  then helm.Add AppNameLabel
         (helm.Scalar (InstanceGroup.Name role) "if .Values.config.use_istio")
         selector
  else selector.

(** The ports [newClusteringService] collects *)
Definition clusteringPorts (role : InstanceGroup.t) (settings : ExportSettings.t)
  : list helm.Node :=
  List.concat
    (List.map
       (fun job =>
          List.concat
            (List.map
               (createPorts settings newServiceTypeHeadless (InstanceGroup.Name role))
               (JobReference.Ports job)))
       (InstanceGroup.JobReferences role)).

(** [newClusteringService]; [Ok None] is the [nil, nil] of no service. *)
Definition newClusteringService (role : InstanceGroup.t)
    (settings : ExportSettings.t) : result (option helm.Node) :=
  let ports := clusteringPorts role settings in
  match ports with
  | [] => Ok None
  | _ :: _ =>
      let spec := helm.NewMapping [] in
      let spec := helm.Add "selector" (selectorOf role settings) spec in
      let spec := helm.Add "clusterIP" (helm.Scalar "None" EmptyString) spec in
      let spec := helm.Add "ports" (helm.List_ ports) spec in
      match Build settings "v1" "Service" (InstanceGroup.Name role +:+ "-set") with
      | Err e => Err ("failed to build a new kube config: " +:+ e)
      | Ok service => Ok (Some (helm.Add "spec" (helm.Sort spec) service))
      end
  end.

(** The ports [newService] collects: the non-public ones are skipped for a
    public service. *)
Definition servicePorts (role : InstanceGroup.t) (job : JobReference.t)
    (serviceType : newServiceType) (settings : ExportSettings.t)
  : list helm.Node :=
  List.concat
    (List.map
       (fun port =>
          if isPublic serviceType && negb (JobExposedPort.Public port) then []
          else createPorts settings serviceType (InstanceGroup.Name role) port)
       (JobReference.Ports job)).

(** [newService]; [Ok None] is the [nil, nil] of no service. *)
Definition newService (role : InstanceGroup.t) (job : JobReference.t)
    (serviceType : newServiceType) (settings : ExportSettings.t)
  : result (option helm.Node) :=
  let ports := servicePorts role job serviceType settings in
  match ports with
  | [] => Ok None
  | _ :: _ =>
      let spec := helm.NewMapping [] in
      let spec := helm.Add "selector" (selectorOf role settings) spec in
      let spec :=
        if isHeadless serviceType
        then helm.Add "clusterIP" (helm.Scalar "None" EmptyString) spec
        else spec in
      let spec :=
        if isPublic serviceType then
          if ExportSettings.CreateHelmChart settings then
            helm.Add "type"
              (helm.Scalar "LoadBalancer" "if .Values.services.loadbalanced")
              (helm.Add "externalIPs"
                 (helm.Scalar "{{ .Values.kube.external_ips | toJson }}"
                    "if not (or .Values.services.loadbalanced .Values.ingress.enabled)")
                 spec)
          else helm.Add "externalIPs" (helm.Strings ["192.168.77.77"]) spec
        else spec in
      let spec := helm.Add "ports" (helm.List_ ports) spec in
      let serviceName :=
        if (String.length (JobReference.ServiceName job) =? 0)%nat
        then ConvertNameToKey (InstanceGroup.Name role +:+ "-"
                                 +:+ JobReference.Name job)
        else JobReference.ServiceName job in
      let serviceName :=
        match serviceType with
        | newServiceTypeHeadless => serviceName +:+ "-set"
        | newServiceTypePrivate => serviceName
        | newServiceTypePublic => serviceName +:+ "-public"
        end in
      match Build settings "v1" "Service" serviceName with
      | Err e => Err ("failed to build a new kube config: " +:+ e)
      | Ok service =>
          let service := helm.Add "spec" (helm.Sort spec) service in
          if ExportSettings.CreateHelmChart settings && isPublic serviceType
          then Ok (Some
                 (helm.Add "_incompatible"
                    (helm.Scalar
                       ("{{ fail " +:+ quote
                          +:+ "services.loadbalanced and ingress.enabled cannot both be set"
                          +:+ quote +:+ " }}")
                       "if and .Values.services.loadbalanced .Values.ingress.enabled")
                    service))
          else Ok (Some service)
      end
  end.

(** *** NewServiceList *)

(** [newTypeMeta] is declared elsewhere in the package. *)
Variable newTypeMeta : string -> string -> helm.Node.

(** [if svc != nil { items = append(items, svc) }] *)
Definition appendService (items : list helm.Node) (svc : option helm.Node)
  : list helm.Node :=
  match svc with
  | Some node => items ++ [node]
  | None => items
  end.

(** The loop over [role.JobReferences]: for every job the headless service
    when clustering, the private and the public service; the first error
    ends the call. *)
Fixpoint jobServices (role : InstanceGroup.t) (clustering : bool)
    (settings : ExportSettings.t) (jobs : list JobReference.t)
    (items : list helm.Node) : result (list helm.Node) :=
  match jobs with
  | [] => Ok items
  | job :: rest =>
      do items1 <-
        (if clustering then
           do svc <- newService role job newServiceTypeHeadless settings;
           Ok (appendService items svc)
         else Ok items);
      do svc <- newService role job newServiceTypePrivate settings;
      let items2 := appendService items1 svc in
      do svc <- newService role job newServiceTypePublic settings;
      let items3 := appendService items2 svc in
      jobServices role clustering settings rest items3
  end.

(** [NewServiceList]; [Ok None] is the [nil, nil] of no list. *)
Definition NewServiceList (role : InstanceGroup.t) (clustering : bool)
    (settings : ExportSettings.t) : result (option helm.Node) :=
  do items0 <-
    (if clustering then
       do svc <- newClusteringService role settings;
       Ok (appendService [] svc)
     else Ok []);
  do items <-
    jobServices role clustering settings (InstanceGroup.JobReferences role)
      items0;
  match items with
  | [] => Ok None
  | _ :: _ =>
      Ok (Some (helm.Sort
                  (helm.Add "items" (helm.List_ items)
                     (newTypeMeta "v1" "List"))))
  end.

End services.

End kube.

(** ** Inputs of the examples *)

(** The property [a.b.c] with the default 42, and opinions whose dark side
    holds [leaf] at [a.b.c]. *)
Definition abc : model.JobProperty.t := model.JobProperty.mk "a.b.c" "a property" (model.Int 42).

Definition darkAt (leaf : model.Value) : model.Opinions.t :=
  model.Opinions.mk
    [("properties", model.MapI [])]
    [("properties", model.MapI [("a", model.MapI [("b", model.MapI [("c", leaf)])])])].


(** The packages of scenario 1: A, B that depends on A, ruby-2.6, and C
    that depends on B; and a release that holds them. *)
Definition pkgA : model.Package.t :=
  model.Package.mk "A" "1" "fp-a" "sha-a" "rel" [].

Definition pkgB : model.Package.t :=
  model.Package.mk "B" "1" "fp-b" "sha-b" "rel" [pkgA].

Definition pkgRuby : model.Package.t :=
  model.Package.mk "ruby-2.6" "1" "fp-ruby" "sha-ruby" "rel" [].

Definition pkgC : model.Package.t :=
  model.Package.mk "C" "1" "fp-c" "sha-c" "rel" [pkgB].

Definition release1 : model.Release.t :=
  model.Release.mk [pkgA; pkgB; pkgRuby; pkgC] "rel" false EmptyString "1" None.

(** Nothing is compiled yet, and the packages are in order already. *)
Definition notCompiled : model.Package.t -> result bool := fun _ => Ok false.

Definition sorted : list model.Package.t -> list model.Package.t := fun l => l.

(** A run in which B fails and C, which waits for B, is told to stop. *)
Definition resultsBFails : list compilator.compileResult.t :=
  [compilator.compileResult.mk pkgA None;
   compilator.compileResult.mk pkgB (Some "exit status 1");
   compilator.compileResult.mk pkgRuby None;
   compilator.compileResult.mk pkgC (Some compilator.errWorkerAbort)].

(** A ruby package that depends on A. *)
Definition pkgRubyOnA : model.Package.t :=
  model.Package.mk "ruby-2.6" "1" "fp-ruby" "sha-ruby" "rel" [pkgA].

(** The depth of the packages of scenario 1 in their dependency graph, by
    fingerprint. *)
Definition scenarioRank (f : string) : nat :=
  if String.eqb f "fp-b" then 1%nat
  else if String.eqb f "fp-c" then 2%nat
  else 0%nat.

(** Scenario 3: instance group A exposes provider p1 of type T; instance
    group B consumes a link of type T without a name. *)
Definition noContainer : model.BoshContainerization.t :=
  model.BoshContainerization.mk [] None EmptyString [].

Definition linkOf (name type : string) : model.JobLinkInfo.t :=
  model.JobLinkInfo.mk name type EmptyString EmptyString EmptyString.

Definition providerP1 : model.JobProvidesInfo.t :=
  model.JobProvidesInfo.mk (linkOf "p1" "T") EmptyString false [].

Definition providerJob : model.JobReference.t :=
  model.JobReference.mk
    (model.Job.mk "pj" [] "fp-pj" "sha-pj" [] [("p1", providerP1)] [])
    "pj" "rel" [("p1", providerP1)] [] [] noContainer.

Definition consumerOfT : model.JobConsumesInfo.t :=
  model.JobConsumesInfo.mk (linkOf EmptyString "T") EmptyString false false.

Definition consumerJob (wanted : list model.JobConsumesInfo.t)
    (marked : amap.t model.JobConsumesInfo.t) : model.JobReference.t :=
  model.JobReference.mk
    (model.Job.mk "cj" [] "fp-cj" "sha-cj" [] [] wanted)
    "cj" "rel" [] marked [] noContainer.

Definition groupOf (name : string) (jobs : list model.JobReference.t)
  : model.InstanceGroup.t :=
  model.InstanceGroup.mk name "bosh" jobs [] None.

Definition scenario3 : resolver.RoleManifest.t :=
  resolver.RoleManifest.mk
    [groupOf "A" [providerJob]; groupOf "B" [consumerJob [consumerOfT] []]].

(** The same with a second provider of type T, in instance group C. *)
Definition twoProviders : resolver.RoleManifest.t :=
  resolver.RoleManifest.mk
    [groupOf "A" [providerJob]; groupOf "B" [consumerJob [consumerOfT] []];
     groupOf "C" [providerJob]].

(** B needs the link p1 by name, and the role manifest marks it to be
    ignored. *)
Definition consumerOfP1 : model.JobConsumesInfo.t :=
  model.JobConsumesInfo.mk (linkOf "p1" "T") EmptyString false false.

Definition ignoreMark : model.JobConsumesInfo.t :=
  model.JobConsumesInfo.mk model.JobLinkInfo.zero EmptyString true false.

Definition ignoringManifest : resolver.RoleManifest.t :=
  resolver.RoleManifest.mk
    [groupOf "A" [providerJob];
     groupOf "B" [consumerJob [consumerOfP1] [("p1", ignoreMark)]]].

(** Names are kept as they are. *)
Definition sameName : string -> string := fun s => s.

(** A job with one port that is not public, in an instance group of its
    own, and a builder of the service document. *)
Definition privatePort : model.JobExposedPort.t :=
  model.JobExposedPort.mk "http" "TCP" 8080 80 false 1 1 false false.

Definition webJob : model.JobReference.t :=
  model.JobReference.mk
    (model.Job.mk "web" [] "fp-web" "sha-web" [] [] [])
    "web" "rel" [] [] []
    (model.BoshContainerization.mk [privatePort] None EmptyString []).

Definition buildService (settings : kube.ExportSettings.t)
    (apiVersion kind name : string) : result helm.Node :=
  Ok (helm.NewMapping
        [("apiVersion", helm.Scalar apiVersion EmptyString);
         ("kind", helm.Scalar kind EmptyString);
         ("metadata",
          helm.NewMapping [("name", helm.Scalar name EmptyString)])]).

(** An instance group with two jobs that both declare a health check; the
    parts of the run block the aggregation takes from elsewhere are left as
    they are. *)
Definition checkedRun : model.RoleRun.t :=
  model.RoleRun.setHealthCheck
    (Some (model.HealthCheck.mk (Some "curl") None)) model.RoleRun.zero.

Definition jobWithRun (name : string) (run : model.RoleRun.t)
  : model.JobReference.t :=
  model.JobReference.mk
    (model.Job.mk name [] EmptyString EmptyString [] [] [])
    name "rel" [] [] []
    (model.BoshContainerization.mk [] (Some run) EmptyString []).

Definition keepRun (jobs : list model.JobReference.t) (run : model.RoleRun.t)
  : model.RoleRun.t := run.

(** Two packages that depend on each other, as far as fingerprints tell,
    beside A. *)
Definition pkgX : model.Package.t :=
  model.Package.mk "X" "1" "fp-x" "sha-x" "rel"
    [model.Package.mk "Y" "1" "fp-y" "sha-y" "rel" []].

Definition pkgY : model.Package.t :=
  model.Package.mk "Y" "1" "fp-y" "sha-y" "rel"
    [model.Package.mk "X" "1" "fp-x" "sha-x" "rel" []].

(** Only A is compiled already; and a check of the disk that fails at B. *)
Definition onlyACompiled : model.Package.t -> result bool :=
  fun p => Ok (String.eqb (model.Package.Name p) "A").

Definition checkFailsAtB : model.Package.t -> result bool :=
  fun p => if String.eqb (model.Package.Name p) "B"
           then Err "permission denied" else Ok true.

Definition allCompiled : model.Package.t -> result bool := fun _ => Ok true.

(** A job that exports a provider its specification does not know, and a
    job whose role manifest entry asks for a link nobody publishes. *)
Definition exportsUnknown : model.JobReference.t :=
  model.JobReference.mk
    (model.Job.mk "pj" [] "fp-pj" "sha-pj" [] [("p1", providerP1)] [])
    "pj" "rel" [("p2", providerP1)] [] [] noContainer.

Definition asksNowhere : model.JobConsumesInfo.t :=
  model.JobConsumesInfo.mk model.JobLinkInfo.zero "nowhere" false false.

(** A port that is exposed three times, from 8080 on. *)
Definition threePorts : model.JobExposedPort.t :=
  model.JobExposedPort.mk "http" "TCP" 8080 80 false 3 3 false false.

(** A port that is exposed no times, and a job with given ports. *)
Definition noPorts : model.JobExposedPort.t :=
  model.JobExposedPort.mk "http" "TCP" 8080 80 true 0 0 false false.

Definition jobWithPorts (ports : list model.JobExposedPort.t)
  : model.JobReference.t :=
  model.JobReference.mk
    (model.Job.mk "web" [] "fp-web" "sha-web" [] [] [])
    "web" "rel" [] [] []
    (model.BoshContainerization.mk ports None EmptyString []).

(** Two configuration templates. *)
Definition templateA : string * model.ConfigurationTemplate.t :=
  ("properties.a", model.ConfigurationTemplate.mk "((A))" false).

Definition templateB : string * model.ConfigurationTemplate.t :=
  ("properties.b", model.ConfigurationTemplate.mk "((B))" true).

(** Raw templates of an instance group and of the role manifest, and the
    printing of the strings among the values. *)
Definition ownRaw : list (model.Value * model.Value) :=
  [(model.Str "properties.a", model.Str "own");
   (model.Str "properties.a", model.Str "own again")].

Definition globalRaw : list (model.Value * model.Value) :=
  [(model.Str "properties.a", model.Str "global");
   (model.Str "properties.b", model.Str "global")].

Definition printString (v : model.Value) : string :=
  match v with model.Str s => s | _ => "<nil>" end.

(** A disk on which only the compiled directory of A exists and holds
    something; a cache whose lookup fails. *)
Definition compiledDirOf (p : model.Package.t) : string :=
  "/work/" +:+ model.Package.Name p +:+ "/compiled".

Definition statOnlyA (path : string) : compilator.statResult :=
  if String.eqb path "/work/A/compiled" then compilator.StatInfo true
  else compilator.StatNotExist.

Definition openOnlyA (path : string) : compilator.openResult :=
  if String.eqb path "/work/A/compiled"
  then compilator.Opened compilator.ReaddirEntry
  else compilator.OpenError "no such file or directory".

Definition failingCache : compilator.packageStorage.t :=
  compilator.packageStorage.mk (false, Some "cache unreachable") None None true.

(** A run block that declares an affinity. *)
Definition affineRun : model.RoleRun.t :=
  model.RoleRun.setAffinity (Some (model.RoleRunAffinity.mk None None None))
    model.RoleRun.zero.

(** B needs the link q of type T by name; the role manifest marks it to be
    ignored, and no provider is published under q. *)
Definition consumerOfQ : model.JobConsumesInfo.t :=
  model.JobConsumesInfo.mk (linkOf "q" "T") EmptyString false false.

Definition ignoringUnpublished : resolver.RoleManifest.t :=
  resolver.RoleManifest.mk
    [groupOf "A" [providerJob];
     groupOf "B" [consumerJob [consumerOfQ] [("q", ignoreMark)]]].

(** B needs p1 by name, which the role manifest marks to be ignored, and a
    link of type T without a name. *)
Definition ignoringAndUnnamed : resolver.RoleManifest.t :=
  resolver.RoleManifest.mk
    [groupOf "A" [providerJob];
     groupOf "B" [consumerJob [consumerOfP1; consumerOfT]
                    [("p1", ignoreMark)]]].

(** ** Notions the statements use *)

(** A diagnostic of kind [Invalid] for the instance group with this
    message is among [errs]. *)
Definition reportsInvalid (g : model.InstanceGroup.t) (detail : string)
    (errs : validation.ErrorList model.RunValue) : Prop :=
  exists value,
    In (validation.Invalid (model.groupField g) value detail) errs.

(** The error of the first and of the last failure among the results the
    synchronizer receives. *)
Fixpoint firstFailure (results : list compilator.compileResult.t)
  : option string :=
  match results with
  | [] => None
  | r :: rest =>
      match compilator.compileResult.err r with
      | Some e => Some e
      | None => firstFailure rest
      end
  end.

Fixpoint lastFailure (results : list compilator.compileResult.t)
  : option string :=
  match results with
  | [] => None
  | r :: rest =>
      match lastFailure rest with
      | Some e => Some e
      | None => compilator.compileResult.err r
      end
  end.

(** The fingerprints of the packages reported as compiled. *)
Definition successes (results : list compilator.compileResult.t)
  : list string :=
  List.map (fun r => model.Package.Fingerprint (compilator.compileResult.pkg r))
    (List.filter
       (fun r => match compilator.compileResult.err r with
                 | None => true
                 | Some _ => false
                 end)
       results).

(** Every package reports success at most once, and its signal channel is
    there and open: what the workers of one run provide. *)
Definition successesOnce (signals : gmap string compilator.chan)
    (results : list compilator.compileResult.t) : Prop :=
  NoDup (successes results)
  /\ Forall (fun f => signals !! f = Some compilator.Open) (successes results).

(** The fingerprints of a list of packages, in order. *)
Definition fingerprints (l : list model.Package.t) : list string :=
  model.Package.Fingerprint <$> l.

(** The dependencies of a package that are among the input, by
    fingerprint: the ones [createDepBuckets] counts. *)
Definition knownDeps (packages : list model.Package.t) (pkg : model.Package.t)
  : list model.Package.t :=
  filter (fun dep => model.Package.Fingerprint dep ∈ fingerprints packages)
         (model.Package.Dependencies pkg).

Definition inputDeps (packages : list model.Package.t) (pkg : model.Package.t)
  : list string :=
  fingerprints (knownDeps packages pkg).

(** An input package with fingerprint [f] depends on one with [g]. *)
Definition dependsOn (packages : list model.Package.t) (f g : string) : Prop :=
  exists pkg, pkg ∈ packages /\ model.Package.Fingerprint pkg = f
              /\ g ∈ inputDeps packages pkg.

(** No input package depends, in one step or more, on itself. *)
Definition acyclic (packages : list model.Package.t) : Prop :=
  forall f, ~ tc (dependsOn packages) f f.

(** In [order], every package stands behind all of its dependencies that
    are among the input. *)
Definition afterItsDeps (packages order : list model.Package.t) : Prop :=
  forall before pkg after g,
    order = before ++ pkg :: after ->
    g ∈ inputDeps packages pkg -> g ∈ fingerprints before.

(** The dependencies of a package that were not queued yet, [queued] being
    the fingerprints queued so far. *)
Definition unmet (packages : list model.Package.t) (queued : list string)
    (pkg : model.Package.t) : list model.Package.t :=
  filter (fun dep => model.Package.Fingerprint dep ∉ queued)
         (knownDeps packages pkg).

(** The users of fingerprint [f] among [l], one for every dependency on it,
    in the order [createDepBuckets] records them. *)
Fixpoint usersOf (packages : list model.Package.t) (f : string)
    (l : list model.Package.t) : list model.Package.t :=
  match l with
  | [] => []
  | pkg :: l' =>
      ((fun _ => pkg)
         <$> filter (fun dep => model.Package.Fingerprint dep = f)
               (knownDeps packages pkg))
        ++ usersOf packages f l'
  end.

(** The number of counted dependencies of the packages of [l] that have
    fingerprint [g]. *)
Fixpoint depTotal (packages : list model.Package.t) (g : string)
    (l : list model.Package.t) : nat :=
  match l with
  | [] => O
  | pkg :: l' =>
      ((if decide (g = model.Package.Fingerprint pkg)
        then List.length (knownDeps packages pkg) else O)
       + depTotal packages g l')%nat
  end.

(** What holds between the rounds of [createDepBuckets], [queued] being the
    packages in the order they were taken: the two lists hold the ruby
    packages and the others of [queued]; a package taken has the counter
    [-1], one not taken counts its dependencies not taken yet; and each
    package was taken after all of its dependencies. *)
Definition queueInvariant (packages : list model.Package.t)
    (st : compilator.queueing) (queued : list model.Package.t) : Prop :=
  compilator.rubies st = filter (fun p => compilator.isRuby p = true) queued
  /\ compilator.buckets st
     = filter (fun p => compilator.isRuby p <> true) queued
  /\ (forall p, p ∈ queued -> p ∈ packages)
  /\ NoDup (fingerprints queued)
  /\ (forall q, q ∈ packages ->
        compilator.count (compilator.depCount st) (model.Package.Fingerprint q)
        = if decide (model.Package.Fingerprint q ∈ fingerprints queued)
          then -1
          else Z.of_nat (List.length (unmet packages (fingerprints queued) q)))
  /\ afterItsDeps packages queued.

(** The number of packages whose counter is not negative: those that were
    not taken yet. *)
Definition live (packages : list model.Package.t) (depCount : gmap string Z)
  : nat :=
  List.length
    (filter (fun p => 0 <= compilator.count depCount (model.Package.Fingerprint p))
            packages).

(** The packages [gatherPackages] looks at, release after release. *)
Definition encountered (instanceGroups : option (list model.InstanceGroup.t))
    (releases : list model.Release.t) : list model.Package.t :=
  List.concat (List.map (compilator.releasePackagesOf instanceGroups) releases).

(** Of [l], the first package of every fingerprint that has no signal
    channel yet. *)
Fixpoint firstNew (signals : gmap string compilator.chan)
    (l : list model.Package.t) : list model.Package.t :=
  match l with
  | [] => []
  | p :: l' =>
      match signals !! model.Package.Fingerprint p with
      | Some _ => firstNew signals l'
      | None =>
          p :: firstNew (<[model.Package.Fingerprint p := compilator.Open]> signals) l'
      end
  end.

(** *** Link resolution *)

(** The name a consumer entry of the role manifest is looked up under. *)
Definition consumerAlias (entry : string * model.JobConsumesInfo.t) : string :=
  if String.eqb (model.JobConsumesInfo.Alias entry.2) EmptyString
  then entry.1 else model.JobConsumesInfo.Alias entry.2.

(** The name a provider a job reference exports is published under. *)
Definition providerAlias (entry : string * model.JobProvidesInfo.t) : string :=
  if String.eqb (model.JobProvidesInfo.Alias entry.2) EmptyString
  then entry.1 else model.JobProvidesInfo.Alias entry.2.

Section links.
Import model.

Variable ConvertNameToKey : string -> string.

(** The deployment: the instance groups of the role manifest. *)
Variable deployment : list InstanceGroup.t.

(** A provider of type [T], for a type that is not empty. *)
Definition ofType (T : string) (p : JobProvidesInfo.t) : bool :=
  String.eqb (JobLinkInfo.Type_ (JobProvidesInfo.Link p)) T
  && negb (String.eqb T EmptyString).

(** The providers of type [T] that the jobs of the whole deployment make
    available, each with the instance group, job and service it belongs to. *)
Definition providersOfType (T : string) : list JobProvidesInfo.t :=
  flat_map
    (fun ig =>
       flat_map
         (fun jr =>
            List.map (resolver.providerInfo ConvertNameToKey ig jr)
              (List.filter (ofType T)
                 (List.map snd (Job.AvailableProviders (JobReference.Job jr)))))
         (InstanceGroup.JobReferences ig))
    deployment.

(** [p] is a provider that some job of the deployment makes available. *)
Definition offers (p : JobProvidesInfo.t) : Prop :=
  exists ig jr ap,
    In ig deployment /\ In jr (InstanceGroup.JobReferences ig)
    /\ In ap (List.map snd (Job.AvailableProviders (JobReference.Job jr)))
    /\ p = resolver.providerInfo ConvertNameToKey ig jr ap.

(** Every provider of an index by name is one of the deployment. *)
Definition resolver_namesOffered (byName : gmap string JobProvidesInfo.t)
  : Prop :=
  forall n p, byName !! n = Some p -> offers p.

(** The resolved consumers hold, under [key], the link of a provider of the
    deployment. *)
Definition boundAt (key : string) (rc : amap.t JobConsumesInfo.t) : Prop :=
  exists info p,
    amap.get key rc = Some info /\ offers p
    /\ JobConsumesInfo.Link info = JobProvidesInfo.Link p.

(** The key under which a consumer is recorded: its name, or, when it has
    none, the name of the only provider of its type. *)
Definition keyFor (c : JobConsumesInfo.t) (key : string) : Prop :=
  key = JobLinkInfo.Name (JobConsumesInfo.Link c)
  \/ (JobLinkInfo.Name (JobConsumesInfo.Link c) = EmptyString
      /\ exists q,
           providersOfType (JobLinkInfo.Type_ (JobConsumesInfo.Link c)) = [q]
           /\ key = JobLinkInfo.Name (JobProvidesInfo.Link q)).

(** The consumer has a bound provider recorded in the resolved consumers. *)
Definition bound (rc : amap.t JobConsumesInfo.t) (c : JobConsumesInfo.t)
  : Prop :=
  exists key, keyFor c key /\ boundAt key rc.

(** A provider is published under [n]: a job reference of the deployment
    exports, under that alias or else that name, a provider that its job
    makes available. *)
Definition published (n : string) : Prop :=
  exists ig jr entry,
    In ig deployment /\ In jr (InstanceGroup.JobReferences ig)
    /\ In entry (JobReference.ExportedProvides jr)
    /\ amap.get entry.1 (Job.AvailableProviders (JobReference.Job jr)) <> None
    /\ n = providerAlias entry.

(** The role manifest marks the consumer with [ignore] under its name, and
    a provider is published under the alias of the mark, or under the name
    when the mark has no alias: the case in which the first loop deletes the
    entry. *)
Definition ignored (jr : JobReference.t) (c : JobConsumesInfo.t) : Prop :=
  exists info,
    let entry := (JobLinkInfo.Name (JobConsumesInfo.Link c), info) in
    In entry (JobReference.ResolvedConsumes jr)
    /\ JobConsumesInfo.Ignore info = true
    /\ consumerAlias entry <> EmptyString
    /\ published (consumerAlias entry).

(** A diagnostic names the consumer of that job of that instance group. *)
Definition diagnosed (ig : InstanceGroup.t) (jr : JobReference.t)
    (errs : resolver.ErrorList) (c : JobConsumesInfo.t) : Prop :=
  exists e,
    In e errs
    /\ validation.Field e
       = resolver.consumesField ig jr
           (JobLinkInfo.Name (JobConsumesInfo.Link c)).

(** What link resolution leaves for one job reference [jr], which becomes
    [jr']: every consumer the job declares and needs is ignored with its
    provider found, bound or diagnosed. *)
Definition settled (errs : resolver.ErrorList) (ig : InstanceGroup.t)
    (jr jr' : JobReference.t) : Prop :=
  forall c,
    In c (Job.DesiredConsumers (JobReference.Job jr)) ->
    JobConsumesInfo.Optional c = false ->
    ignored jr c \/ bound (JobReference.ResolvedConsumes jr') c
    \/ diagnosed ig jr errs c.

End links.

(** The names and the resolved consumers of the job references of an
    instance group, in order. *)
Definition consumesOf (g : model.InstanceGroup.t)
  : string * list (string * amap.t model.JobConsumesInfo.t) :=
  (model.InstanceGroup.Name g,
   (fun j => (model.JobReference.Name j, model.JobReference.ResolvedConsumes j))
     <$> model.InstanceGroup.JobReferences g).

(** The value an expected consumer is recorded with: the entry that was
    there, with the link of the provider. *)
Definition boundTo (provider : model.JobProvidesInfo.t)
    (info : model.JobConsumesInfo.t) : model.JobConsumesInfo.t :=
  model.JobConsumesInfo.mk (model.JobProvidesInfo.Link provider)
    (model.JobConsumesInfo.Alias info) (model.JobConsumesInfo.Ignore info)
    (model.JobConsumesInfo.Optional info).

(** The diagnostic for a consumer that cannot be resolved. *)
Definition unresolved (ig : model.InstanceGroup.t) (jr : model.JobReference.t)
    (c : model.JobConsumesInfo.t) : validation.Error string :=
  let name := model.JobLinkInfo.Name (model.JobConsumesInfo.Link c) in
  let type := model.JobLinkInfo.Type_ (model.JobConsumesInfo.Link c) in
  validation.Required (resolver.consumesField ig jr name)
    ("failed to resolve provider " +:+ name +:+ " (type " +:+ type +:+ ")").

(** *** Dependency cycles *)

(** From the input package with fingerprint [f] a dependency cycle can be
    reached: [f] depends, in no step or more, on a fingerprint that depends
    on itself. *)
Definition reachesCycle (packages : list model.Package.t) (f : string) : Prop :=
  exists g, rtc (dependsOn packages) f g /\ tc (dependsOn packages) g g.

(** *** Gathering the packages of the instance groups *)

(** The names of a list of packages, in order. *)
Definition packageNames (l : list model.Package.t) : list string :=
  model.Package.Name <$> l.

(** A package is needed when it is among [initial] or a dependency of a
    needed package. *)
Inductive needed (initial : list model.Package.t) : model.Package.t -> Prop :=
  | needed_initial (p : model.Package.t) : p ∈ initial -> needed initial p
  | needed_dependency (p d : model.Package.t) :
      needed initial p -> d ∈ model.Package.Dependencies p -> needed initial d.

(** What holds while [pendingPackages] is walked: the names listed are the
    names of the result, which are distinct; every dependency of a package
    of the result and every initial package is pending or has its name in
    the result; and whatever is in the result or pending is needed. *)
Definition pendingInvariant (initial pending : list model.Package.t)
    (listed : gmap string bool) (result : list model.Package.t) : Prop :=
  (forall n, default false (listed !! n) = true <-> n ∈ packageNames result)
  /\ NoDup (packageNames result)
  /\ (forall p d, p ∈ result -> d ∈ model.Package.Dependencies p ->
        d ∈ pending \/ model.Package.Name d ∈ packageNames result)
  /\ (forall p, p ∈ initial ->
        p ∈ pending \/ model.Package.Name p ∈ packageNames result)
  /\ (forall p, p ∈ result \/ p ∈ pending -> needed initial p).

(** *** Packages that are compiled already *)

(** The packages of [l] that [compiled] reports, and the ones it does
    not. *)
Definition alreadyCompiled (compiled : model.Package.t -> result bool)
    (p : model.Package.t) : bool :=
  match compiled p with Ok true => true | _ => false end.

Definition toCompile (compiled : model.Package.t -> result bool)
    (l : list model.Package.t) : list model.Package.t :=
  List.filter (fun p => negb (alreadyCompiled compiled p)) l.

(** The signal channels after the ones of [closed] were closed. *)
Definition closedFor (closed : list model.Package.t)
    (signals signals' : gmap string compilator.chan) : Prop :=
  forall f,
    signals' !! f
    = if decide (f ∈ fingerprints closed) then Some compilator.Closed
      else signals !! f.

(** *** Diagnostics of link resolution *)

(** [e] is the diagnostic of a consumer that a job of the deployment
    declares and needs, and that is matched to no provider. *)
Definition unresolvedIn (ConvertNameToKey : string -> string)
    (deployment : list model.InstanceGroup.t) (e : validation.Error string)
  : Prop :=
  exists ig jr c,
    In ig deployment /\ In jr (model.InstanceGroup.JobReferences ig)
    /\ In c (model.Job.DesiredConsumers (model.JobReference.Job jr))
    /\ model.JobConsumesInfo.Optional c = false
    /\ resolver.matchProvider
         (resolver.buildIndices ConvertNameToKey deployment) c = None
    /\ e = unresolved ig jr c.

(** Every diagnostic of kind Required among [errs] is one of these. *)
Definition requiredJustified (ConvertNameToKey : string -> string)
    (deployment : list model.InstanceGroup.t) (errs : resolver.ErrorList)
  : Prop :=
  forall e,
    In e errs -> validation.Type_ e = validation.ErrorTypeRequired ->
    unresolvedIn ConvertNameToKey deployment e.

(** *** Who consumes a provider *)

(** What [recordJobConsumers] appends for a consumer of the job [cj] of the
    instance group [cg]. *)
Definition consumedBy (cg : model.InstanceGroup.t) (cj : model.JobReference.t)
    (consumer : model.JobConsumesInfo.t) : model.JobLinkInfo.t :=
  let link := model.JobConsumesInfo.Link consumer in
  model.JobLinkInfo.mk (model.JobLinkInfo.Name link)
    (model.JobLinkInfo.Type_ link) (model.InstanceGroup.Name cg)
    (model.JobReference.Name cj) (model.JobLinkInfo.ServiceName link).

(** The job the link [link] names, looked up in [m], lists [info] among
    its consumers under [linkName]. *)
Definition recordedAt (m : list model.InstanceGroup.t) (linkName : string)
    (link info : model.JobLinkInfo.t) : Prop :=
  exists pg pj,
    resolver.LookupInstanceGroup m (model.JobLinkInfo.RoleName link) = Some pg
    /\ model.LookupJob pg (model.JobLinkInfo.JobName link) = Some pj
    /\ In info
          (default [] (amap.get linkName
                         (model.JobReference.ResolvedConsumedBy pj))).

(** The consumer is recorded, or an internal error names it. *)
Definition recorded (cg : model.InstanceGroup.t) (cj : model.JobReference.t)
    (entry : string * model.JobConsumesInfo.t)
    (st : list model.InstanceGroup.t * resolver.ErrorList) : Prop :=
  recordedAt st.1 entry.1 (model.JobConsumesInfo.Link entry.2)
    (consumedBy cg cj entry.2)
  \/ exists detail,
       In (validation.InternalError
             (resolver.consumesField cg cj entry.1) detail) st.2.

(** *** The ports of a service *)

(** The entry of a port with a fixed count at [portIndex], when no chart is
    created. *)
Definition plainPort (serviceType : kube.newServiceType)
    (port : model.JobExposedPort.t) (portIndex : Z) : helm.Node :=
  helm.Mapping
    [("name",
      helm.Scalar
        (if 1 <? model.JobExposedPort.Max port
         then model.JobExposedPort.Name port +:+ "-"
                +:+ model.Sprintf_d portIndex
         else model.JobExposedPort.Name port)
        EmptyString);
     ("port",
      helm.Number
        (model.int_wrap (model.JobExposedPort.ExternalPort port + portIndex)));
     ("protocol", helm.Scalar (model.JobExposedPort.Protocol port) EmptyString);
     ("targetPort",
      helm.Number
        (if kube.isHeadless serviceType then 0
         else model.int_wrap
                (model.JobExposedPort.InternalPort port + portIndex)))]
    EmptyString.

(** The number of entries [createPorts] makes for a port. *)
Definition portEntries (settings : kube.ExportSettings.t)
    (port : model.JobExposedPort.t) : nat :=
  if kube.ExportSettings.CreateHelmChart settings
     && model.JobExposedPort.CountIsConfigurable port
  then 1%nat else Z.to_nat (model.JobExposedPort.Count port).

(** No port of the job yields an entry. *)
Definition noPortEntries (settings : kube.ExportSettings.t)
    (job : model.JobReference.t) : Prop :=
  Forall (fun port => portEntries settings port = O)
         (model.JobReference.Ports job).

(** *** Signatures *)

(** A digit of lowercase hexadecimal. *)
Definition isHexDigit (c : ascii) : bool :=
  existsb (Ascii.eqb c) (list_ascii_of_string "0123456789abcdef").

(** [s] comes before [t], or is [t], in the order of the bytes. *)
Definition bytesLe (s t : string) : Prop := String.leb s t = true.

(** *** The properties of the jobs *)

(** Every property of every job, with its job, in the order the loops
    visit them; and the ones of a given name. *)
Definition jobProperties {J : Type} (properties : J -> list model.JobProperty.t)
    (jobs : list J) : list (J * model.JobProperty.t) :=
  flat_map (fun job => List.map (pair job) (properties job)) jobs.

Definition named {J : Type} (name : string) (jp : J * model.JobProperty.t)
  : bool :=
  String.eqb (model.JobProperty.Name jp.2) name.

(** The config of a name that occurs at [occurrences]. *)
Definition configOf (name : string)
    (occurrences : list (model.Job.t * model.JobProperty.t))
  : option model.ReleaseConfig.t :=
  match occurrences with
  | [] => None
  | (job, property) :: rest =>
      Some (model.ReleaseConfig.mk name (job :: List.map fst rest)
              (model.int_wrap (Z.of_nat (List.length occurrences)))
              (model.JobProperty.Description property))
  end.

(** The defaults of a name that occurs at [occurrences]: whether one of
    them may be a hash, and the jobs that give the default [text]. *)
Definition infoOf (Sprintf_v : model.Value -> string)
    (occurrences : list (model.JobReference.t * model.JobProperty.t))
    (info : model.PropertyInfo.t) : Prop :=
  model.PropertyInfo.MaybeHash info
  = existsb (fun jp => model.maybeHash (model.JobProperty.Default jp.2))
      occurrences
  /\ forall text,
       default [] (model.PropertyInfo.Defaults info !! text)
       = List.map (fun jp => model.JobReference.Job jp.1)
           (List.filter
              (fun jp => String.eqb (Sprintf_v (model.JobProperty.Default jp.2))
                                    text)
              occurrences).

(** *** Raw templates *)

(** The items of a [yaml.MapSlice] whose key is the string [k]; and a
    slice all of whose keys are strings. *)
Definition keyIs (k : string) (item : model.Value * model.Value) : bool :=
  match item.1 with
  | model.Str k' => String.eqb k' k
  | _ => false
  end.

Definition stringKeys (raw : list (model.Value * model.Value)) : Prop :=
  Forall (fun item => exists k, item.1 = model.Str k) raw.

(** The template of the name [k]: the last item of that name of the
    instance group, or else the first one of the role manifest. *)
Definition templateOf (Sprintf_v : model.Value -> string)
    (own global : list (model.Value * model.Value)) (k : string)
  : option model.ConfigurationTemplate.t :=
  match List.find (keyIs k) (List.rev own) with
  | Some item => Some (model.ConfigurationTemplate.mk (Sprintf_v item.2) false)
  | None =>
      match List.find (keyIs k) global with
      | Some item => Some (model.ConfigurationTemplate.mk (Sprintf_v item.2) true)
      | None => None
      end
  end.

(** * Proofs *)

(** The two digests everyone knows by heart. *)
Example sha1_empty :
  SHA1.hexdigest EmptyString = "da39a3ee5e6b4b0d3255bfef95601890afd80709".
Proof. vm_compute. reflexivity. Qed.

Example sha1_abc :
  SHA1.hexdigest "abc" = "a9993e364706816aba3e25717850c26c9cd0d89d".
Proof. vm_compute. reflexivity. Qed.

Example sha1_two_blocks :
  SHA1.hexdigest "abcdbcdecdefdefgefghfghighijhijkijkljklmklmnlmnomnopnopq"
  = "84983e441c3bd26ebaae4aa1f95129e5e54670f1".
Proof. vm_compute. reflexivity. Qed.

Example hashed_bytes_ab_a :
  model.hashed_bytes ["ab"; "a"] = "ab" +:+ model.NUL +:+ "a" +:+ model.NUL +:+ "3".
Proof. reflexivity. Qed.

Example hashed_bytes_nil : model.hashed_bytes [] = "0".
Proof. reflexivity. Qed.

(** ** AggregateSignatures *)

Section aggregate.
Import model.

Lemma app_cons_s (c : ascii) (a b : string) :
  String c a +:+ b = String c (a +:+ b).
Proof. reflexivity. Qed.

Lemma app_nil_l_s (a : string) : EmptyString +:+ a = a.
Proof. reflexivity. Qed.

Lemma app_assoc_s (a b c : string) : (a +:+ b) +:+ c = a +:+ (b +:+ c).
Proof.
  induction a as [|x a IH]; [done |]. by rewrite !app_cons_s, IH.
Qed.

Lemma app_nil_r_s (a : string) : a +:+ EmptyString = a.
Proof. induction a as [|x a IH]; [done |]. by rewrite app_cons_s, IH. Qed.

Lemma nul_free_app (a b : string) :
  nul_free (a +:+ b) = nul_free a && nul_free b.
Proof.
  induction a as [|x a IH]; [done |].
  rewrite app_cons_s. simpl. rewrite IH. by rewrite andb_assoc.
Qed.

(** A terminated field can be read back: the first zero byte ends it. *)
Lemma terminated_field_inj (s1 s2 r1 r2 : string) :
  nul_free s1 = true -> nul_free s2 = true ->
  s1 +:+ NUL +:+ r1 = s2 +:+ NUL +:+ r2 -> s1 = s2 /\ r1 = r2.
Proof.
  revert s2. induction s1 as [|c1 s1 IH]; intros [|c2 s2] H1 H2 E;
    unfold NUL in E; rewrite ?app_cons_s, ?app_nil_l_s in E; simpl in H1, H2.
  - by inversion E.
  - inversion E; subst. by rewrite Ascii.eqb_refl in H2.
  - inversion E; subst. by rewrite Ascii.eqb_refl in H1.
  - inversion E as [[Ec E']]; subst.
    apply andb_true_iff in H1 as [_ H1]. apply andb_true_iff in H2 as [_ H2].
    destruct (IH s2 H1 H2) as [-> ->]; [|done].
    unfold NUL. by rewrite ?app_cons_s, ?app_nil_l_s.
Qed.

Lemma aggregate_loop_payload (signatures : list string) (h : string) (n : Z) :
  exists n', aggregate_loop signatures (h, n) = (h +:+ payload signatures, n').
Proof.
  revert h n. induction signatures as [|s l IH]; intros h n; simpl.
  - exists n. by rewrite app_nil_r_s.
  - destruct (IH (h +:+ s +:+ NUL)
                 (int_wrap (n + Z.of_nat (String.length s)))) as [n' ->].
    exists n'. by rewrite !app_assoc_s.
Qed.

Lemma hashed_bytes_payload (signatures : list string) :
  exists n, hashed_bytes signatures = payload signatures +:+ Sprintf_d n.
Proof.
  unfold hashed_bytes.
  destruct (aggregate_loop_payload signatures EmptyString 0) as [n ->].
  by exists n.
Qed.

Lemma payload_inj (l1 l2 : list string) (t1 t2 : string) :
  Forall (fun s => nul_free s = true) l1 ->
  Forall (fun s => nul_free s = true) l2 ->
  nul_free t1 = true -> nul_free t2 = true ->
  payload l1 +:+ t1 = payload l2 +:+ t2 -> l1 = l2.
Proof.
  revert l2. induction l1 as [|s1 l1 IH]; intros [|s2 l2] F1 F2 T1 T2 E;
    simpl in E; rewrite ?app_nil_l_s in E.
  - done.
  - subst t1. rewrite !app_assoc_s, !nul_free_app in T1. simpl in T1.
    by rewrite andb_false_r in T1.
  - subst t2. rewrite !app_assoc_s, !nul_free_app in T2. simpl in T2.
    by rewrite andb_false_r in T2.
  - inversion F1; inversion F2; subst.
    rewrite !app_assoc_s in E.
    apply terminated_field_inj in E as [-> E]; [|done..].
    f_equal. by apply IH.
Qed.

Lemma nul_free_uint (d : Decimal.uint) :
  nul_free (NilEmpty.string_of_uint d) = true.
Proof. induction d; simpl; done. Qed.

Lemma nul_free_Sprintf_d (n : Z) : nul_free (Sprintf_d n) = true.
Proof.
  unfold Sprintf_d, NilZero.string_of_int, NilZero.string_of_uint.
  destruct (Z.to_int n) as [d|d]; destruct d; simpl;
    try done; try apply nul_free_uint.
Qed.

(** What is hashed tells the sequences of strings without a zero byte
    apart. *)
Lemma hashed_bytes_inj (l1 l2 : list string) :
  Forall (fun s => nul_free s = true) l1 ->
  Forall (fun s => nul_free s = true) l2 ->
  hashed_bytes l1 = hashed_bytes l2 -> l1 = l2.
Proof.
  intros F1 F2 E.
  destruct (hashed_bytes_payload l1) as [n1 E1].
  destruct (hashed_bytes_payload l2) as [n2 E2].
  rewrite E1, E2 in E.
  eapply payload_inj; eauto using nul_free_Sprintf_d.
Qed.

(** C1, as amended. Two different sequences of strings that hold no zero
    byte make [AggregateSignatures] hash different byte strings (each input
    followed by a zero byte, then the decimal total length), so that their
    digests differ unless SHA-1 itself collides; and the digests of
    ["ab","a"], ["a","ba"] and ["aba"] are pairwise different. *)
Theorem AggregateSignatures_separates_nul_free :
  (forall l1 l2 : list string,
      Forall (fun s => nul_free s = true) l1 ->
      Forall (fun s => nul_free s = true) l2 ->
      l1 <> l2 -> hashed_bytes l1 <> hashed_bytes l2)
  /\ AggregateSignatures ["ab"; "a"] <> AggregateSignatures ["a"; "ba"]
  /\ AggregateSignatures ["ab"; "a"] <> AggregateSignatures ["aba"]
  /\ AggregateSignatures ["a"; "ba"] <> AggregateSignatures ["aba"].
Proof.
  split.
  - intros l1 l2 F1 F2 Hne E. apply Hne. by apply hashed_bytes_inj.
  - repeat split; vm_compute; discriminate.
Qed.

(** The theorem at ["ab","a"] and ["a","ba"]. *)
Lemma AggregateSignatures_separates_witness :
  hashed_bytes ["ab"; "a"] <> hashed_bytes ["a"; "ba"].
Proof.
  apply (proj1 AggregateSignatures_separates_nul_free).
  - repeat constructor.
  - repeat constructor.
  - discriminate.
Defined.

(** C1 as stated fails: a zero byte inside a string moves the boundary
    between two strings without a trace. ["a\x00","b"] and ["a","\x00b"]
    are different sequences with the same digest. *)
Lemma AggregateSignatures_collision :
  ["a" +:+ NUL; "b"] <> ["a"; NUL +:+ "b"]
  /\ AggregateSignatures ["a" +:+ NUL; "b"]
     = AggregateSignatures ["a"; NUL +:+ "b"].
Proof. split; [discriminate | reflexivity]. Qed.

End aggregate.

(** ** The repair of the release manifest *)

Section repair.
Import model.

Lemma prefix_app (a rest : string) : String.prefix a (a +:+ rest) = true.
Proof.
  induction a as [|c a IH]; [by destruct rest |].
  rewrite app_cons_s. simpl. by rewrite IH; destruct (ascii_dec c c).
Qed.

Lemma replaceAll_go_skip (a rest : string) :
  replaceAll_go (String.length a) (a +:+ rest) = replaceAll_go O rest.
Proof.
  induction a as [|c a IH]; [done |].
  rewrite app_cons_s. simpl. apply IH.
Qed.

Lemma ReplaceAll_match (c : ascii) (rest : string) :
  c <> "!"%char ->
  yamlBinaryRegexp_ReplaceAll (String c (yamlBinaryTag +:+ rest))
  = String c (yamlBinaryReplacement +:+ yamlBinaryRegexp_ReplaceAll rest).
Proof.
  intros Hc. unfold yamlBinaryRegexp_ReplaceAll.
  cbn [replaceAll_go].
  rewrite prefix_app. apply Ascii.eqb_neq in Hc. rewrite Hc. cbn [negb andb].
  by rewrite replaceAll_go_skip.
Qed.

Lemma ReplaceAll_no_match (c : ascii) (rest : string) :
  c = "!"%char \/ String.prefix yamlBinaryTag rest = false ->
  yamlBinaryRegexp_ReplaceAll (String c rest)
  = String c (yamlBinaryRegexp_ReplaceAll rest).
Proof.
  intros H. unfold yamlBinaryRegexp_ReplaceAll. cbn [replaceAll_go].
  destruct H as [-> | ->]; [done |]. by rewrite andb_false_r.
Qed.

(** C8, as amended. Before the YAML is parsed, [loadMetadata] rewrites, from
    left to right, each [!binary |-] that ends its line and follows a
    character other than an exclamation mark into [!!binary |-], and leaves
    every other byte as it is: a character followed by the tag is kept and
    the tag replaced, the scan going on behind the tag; any other character
    is copied; and the decoder is given the rewritten text. *)
Theorem loadMetadata_repairs_block_binary_tags :
  yamlBinaryRegexp_ReplaceAll EmptyString = EmptyString
  /\ (forall (c : ascii) (rest : string),
         c <> "!"%char ->
         yamlBinaryRegexp_ReplaceAll (String c (yamlBinaryTag +:+ rest))
         = String c (yamlBinaryReplacement
                       +:+ yamlBinaryRegexp_ReplaceAll rest))
  /\ (forall (c : ascii) (rest : string),
         c = "!"%char \/ String.prefix yamlBinaryTag rest = false ->
         yamlBinaryRegexp_ReplaceAll (String c rest)
         = String c (yamlBinaryRegexp_ReplaceAll rest))
  /\ (forall (contents : string) (unmarshal : string -> result manifest.t)
             (r : Release.t),
         loadMetadata (Ok contents) unmarshal r
         = bind (unmarshal (yamlBinaryRegexp_ReplaceAll contents))
             (fun m =>
                Ok (Release.mk (Release.Packages r) (manifest.Name m)
                      (manifest.UncommittedChanges m) (manifest.CommitHash m)
                      (manifest.Version m) (Some m)))).
Proof.
  split; [done |]. split; [apply ReplaceAll_match |].
  split; [apply ReplaceAll_no_match | done].
Qed.

(** The theorem at a manifest line as Psych writes it. *)
Lemma loadMetadata_repairs_witness :
  yamlBinaryRegexp_ReplaceAll ("sha1: !binary |-" +:+ LF +:+ "  Zm9v")
  = "sha1: !!binary |-" +:+ LF +:+ "  Zm9v".
Proof.
  pose proof (proj1 (proj2 (proj2 loadMetadata_repairs_block_binary_tags)))
    as Hcopy.
  pose proof (proj1 (proj2 loadMetadata_repairs_block_binary_tags)) as Htag.
  change ("sha1: !binary |-" +:+ LF +:+ "  Zm9v")
    with ("sha1:" +:+ String " "%char (yamlBinaryTag +:+ "  Zm9v")).
  rewrite !app_cons_s, app_nil_l_s.
  rewrite !Hcopy by (right; reflexivity).
  rewrite Htag by discriminate.
  rewrite !Hcopy by (right; reflexivity).
  reflexivity.
Defined.

(** C8 as stated fails: a [!binary] tag that is not followed by [|-] and a
    line end stays as it is, where every such tag was to be rewritten. *)
Lemma loadMetadata_keeps_inline_binary_tag :
  yamlBinaryRegexp_ReplaceAll "sha1: !binary Zm9v" = "sha1: !binary Zm9v"
  /\ everyBinaryTag "sha1: !binary Zm9v" = "sha1: !!binary Zm9v"
  /\ yamlBinaryRegexp_ReplaceAll "sha1: !binary Zm9v"
     <> everyBinaryTag "sha1: !binary Zm9v".
Proof. repeat split; try reflexivity. vm_compute. discriminate. Qed.

(** A tag at the very start of the text has no character before it and is
    not rewritten either. *)
Example ReplaceAll_tag_at_start :
  yamlBinaryRegexp_ReplaceAll (yamlBinaryTag +:+ "Zm9v")
  = yamlBinaryTag +:+ "Zm9v".
Proof. reflexivity. Qed.

End repair.

(** ** The property merger *)

Section merger.
Import model.

Example getKeyGrams_abc : getKeyGrams "a.b.c" = Ok ["a"; "b"; "c"].
Proof. reflexivity. Qed.

(** Scenario 4: a null leaf excludes, a map leaf does not. *)
Example dark_null_excludes :
  GetPropertiesForJob [abc] (darkAt Nil) = Ok [].
Proof. reflexivity. Qed.

Example dark_map_keeps :
  GetPropertiesForJob [abc] (darkAt (MapI []))
  = Ok [("a", MapS [("b", MapS [("c", Int 42)])])].
Proof. reflexivity. Qed.

Example dark_scalar_excludes :
  GetPropertiesForJob [abc] (darkAt (Bool true)) = Ok [].
Proof. reflexivity. Qed.

(** When the loop drops a property: the dark leaf is there and it is null
    or of a kind other than [Map]; no decoded value has the kind [Array]
    the code also lets through. *)
Lemma propertyValue_dropped (light dark : list (string * Value))
    (keyPieces : list string) (default : Value) :
  propertyValue light dark keyPieces default = None
  <-> exists darkValue,
        getOpinionValue dark keyPieces = Some darkValue
        /\ reflect_Kind darkValue <> Some KMap.
Proof.
  unfold propertyValue.
  destruct (getOpinionValue dark keyPieces) as [darkValue|]; split.
  - intros H. exists darkValue. split; [done |].
    destruct darkValue; simpl in *; try done;
      destruct (getOpinionValue light keyPieces) as [[]|]; done.
  - intros (v & [= <-] & Hk).
    destruct darkValue; simpl in *; try done.
  - destruct (getOpinionValue light keyPieces) as [[]|]; done.
  - intros (v & Hv & _). done.
Qed.

(** A kept property takes the light value when there is one that is not
    null, else its default. *)
Lemma propertyValue_kept (light dark : list (string * Value))
    (keyPieces : list string) (default v : Value) :
  propertyValue light dark keyPieces default = Some v ->
  match getOpinionValue light keyPieces with
  | Some Nil | None => v = default
  | Some lightValue => v = lightValue
  end.
Proof.
  unfold propertyValue.
  destruct (match getOpinionValue dark keyPieces with
            | Some _ => _ | None => _ end); [done |].
  destruct (getOpinionValue light keyPieces) as [[]|]; by intros [= <-].
Qed.

(** C3, where the code breaks it. A dark leaf that is a YAML sequence is a
    Go slice, whose kind is [Slice]; the code lets [Map] and [Array]
    through, so the property is dropped, where the claim and the comment
    in the loop keep a property whose dark leaf is an array. *)
Theorem GetPropertiesForJob_drops_at_dark_sequence :
  GetPropertiesForJob [abc] (darkAt (Slice [Int 1])) = Ok []
  /\ GetPropertiesForJob [abc] (darkAt (Slice [Int 1]))
     <> Ok [("a", MapS [("b", MapS [("c", Int 42)])])].
Proof. split; [reflexivity | discriminate]. Qed.

End merger.

(** ** The service emitter *)

Section amap_facts.
Context {V : Type}.
Implicit Types (m : amap.t V) (k : string) (v : V).

Lemma amap_get_set_eq m k v : amap.get k (amap.set k v m) = Some v.
Proof.
  induction m as [|[k' v'] m IH]; simpl.
  - by rewrite String.eqb_refl.
  - destruct (String.eqb k k') eqn:E; simpl.
    + by rewrite String.eqb_refl.
    + by rewrite E.
Qed.

Lemma amap_get_set_ne m k k' v :
  k <> k' -> amap.get k' (amap.set k v m) = amap.get k' m.
Proof.
  intros Hne. induction m as [|[k0 v0] m IH]; simpl.
  - apply not_eq_sym in Hne. apply String.eqb_neq in Hne. by rewrite Hne.
  - destruct (String.eqb k k0) eqn:E; simpl.
    + apply String.eqb_eq in E as <-.
      apply not_eq_sym in Hne. apply String.eqb_neq in Hne. by rewrite Hne.
    + destruct (String.eqb k' k0); [done | apply IH].
Qed.

Lemma amap_get_delete_eq m k : amap.get k (amap.delete k m) = None.
Proof.
  induction m as [|[k' v'] m IH]; simpl; [done |].
  destruct (String.eqb k k') eqn:E; simpl; [done |]. by rewrite E.
Qed.

Lemma amap_get_delete_ne m k k' :
  k <> k' -> amap.get k' (amap.delete k m) = amap.get k' m.
Proof.
  intros Hne. induction m as [|[k0 v0] m IH]; simpl; [done |].
  destruct (String.eqb k k0) eqn:E; simpl.
  - apply String.eqb_eq in E as <-.
    apply not_eq_sym in Hne. apply String.eqb_neq in Hne. by rewrite Hne.
  - destruct (String.eqb k' k0); [done | apply IH].
Qed.

Lemma amap_get_app m1 m2 k :
  amap.get k (m1 ++ m2)
  = match amap.get k m1 with Some v => Some v | None => amap.get k m2 end.
Proof.
  induction m1 as [|[k' v'] m1 IH]; simpl; [done |].
  by destruct (String.eqb k k').
Qed.

End amap_facts.

Section emitter.
Import model kube.

Variable RoleNameLabel : string.
Variable AppNameLabel : string.
Variable makeVarName : string -> string.
Variable ConvertNameToKey : string -> string.
Variable Build : ExportSettings.t -> string -> string -> string -> result helm.Node.

Local Abbreviation newService :=
  (kube.newService RoleNameLabel AppNameLabel makeVarName ConvertNameToKey Build).
Local Abbreviation newClusteringService :=
  (kube.newClusteringService RoleNameLabel AppNameLabel makeVarName Build).
Local Abbreviation servicePorts := (kube.servicePorts makeVarName).
Local Abbreviation clusteringPorts := (kube.clusteringPorts makeVarName).

Lemma leb_refl_s (s : string) : String.leb s s = true.
Proof. by destruct (String.leb_total s s). Qed.

Lemma get_insertSorted (k : string) (entry : string * helm.Node)
    (nodes : list (string * helm.Node)) :
  amap.get k (helm.insertSorted entry nodes)
  = if String.eqb k (fst entry) then Some (snd entry) else amap.get k nodes.
Proof.
  destruct entry as [k' v]. simpl.
  induction nodes as [|[k0 v0] nodes IH]; simpl; [done |].
  destruct (String.leb k' k0) eqn:L; simpl; [done |].
  rewrite IH. destruct (String.eqb k k') eqn:E; [|done].
  apply String.eqb_eq in E as ->.
  destruct (String.eqb k' k0) eqn:E0; [|done].
  apply String.eqb_eq in E0 as ->. by rewrite leb_refl_s in L.
Qed.

(** Sorting a mapping does not change what a name selects. *)
Lemma Get_Sort (name : string) (mapping : helm.Node) :
  helm.Get name (helm.Sort mapping) = helm.Get name mapping.
Proof.
  destruct mapping as [| | | |nodes block]; try done. simpl.
  induction nodes as [|[k v] nodes IH]; simpl; [done |].
  rewrite get_insertSorted. simpl. by rewrite IH.
Qed.

Lemma Get_Add (name name' : string) (value : helm.Node)
    (nodes : list (string * helm.Node)) (block : string) :
  helm.Get name' (helm.Add name value (helm.Mapping nodes block))
  = match amap.get name' nodes with
    | Some v => Some v
    | None => if String.eqb name' name then Some value else None
    end.
Proof. simpl. rewrite amap_get_app. simpl. done. Qed.

Lemma servicePorts_public_none (role : InstanceGroup.t) (job : JobReference.t)
    (settings : ExportSettings.t) :
  Forall (fun port => JobExposedPort.Public port = false)
         (JobReference.Ports job) ->
  servicePorts role job newServiceTypePublic settings = [].
Proof.
  unfold kube.servicePorts. generalize (JobReference.Ports job).
  induction 1 as [|port ports Hp _ IH]; simpl in *; [done |].
  by rewrite Hp, IH.
Qed.

Lemma clusteringPorts_none (role : InstanceGroup.t)
    (settings : ExportSettings.t) :
  Forall (fun job => JobReference.Ports job = [])
         (InstanceGroup.JobReferences role) ->
  clusteringPorts role settings = [].
Proof.
  unfold kube.clusteringPorts. generalize (InstanceGroup.JobReferences role).
  induction 1 as [|job jobs Hj _ IH]; simpl; [done |].
  by rewrite Hj, IH.
Qed.

(** The ports of the spec of a service [newService] returns. *)
Lemma newService_ports (role : InstanceGroup.t) (job : JobReference.t)
    (serviceType : newServiceType) (settings : ExportSettings.t)
    (svc : helm.Node) :
  newService role job serviceType settings = Ok (Some svc) ->
  exists service spec,
    helm.Get "ports" spec
    = Some (helm.List_ (servicePorts role job serviceType settings))
    /\ servicePorts role job serviceType settings <> []
    /\ (svc = helm.Add "spec" spec service
        \/ exists fail, svc = helm.Add "_incompatible" fail
                                (helm.Add "spec" spec service)).
Proof.
  unfold kube.newService.
  destruct (servicePorts role job serviceType settings) as [|p ports] eqn:Ep;
    [done |].
  match goal with
  | |- context [Build ?a ?b ?c ?d] => destruct (Build a b c d) as [service|e]
  end; [|done].
  match goal with
  | |- context [helm.Sort ?s] => set (spec := s)
  end.
  intros H. exists service, (helm.Sort spec). split; [|split; [done |]].
  - rewrite Get_Sort. subst spec.
    destruct serviceType, (ExportSettings.CreateHelmChart settings); reflexivity.
  - destruct (ExportSettings.CreateHelmChart settings && isPublic serviceType);
      injection H as <-; eauto.
Qed.

Lemma newClusteringService_ports (role : InstanceGroup.t)
    (settings : ExportSettings.t) (svc : helm.Node) :
  newClusteringService role settings = Ok (Some svc) ->
  exists service spec,
    helm.Get "ports" spec = Some (helm.List_ (clusteringPorts role settings))
    /\ clusteringPorts role settings <> []
    /\ svc = helm.Add "spec" spec service.
Proof.
  unfold kube.newClusteringService.
  destruct (clusteringPorts role settings) as [|p ports] eqn:Ep; [done |].
  match goal with
  | |- context [Build ?a ?b ?c ?d] => destruct (Build a b c d) as [service|e]
  end; [|done].
  match goal with
  | |- context [helm.Sort ?s] => set (spec := s)
  end.
  intros [= <-]. exists service, (helm.Sort spec).
  split; [|done]. rewrite Get_Sort. reflexivity.
Qed.

(** C10. [newService] and [newClusteringService] return no service when the
    ports they collected are none: so for a public service of a job with no
    public port, and for a clustering service of an instance group whose
    jobs expose no port. A service that is returned has a spec whose ports
    are the collected ones, and they are not empty. *)
Theorem services_without_ports_are_omitted :
  (forall role job serviceType settings,
      servicePorts role job serviceType settings = [] ->
      newService role job serviceType settings = Ok None)
  /\ (forall role settings,
         clusteringPorts role settings = [] ->
         newClusteringService role settings = Ok None)
  /\ (forall role job settings,
         Forall (fun port => JobExposedPort.Public port = false)
                (JobReference.Ports job) ->
         newService role job newServiceTypePublic settings = Ok None)
  /\ (forall role settings,
         Forall (fun job => JobReference.Ports job = [])
                (InstanceGroup.JobReferences role) ->
         newClusteringService role settings = Ok None)
  /\ (forall role job serviceType settings svc,
         newService role job serviceType settings = Ok (Some svc) ->
         exists service spec,
           helm.Get "ports" spec
           = Some (helm.List_ (servicePorts role job serviceType settings))
           /\ servicePorts role job serviceType settings <> []
           /\ (svc = helm.Add "spec" spec service
               \/ exists fail, svc = helm.Add "_incompatible" fail
                                       (helm.Add "spec" spec service)))
  /\ (forall role settings svc,
         newClusteringService role settings = Ok (Some svc) ->
         exists service spec,
           helm.Get "ports" spec
           = Some (helm.List_ (clusteringPorts role settings))
           /\ clusteringPorts role settings <> []
           /\ svc = helm.Add "spec" spec service).
Proof.
  assert (Hs : forall role job serviceType settings,
             servicePorts role job serviceType settings = [] ->
             newService role job serviceType settings = Ok None).
  { intros role job serviceType settings E. unfold kube.newService.
    by rewrite E. }
  assert (Hc : forall role settings,
             clusteringPorts role settings = [] ->
             newClusteringService role settings = Ok None).
  { intros role settings E. unfold kube.newClusteringService. by rewrite E. }
  split; [exact Hs |]. split; [exact Hc |].
  split; [intros; by apply Hs, servicePorts_public_none |].
  split; [intros; by apply Hc, clusteringPorts_none |].
  split; [apply newService_ports | apply newClusteringService_ports].
Qed.

End emitter.

(** A public service for a job whose only port is not public is omitted. *)
Lemma services_without_ports_are_omitted_witness :
  kube.newService "app.kubernetes.io/component" "app" sameName sameName buildService
    (groupOf "web" [webJob]) webJob kube.newServiceTypePublic
    (kube.ExportSettings.mk false)
  = Ok None.
Proof.
  destruct (services_without_ports_are_omitted "app.kubernetes.io/component" "app"
              sameName sameName buildService) as (_ & _ & Hpublic & _).
  apply Hpublic. repeat constructor.
Defined.

(** ** CalculateRoleRun *)

Section run_aggregation.
Import model.

Variable setScaling : list JobReference.t -> RoleRun.t -> RoleRun.t.
Variable mergeCapabilities : list JobReference.t -> RoleRun.t -> RoleRun.t.
Variable mergeVolumes : list JobReference.t -> RoleRun.t -> RoleRun.t.
Variable setMaxFields : list JobReference.t -> RoleRun.t -> RoleRun.t.

Local Abbreviation CalculateRoleRun :=
  (model.CalculateRoleRun setScaling mergeCapabilities mergeVolumes setMaxFields).

Lemma uniqueStringLoop_Ok (f : JobReference.t -> string)
    (jobs : list JobReference.t) (found v : string) :
  uniqueStringLoop f jobs found = Ok v ->
  (found <> EmptyString -> v = found)
  /\ (forall j, In j jobs -> f j <> EmptyString -> f j = v)
  /\ (found = EmptyString ->
      (forall j, In j jobs -> f j = EmptyString) -> v = EmptyString).
Proof.
  revert found. induction jobs as [|j jobs IH]; intros found H; simpl in H.
  - injection H as <-. repeat split; try done; by intros j [].
  - destruct (String.eqb (f j) EmptyString) eqn:E1.
    { apply String.eqb_eq in E1. destruct (IH _ H) as (A & B & C).
      repeat split; [done | | ].
      - intros j' [<- | Hj] Hne; [done | by apply B].
      - intros Hf Hall. apply C; [done |]. intros j' Hj. apply Hall. by right. }
    apply String.eqb_neq in E1.
    destruct (String.eqb found EmptyString) eqn:E2.
    { apply String.eqb_eq in E2.
      destruct (IH _ H) as (A & B & C). specialize (A E1).
      repeat split.
      - by intros [].
      - intros j' [<- | Hj] Hne; [done | by apply B].
      - intros _ Hall. exfalso. apply E1, Hall. by left. }
    apply String.eqb_neq in E2.
    destruct (String.eqb found (f j)) eqn:E3; [|done].
    apply String.eqb_eq in E3.
    destruct (IH _ H) as (A & B & C). specialize (A E2).
    repeat split; [done | | done].
    intros j' [<- | Hj] Hne; [congruence | by apply B].
Qed.

Lemma uniqueStringProperty_Ok (f : JobReference.t -> string)
    (jobs : list JobReference.t) (v : string) :
  uniqueStringProperty f jobs = Ok v ->
  (forall j, In j jobs -> f j <> EmptyString -> f j = v)
  /\ ((forall j, In j jobs -> f j = EmptyString) -> v = EmptyString).
Proof.
  intros H. apply uniqueStringLoop_Ok in H as (_ & B & C). split; [done |].
  by apply C.
Qed.

Lemma uniqueStringLoop_Err (f : JobReference.t -> string)
    (jobs : list JobReference.t) (found e : string) :
  uniqueStringLoop f jobs found = Err e ->
  (exists j, In j jobs /\ f j <> EmptyString /\ found <> EmptyString
             /\ f j <> found)
  \/ (exists j1 j2, In j1 jobs /\ In j2 jobs /\ f j1 <> EmptyString
                    /\ f j2 <> EmptyString /\ f j1 <> f j2).
Proof.
  revert found. induction jobs as [|j jobs IH]; intros found H; simpl in H;
    [done |].
  destruct (String.eqb (f j) EmptyString) eqn:E1.
  { destruct (IH _ H) as [(j' & ? & ? & ? & ?) | (j1 & j2 & ? & ? & ? & ? & ?)].
    - left. exists j'. split; [by right | done].
    - right. exists j1, j2. split; [by right |]. split; [by right | done]. }
  apply String.eqb_neq in E1.
  destruct (String.eqb found EmptyString) eqn:E2.
  { destruct (IH _ H) as [(j' & ? & ? & ? & ?) | (j1 & j2 & ? & ? & ? & ? & ?)].
    - right. exists j', j. split; [by right |]. split; [by left | done].
    - right. exists j1, j2. split; [by right |]. split; [by right | done]. }
  apply String.eqb_neq in E2.
  destruct (String.eqb found (f j)) eqn:E3.
  { destruct (IH _ H) as [(j' & ? & ? & ? & ?) | (j1 & j2 & ? & ? & ? & ? & ?)].
    - left. exists j'. split; [by right | done].
    - right. exists j1, j2. split; [by right |]. split; [by right | done]. }
  apply String.eqb_neq in E3.
  left. exists j. split; [by left |]. split; [done |]. split; [done |].
  congruence.
Qed.

(** A job without a run block declares nothing. *)
Lemma declared_has_run (f : RoleRun.t -> string) (j : JobReference.t) :
  f RoleRun.zero = EmptyString ->
  f (runOf j) <> EmptyString -> runPropertyPresent j = true.
Proof.
  unfold runOf, runPropertyPresent. by destruct (JobReference.Run j).
Qed.

Lemma healthCheck_has_run (j : JobReference.t) :
  healthCheckPresent j = true -> runPropertyPresent j = true.
Proof.
  unfold healthCheckPresent, runOf, runPropertyPresent.
  by destruct (JobReference.Run j).
Qed.

Lemma filter_healthCheck_WithRunProperty (jobs : list JobReference.t) :
  List.filter healthCheckPresent (WithRunProperty jobs)
  = List.filter healthCheckPresent jobs.
Proof.
  unfold WithRunProperty. induction jobs as [|j jobs IH]; simpl; [done |].
  destruct (runPropertyPresent j) eqn:R; simpl.
  - by rewrite IH.
  - destruct (healthCheckPresent j) eqn:Hc; [|done].
    apply healthCheck_has_run in Hc. congruence.
Qed.

Lemma find_filter_head {A : Type} (p : A -> bool) (l : list A) :
  List.find p l = List.head (List.filter p l).
Proof.
  induction l as [|x l IH]; simpl; [done |]. by destruct (p x).
Qed.

Lemma firstHealthCheck_WithRunProperty (jobs : list JobReference.t) :
  firstHealthCheck (WithRunProperty jobs) = firstHealthCheck jobs.
Proof.
  unfold firstHealthCheck.
  by rewrite !find_filter_head, filter_healthCheck_WithRunProperty.
Qed.

(** When at most one job declares a health check, the first one found is
    the one of every job that declares one. *)
Lemma firstHealthCheck_unique (jobs : list JobReference.t) (j : JobReference.t) :
  (List.length (List.filter healthCheckPresent jobs) <= 1)%nat ->
  In j jobs -> healthCheckPresent j = true ->
  firstHealthCheck jobs = RoleRun.HealthCheck (runOf j).
Proof.
  intros Hlen Hj Hp. unfold firstHealthCheck. rewrite find_filter_head.
  assert (Hin : In j (List.filter healthCheckPresent jobs))
    by (apply filter_In; done).
  destruct (List.filter healthCheckPresent jobs) as [|j0 [|j1 rest]];
    simpl in *; [done | | lia].
  by destruct Hin as [-> | []].
Qed.

Lemma firstHealthCheck_none (jobs : list JobReference.t) :
  (forall j, In j jobs -> healthCheckPresent j = false) ->
  firstHealthCheck jobs = None.
Proof.
  intros H. unfold firstHealthCheck.
  destruct (List.find healthCheckPresent jobs) as [j|] eqn:F; [|done].
  apply find_some in F as [Hj Hp]. rewrite H in Hp; done.
Qed.

Lemma In_WithRunProperty (jobs : list JobReference.t) (j : JobReference.t) :
  In j jobs -> runPropertyPresent j = true -> In j (WithRunProperty jobs).
Proof. intros. apply filter_In. done. Qed.

Lemma WithRunProperty_In (jobs : list JobReference.t) (j : JobReference.t) :
  In j (WithRunProperty jobs) -> In j jobs.
Proof. intros H. by apply filter_In in H as [? _]. Qed.

(** The diagnostic looked for is the last one of some prefix of the list. *)
Ltac find_last_error :=
  first [ apply in_or_app; right; left; reflexivity
        | apply in_or_app; left; find_last_error ].

(** The four places [CalculateRoleRun] decides, read off its result. *)
Lemma CalculateRoleRun_cases (g : InstanceGroup.t) :
  let jobs := InstanceGroup.JobReferences g in
  let jobReferences := WithRunProperty jobs in
  let res := CalculateRoleRun g in
  let run := default RoleRun.zero (InstanceGroup.Run (fst res)) in
  let probe := fun j => RoleRun.ActivePassiveProbe (runOf j) in
  let account := fun j => RoleRun.ServiceAccount (runOf j) in
  (atLeastOnce runPropertyPresent jobs = false /\ run = RoleRun.zero)
  \/ (atLeastOnce runPropertyPresent jobs = true
      /\ (if atMostOnce healthCheckPresent jobReferences
          then RoleRun.HealthCheck run = firstHealthCheck jobReferences
          else reportsInvalid g
                 "Cannot specify Run.HealthCheck properties on more than one job of the same instance group"
                 (snd res))
      /\ match uniqueStringProperty probe jobReferences with
         | Ok property => RoleRun.ActivePassiveProbe run = property
         | Err _ =>
             reportsInvalid g
               "Cannot specify Run.ActivePassiveProbe properties on more than one job of the same instance group"
               (snd res)
         end
      /\ match uniqueStringProperty account jobReferences with
         | Ok property => RoleRun.ServiceAccount run = property
         | Err _ =>
             reportsInvalid g
               "Cannot specify Run.ServiceAccount properties on more than one job of the same instance group"
               (snd res)
         end).
Proof.
  cbv zeta. unfold model.CalculateRoleRun.
  destruct (atLeastOnce runPropertyPresent (InstanceGroup.JobReferences g));
    [right | left; done].
  split; [done |].
  set (jobReferences := WithRunProperty (InstanceGroup.JobReferences g)).
  destruct (equalOrMissing flightStagePresent jobReferences);
    destruct (atMostOnce healthCheckPresent jobReferences);
    destruct (uniqueStringProperty
                (fun j => RoleRun.ActivePassiveProbe (runOf j)) jobReferences);
    destruct (uniqueStringProperty
                (fun j => RoleRun.ServiceAccount (runOf j)) jobReferences);
    destruct (atMostOnce affinityPresent jobReferences);
    cbn [fst snd InstanceGroup.Run InstanceGroup.setRun default negb
         RoleRun.HealthCheck RoleRun.ActivePassiveProbe RoleRun.ServiceAccount
         RoleRun.setAffinity RoleRun.setServiceAccount
         RoleRun.setActivePassiveProbe RoleRun.setHealthCheck];
    repeat split; unfold reportsInvalid; eexists; find_last_error.
Qed.

Lemma atLeastOnce_In (jobs : list JobReference.t) (j : JobReference.t) :
  In j jobs -> runPropertyPresent j = true ->
  atLeastOnce runPropertyPresent jobs = true.
Proof. intros. apply existsb_exists. eauto. Qed.

Lemma string_conflict_reported (f : RoleRun.t -> string)
    (jobs : list JobReference.t) (v : string) (j1 j2 : JobReference.t) :
  f RoleRun.zero = EmptyString ->
  uniqueStringProperty (fun j => f (runOf j)) (WithRunProperty jobs) = Ok v ->
  In j1 jobs -> In j2 jobs ->
  f (runOf j1) <> EmptyString -> f (runOf j2) <> EmptyString ->
  f (runOf j1) = f (runOf j2).
Proof.
  intros Hz Hok H1 H2 N1 N2.
  apply uniqueStringProperty_Ok in Hok as [Hall _].
  rewrite (Hall j1), (Hall j2); eauto using In_WithRunProperty, declared_has_run.
Qed.

Lemma string_folded (f : RoleRun.t -> string) (jobs : list JobReference.t)
    (v : string) :
  f RoleRun.zero = EmptyString ->
  uniqueStringProperty (fun j => f (runOf j)) (WithRunProperty jobs) = Ok v ->
  (forall j, In j jobs -> f (runOf j) <> EmptyString -> v = f (runOf j))
  /\ ((forall j, In j jobs -> f (runOf j) = EmptyString) -> v = EmptyString).
Proof.
  intros Hz Hok. apply uniqueStringProperty_Ok in Hok as [Hall Hnone]. split.
  - intros j Hj Hne. symmetry.
    apply Hall; eauto using In_WithRunProperty, declared_has_run.
  - intros He. apply Hnone. intros j Hj. apply He. by eapply WithRunProperty_In.
Qed.

Lemma string_agree_Ok (f : RoleRun.t -> string) (jobs : list JobReference.t) :
  (forall j1 j2, In j1 jobs -> In j2 jobs ->
     f (runOf j1) <> EmptyString -> f (runOf j2) <> EmptyString ->
     f (runOf j1) = f (runOf j2)) ->
  exists v,
    uniqueStringProperty (fun j => f (runOf j)) (WithRunProperty jobs) = Ok v.
Proof.
  intros Hagree.
  destruct (uniqueStringProperty (fun j => f (runOf j)) (WithRunProperty jobs))
    as [v|e] eqn:E; [by exists v |].
  apply uniqueStringLoop_Err in E
    as [(j & _ & _ & [] & _) | (j1 & j2 & H1 & H2 & N1 & N2 & Hne)]; [done |].
  exfalso. apply Hne. eauto using WithRunProperty_In.
Qed.

(** C9. [CalculateRoleRun] reports an [Invalid] diagnostic for the instance
    group when more than one of its jobs declares a health check, when two
    of its jobs declare different active-passive probes, and when two
    declare different service accounts. When at most one job declares a
    health check, the run block of the group gets that one (none when no job
    declares one); when the declared probes agree, it gets the declared
    probe (the empty string when there is none), and so for the service
    account. *)
Theorem CalculateRoleRun_unique_properties (g : InstanceGroup.t) :
  let jobs := InstanceGroup.JobReferences g in
  let res := CalculateRoleRun g in
  let errs := snd res in
  let run := default RoleRun.zero (InstanceGroup.Run (fst res)) in
  let probe := fun j => RoleRun.ActivePassiveProbe (runOf j) in
  let account := fun j => RoleRun.ServiceAccount (runOf j) in
  let agree := fun f : JobReference.t -> string =>
    forall j1 j2, In j1 jobs -> In j2 jobs ->
      f j1 <> EmptyString -> f j2 <> EmptyString -> f j1 = f j2 in
  ((1 < List.length (List.filter healthCheckPresent jobs))%nat ->
   reportsInvalid g
     "Cannot specify Run.HealthCheck properties on more than one job of the same instance group"
     errs)
  /\ (~ agree probe ->
      reportsInvalid g
        "Cannot specify Run.ActivePassiveProbe properties on more than one job of the same instance group"
        errs)
  /\ (~ agree account ->
      reportsInvalid g
        "Cannot specify Run.ServiceAccount properties on more than one job of the same instance group"
        errs)
  /\ ((List.length (List.filter healthCheckPresent jobs) <= 1)%nat ->
      (forall j, In j jobs -> healthCheckPresent j = true ->
         RoleRun.HealthCheck run = RoleRun.HealthCheck (runOf j))
      /\ ((forall j, In j jobs -> healthCheckPresent j = false) ->
          RoleRun.HealthCheck run = None))
  /\ (agree probe ->
      (forall j, In j jobs -> probe j <> EmptyString ->
         RoleRun.ActivePassiveProbe run = probe j)
      /\ ((forall j, In j jobs -> probe j = EmptyString) ->
          RoleRun.ActivePassiveProbe run = EmptyString))
  /\ (agree account ->
      (forall j, In j jobs -> account j <> EmptyString ->
         RoleRun.ServiceAccount run = account j)
      /\ ((forall j, In j jobs -> account j = EmptyString) ->
          RoleRun.ServiceAccount run = EmptyString)).
Proof.
  intros jobs res errs run probe account agree.
  pose proof (CalculateRoleRun_cases g) as Hc. cbv zeta in Hc.
  fold jobs res run in Hc. fold errs in Hc.
  assert (Hrun : forall (f : RoleRun.t -> string) j,
             f RoleRun.zero = EmptyString -> In j jobs ->
             f (runOf j) <> EmptyString ->
             atLeastOnce runPropertyPresent jobs = true).
  { intros f j Hz Hj Hne. eapply atLeastOnce_In; [done |].
    by eapply declared_has_run. }
  assert (Hhc : forall j, In j jobs -> healthCheckPresent j = true ->
             atLeastOnce runPropertyPresent jobs = true).
  { intros j Hj Hp. eapply atLeastOnce_In; [done |].
    by apply healthCheck_has_run. }
  destruct Hc as [[Hnone Hzero] | (Hsome & Hh & Hp & Ha)].
  - (* no job has a run block: nothing is declared *)
    assert (Hp0 : forall j, In j jobs -> probe j = EmptyString).
    { intros j Hj. destruct (string_dec (probe j) EmptyString) as [|Hne];
        [done |].
      rewrite (Hrun RoleRun.ActivePassiveProbe j) in Hnone; done. }
    assert (Ha0 : forall j, In j jobs -> account j = EmptyString).
    { intros j Hj. destruct (string_dec (account j) EmptyString) as [|Hne];
        [done |].
      rewrite (Hrun RoleRun.ServiceAccount j) in Hnone; done. }
    assert (Hh0 : forall j, In j jobs -> healthCheckPresent j = false).
    { intros j Hj. destruct (healthCheckPresent j) eqn:E; [|done].
      rewrite (Hhc j) in Hnone; done. }
    assert (Hf : List.filter healthCheckPresent jobs = []).
    { clear -Hh0. induction jobs as [|j l IH]; simpl; [done |].
      rewrite Hh0 by (by left). apply IH. intros j' Hj'. apply Hh0. by right. }
    rewrite Hzero. cbn [RoleRun.HealthCheck RoleRun.ActivePassiveProbe
                        RoleRun.ServiceAccount RoleRun.zero].
    repeat split; try done.
    + rewrite Hf. simpl. lia.
    + intros Hn. exfalso. apply Hn. intros j1 j2 H1 H2 N1. by rewrite Hp0 in N1.
    + intros Hn. exfalso. apply Hn. intros j1 j2 H1 H2 N1. by rewrite Ha0 in N1.
    + intros j Hj Hp. by rewrite Hh0 in Hp.
    + intros j Hj Hne. by rewrite Hp0 in Hne.
    + intros j Hj Hne. by rewrite Ha0 in Hne.
  - unfold atMostOnce in Hh.
    rewrite filter_healthCheck_WithRunProperty in Hh.
    rewrite firstHealthCheck_WithRunProperty in Hh.
    fold jobs in Hh.
    split; [|split; [|split; [|split; [|split]]]].
    + intros Hmany. apply Nat.leb_gt in Hmany. by rewrite Hmany in Hh.
    + intros Hn.
      destruct (uniqueStringProperty _ _) as [v|e] eqn:E in Hp; [|done].
      exfalso. apply Hn. intros j1 j2 H1 H2 N1 N2.
      by eapply (string_conflict_reported RoleRun.ActivePassiveProbe).
    + intros Hn.
      destruct (uniqueStringProperty _ _) as [v|e] eqn:E in Ha; [|done].
      exfalso. apply Hn. intros j1 j2 H1 H2 N1 N2.
      by eapply (string_conflict_reported RoleRun.ServiceAccount).
    + intros Hone. pose proof Hone as Hone'. apply Nat.leb_le in Hone'.
      rewrite Hone' in Hh. rewrite Hh. split.
      * intros j Hj Hpj. by apply firstHealthCheck_unique.
      * apply firstHealthCheck_none.
    + intros Hagree.
      destruct (string_agree_Ok RoleRun.ActivePassiveProbe jobs Hagree)
        as [v Hv].
      fold jobs in Hp. rewrite Hv in Hp. rewrite Hp.
      by apply (string_folded RoleRun.ActivePassiveProbe).
    + intros Hagree.
      destruct (string_agree_Ok RoleRun.ServiceAccount jobs Hagree) as [v Hv].
      fold jobs in Ha. rewrite Hv in Ha. rewrite Ha.
      by apply (string_folded RoleRun.ServiceAccount).
Qed.

End run_aggregation.

(** Two jobs of an instance group that both declare a health check are
    reported. *)
Lemma CalculateRoleRun_unique_properties_witness :
  reportsInvalid
    (groupOf "api" [jobWithRun "a" checkedRun; jobWithRun "b" checkedRun])
    "Cannot specify Run.HealthCheck properties on more than one job of the same instance group"
    (snd (model.CalculateRoleRun keepRun keepRun keepRun keepRun
            (groupOf "api"
               [jobWithRun "a" checkedRun; jobWithRun "b" checkedRun]))).
Proof.
  pose proof (CalculateRoleRun_unique_properties keepRun keepRun keepRun
                keepRun
                (groupOf "api"
                   [jobWithRun "a" checkedRun; jobWithRun "b" checkedRun]))
    as H.
  cbv zeta in H. destruct H as (Hcheck & _).
  apply Hcheck. simpl. lia.
Defined.

(** ** Compile: the synchronizer *)

Section synchronizer.
Import model compilator.

Lemma successes_cons_ok (r : compileResult.t) (rest : list compileResult.t) :
  compileResult.err r = None ->
  successes (r :: rest)
  = Package.Fingerprint (compileResult.pkg r) :: successes rest.
Proof. intros E. unfold successes. simpl. by rewrite E. Qed.

Lemma successes_cons_err (r : compileResult.t) (rest : list compileResult.t)
    (e : string) :
  compileResult.err r = Some e -> successes (r :: rest) = successes rest.
Proof. intros E. unfold successes. simpl. by rewrite E. Qed.

(** What draining [results] does to the state of the synchronizer. *)
Lemma drain_spec (results : list compileResult.t) (st : synchronizing) :
  successesOnce (signalDependencies st) results ->
  exists st',
    drain results st = Done st'
    /\ err st' = match lastFailure results with
                 | Some e => Some e
                 | None => err st
                 end
    /\ List.length (ui st') = (List.length (ui st) + List.length results)%nat
    /\ killed st' = killed st || negb (bool_decide (firstFailure results = None))
    /\ killCh st' = (if killed st then killCh st
                     else if bool_decide (firstFailure results = None)
                          then killCh st else Closed)
    /\ (forall f, signalDependencies st' !! f
                  = if bool_decide (f ∈ successes results) then Some Closed
                    else signalDependencies st !! f).
Proof.
  revert st. induction results as [|r rest IH]; intros st [Hnd Hopen].
  - exists st. simpl. rewrite Nat.add_0_r, orb_false_r.
    repeat split; try done. by destruct (killed st).
  - simpl. unfold receive.
    destruct (compileResult.err r) as [e|] eqn:Er.
    + (* a failure *)
      rewrite (successes_cons_err _ _ _ Er) in Hnd, Hopen.
      set (ui' := ui st ++ _).
      assert (Hui : List.length ui' = S (List.length (ui st))).
      { subst ui'. rewrite length_app. simpl. lia. }
      destruct (killed st) eqn:K.
      * destruct (IH (mkSynchronizing (signalDependencies st) (killCh st) true
                        (Some e) ui'))
          as (st' & -> & He & Hl & Hk & Hc & Hs); [done |].
        exists st'. split; [done |]. simpl in *.
        rewrite (successes_cons_err _ _ _ Er).
        repeat split; try done.
        -- rewrite He. by destruct (lastFailure rest).
        -- lia.
      * destruct (IH (mkSynchronizing (signalDependencies st) Closed true
                        (Some e) ui'))
          as (st' & -> & He & Hl & Hk & Hc & Hs); [done |].
        exists st'. split; [done |]. simpl in *.
        rewrite (successes_cons_err _ _ _ Er).
        repeat split; try done.
        -- rewrite He. by destruct (lastFailure rest).
        -- lia.
    + (* a success *)
      rewrite (successes_cons_ok _ _ Er) in Hnd, Hopen.
      apply NoDup_cons in Hnd as [Hfresh Hnd].
      apply Forall_cons in Hopen as [Hf Hopen].
      unfold closeSignal. rewrite Hf.
      set (signals := <[_ := Closed]> (signalDependencies st)).
      set (ui' := ui st ++ _).
      assert (Hui : List.length ui' = S (List.length (ui st))).
      { subst ui'. rewrite length_app. simpl. lia. }
      destruct (IH (mkSynchronizing signals (killCh st) (killed st) (err st) ui'))
        as (st' & -> & He & Hl & Hk & Hc & Hs).
      { split; [done |]. simpl. subst signals.
        apply Forall_forall. intros f Hin.
        rewrite lookup_insert_ne.
        - rewrite Forall_forall in Hopen. by apply Hopen.
        - intros <-. by apply Hfresh. }
      exists st'. split; [done |]. simpl in *.
      rewrite (successes_cons_ok _ _ Er).
      repeat split; try done.
      * rewrite He. by destruct (lastFailure rest).
      * lia.
      * intros f. rewrite Hs. subst signals.
        destruct (decide (f = Package.Fingerprint (compileResult.pkg r)))
          as [-> | Hne].
        -- rewrite lookup_insert_eq.
           rewrite (bool_decide_eq_true_2 (_ ∈ _ :: _)) by (by left).
           by rewrite (bool_decide_eq_false_2 _ Hfresh).
        -- rewrite lookup_insert_ne by done.
           destruct (bool_decide (f ∈ successes rest)) eqn:B1;
             destruct (bool_decide (f ∈ _ :: successes rest)) eqn:B2;
             try done.
           ++ apply bool_decide_eq_true in B1.
              apply bool_decide_eq_false in B2.
              exfalso. apply B2. by right.
           ++ apply bool_decide_eq_false in B1.
              apply bool_decide_eq_true in B2.
              apply elem_of_cons in B2 as [? | ?]; done.
Qed.

Lemma lastFailure_None (results : list compileResult.t) :
  lastFailure results = None <-> firstFailure results = None.
Proof.
  induction results as [|r rest IH]; simpl; [done |].
  destruct (compileResult.err r) as [e|].
  - destruct (lastFailure rest); split; done.
  - rewrite <- IH. destruct (lastFailure rest); split; done.
Qed.

Section Compile.

Variable isPackageCompiledHarness : Package.t -> result bool.
Variable sortPackages : list Package.t -> list Package.t.

Local Abbreviation Compile :=
  (compilator.Compile isPackageCompiledHarness sortPackages).
Local Abbreviation removeCompiledPackages :=
  (compilator.removeCompiledPackages isPackageCompiledHarness).

(** C2, as amended. When packages are left to compile and every package
    reports success at most once, [Compile] drains all the results: each is
    logged, each success closes the signal of its package, the first failure
    closes [kill]. It then returns the error of the last failure it
    received (no error when there was none): every failure, the first and
    the later ones alike, overwrites the error that is returned. *)
Theorem Compile_returns_last_failure
    (signalDependencies0 : gmap string chan) (releases : list Release.t)
    (instanceGroups : option (list InstanceGroup.t))
    (results : list compileResult.t)
    (gathered : list Package.t) (signals signals' : gmap string chan)
    (pkg : Package.t) (packages : list Package.t) :
  gatherPackages signalDependencies0 releases instanceGroups
  = (gathered, signals) ->
  removeCompiledPackages gathered signals []
  = Done (Ok (pkg :: packages), signals') ->
  successesOnce signals' results ->
  exists c,
    Compile signalDependencies0 releases instanceGroups results = Done c
    /\ returned c = lastFailure results
    /\ List.length (ui (final c)) = List.length results
    /\ killCh (final c)
       = (if bool_decide (firstFailure results = None) then Open else Closed)
    /\ (forall f, f ∈ successes results ->
          compilator.signalDependencies (final c) !! f = Some Closed).
Proof.
  intros Hg Hr Hs. unfold compilator.Compile. rewrite Hg, Hr.
  destruct (drain_spec results (mkSynchronizing signals' Open false None []) Hs)
    as (st & -> & He & Hl & _ & Hc & Hsig).
  eexists. split; [done |]. simpl in *.
  repeat split; try done.
  - rewrite He. by destruct (lastFailure results).
  - intros f Hf. rewrite Hsig. by rewrite bool_decide_eq_true_2.
Qed.

End Compile.

(** The theorem at the run of scenario 1 in which B fails and C is told to
    stop: what [Compile] returns is the error of C. *)
Lemma Compile_returns_last_failure_witness :
  exists c,
    compilator.Compile notCompiled sorted ∅ [release1] None resultsBFails
    = Done c
    /\ returned c = Some errWorkerAbort.
Proof.
  destruct (Compile_returns_last_failure notCompiled sorted ∅ [release1] None
              resultsBFails
              (fst (gatherPackages ∅ [release1] None))
              (snd (gatherPackages ∅ [release1] None))
              (snd (gatherPackages ∅ [release1] None))
              pkgA [pkgB; pkgRuby; pkgC])
    as (c & Hc & Hret & _).
  - reflexivity.
  - reflexivity.
  - split.
    + apply (bool_decide_unpack _). vm_compute. exact I.
    + repeat constructor.
  - exists c. split; [exact Hc | exact Hret].
Defined.

(** C2 as stated fails: in that run the first failure the synchronizer
    receives is the one of B, and [Compile] returns the one of C. *)
Lemma Compile_does_not_return_first_failure :
  exists c,
    compilator.Compile notCompiled sorted ∅ [release1] None resultsBFails
    = Done c
    /\ firstFailure resultsBFails = Some "exit status 1"
    /\ returned c = Some errWorkerAbort
    /\ returned c <> firstFailure resultsBFails.
Proof.
  eexists. split; [reflexivity |]. repeat split; discriminate.
Qed.

End synchronizer.

(** ** createDepBuckets *)

(** A finite set of vertices each of which has a successor in the set
    holds a cycle. *)
Lemma no_sink_cycle {A : Type} (E : relation A) (l : list A) :
  l <> [] ->
  (forall x, x ∈ l -> exists y, y ∈ l /\ E x y) ->
  exists x, tc E x x.
Proof.
  revert E. induction l as [|x l IH]; intros E Hne Hsucc; [done |].
  destruct (Hsucc x) as (c & Hc & Exc); [by left |].
  apply elem_of_cons in Hc as [-> | Hc]; [exists x; by apply tc_once |].
  destruct (IH (fun a b => E a b \/ (E a x /\ E x b))) as [z Hz].
  - intros ->. by apply elem_of_nil in Hc.
  - intros a Ha. destruct (Hsucc a) as (b & Hb & Eab); [by right |].
    apply elem_of_cons in Hb as [-> | Hb]; [exists c | exists b]; tauto.
  - exists z. revert Hz. generalize z at 1 3. generalize z. clear.
    intros a b Hab.
    induction Hab as [a b [H | [H1 H2]] | a b c [H | [H1 H2]] _ IH'].
    + by apply tc_once.
    + eapply tc_l; [done | by apply tc_once].
    + by eapply tc_l.
    + eapply tc_l; [done |]. by eapply tc_l.
Qed.

Section counting.
Import model compilator.

Variable packages : list Package.t.

Local Abbreviation known := (fingerprints packages).

Lemma count_insert_eq (depCount : gmap string Z) (f : string) (n : Z) :
  count (<[f := n]> depCount) f = n.
Proof. unfold count. by rewrite lookup_insert_eq. Qed.

Lemma count_insert_ne (depCount : gmap string Z) (f g : string) (n : Z) :
  f <> g -> count (<[f := n]> depCount) g = count depCount g.
Proof. intros. unfold count. by rewrite lookup_insert_ne. Qed.

Lemma initDepCount_lookup_gen (l : list Package.t) (m : gmap string Z)
    (g : string) :
  fold_left (fun depCount pkg => <[Package.Fingerprint pkg := 0]> depCount) l m
    !! g
  = if decide (g ∈ fingerprints l) then Some 0 else m !! g.
Proof.
  revert m. induction l as [|p l IH]; intros m; cbn [fold_left]; [done |].
  rewrite IH. unfold fingerprints. rewrite fmap_cons.
  destruct (decide (g ∈ Package.Fingerprint <$> l)) as [Hin | Hnin].
  - rewrite decide_True; [done | by right].
  - destruct (decide (g = Package.Fingerprint p)) as [-> | Hne].
    + rewrite lookup_insert_eq. rewrite decide_True; [done | by left].
    + rewrite lookup_insert_ne by done.
      rewrite decide_False; [done |].
      intros [? | ?]%elem_of_cons; done.
Qed.

Lemma initDepCount_lookup (g : string) :
  initDepCount packages !! g = if decide (g ∈ known) then Some 0 else None.
Proof. unfold initDepCount. by rewrite initDepCount_lookup_gen. Qed.

(** The loop over the dependencies of one package *)
Lemma depStep_fold (pkg : Package.t) (deps : list Package.t)
    (depCount depCount' : gmap string Z)
    (revDeps revDeps' : gmap string (list Package.t)) :
  (forall g, is_Some (depCount !! g) <-> g ∈ known) ->
  Package.Fingerprint pkg ∈ known ->
  fold_left (depStep pkg) deps (depCount, revDeps) = (depCount', revDeps') ->
  (forall g, is_Some (depCount' !! g) <-> g ∈ known)
  /\ (forall g, count depCount' g
                = count depCount g
                  + (if decide (g = Package.Fingerprint pkg)
                     then Z.of_nat
                            (List.length
                               (filter (fun d => Package.Fingerprint d ∈ known)
                                  deps))
                     else 0))
  /\ (forall f, default [] (revDeps' !! f)
                = default [] (revDeps !! f)
                  ++ ((fun _ => pkg)
                        <$> filter (fun d => Package.Fingerprint d = f)
                              (filter (fun d => Package.Fingerprint d ∈ known)
                                 deps))).
Proof.
  intros Hdom Hpkg. revert depCount revDeps Hdom.
  induction deps as [|d deps IH]; intros depCount revDeps Hdom Hfold;
    simpl in Hfold.
  - injection Hfold as <- <-. split; [done |]. split.
    + intros g. case_decide; simpl; lia.
    + intros f. simpl. by rewrite app_nil_r.
  - destruct (depCount !! Package.Fingerprint d) as [n|] eqn:Hd.
    + assert (Hk : Package.Fingerprint d ∈ known) by (apply Hdom; eauto).
      apply IH in Hfold as (Hdom' & Hcount & Hrev).
      * split; [done |]. split.
        -- intros g. rewrite Hcount. rewrite (filter_cons_True _ d) by done.
           destruct (decide (g = Package.Fingerprint pkg)) as [-> | Hne].
           ++ rewrite count_insert_eq. simpl length. lia.
           ++ rewrite count_insert_ne by done. lia.
        -- intros f. rewrite Hrev. rewrite (filter_cons_True _ d) by done.
           destruct (decide (Package.Fingerprint d = f)) as [<- | Hne].
           ++ rewrite lookup_insert_eq. simpl.
              rewrite (filter_cons_True _ d) by done.
              rewrite fmap_cons. by rewrite <- app_assoc.
           ++ rewrite lookup_insert_ne by done.
              by rewrite (filter_cons_False _ d) by done.
      * intros g. destruct (decide (Package.Fingerprint pkg = g)) as [<- | Hne].
        -- rewrite lookup_insert_eq. split; eauto.
        -- by rewrite lookup_insert_ne.
    + assert (Hk : Package.Fingerprint d ∉ known).
      { intros Hin. apply Hdom in Hin as [? ?]. congruence. }
      apply IH in Hfold as (Hdom' & Hcount & Hrev); [|done].
      split; [done |].
      split; intros ?; rewrite ?Hcount, ?Hrev;
        by rewrite (filter_cons_False _ d) by done.
Qed.

(** The loop over the packages *)
Lemma countDeps_fold (l : list Package.t)
    (depCount depCount' : gmap string Z)
    (revDeps revDeps' : gmap string (list Package.t)) :
  (forall g, is_Some (depCount !! g) <-> g ∈ known) ->
  (forall pkg, pkg ∈ l -> Package.Fingerprint pkg ∈ known) ->
  fold_left (fun st pkg => fold_left (depStep pkg) (Package.Dependencies pkg) st)
    l (depCount, revDeps)
  = (depCount', revDeps') ->
  (forall g, count depCount' g
             = count depCount g + Z.of_nat (depTotal packages g l))
  /\ (forall f, default [] (revDeps' !! f)
                = default [] (revDeps !! f) ++ usersOf packages f l).
Proof.
  revert depCount revDeps. induction l as [|pkg l IH];
    intros depCount revDeps Hdom Hl Hfold; simpl in Hfold.
  - injection Hfold as <- <-. split; intros ?; simpl; [lia |].
    by rewrite app_nil_r.
  - destruct (fold_left (depStep pkg) (Package.Dependencies pkg)
                (depCount, revDeps)) as [depCount1 revDeps1] eqn:E1.
    apply depStep_fold in E1 as (Hdom1 & Hcount1 & Hrev1);
      [|done | apply Hl; by left].
    apply IH in Hfold as [Hcount Hrev]; [|done |].
    + split.
      * intros g. rewrite Hcount, Hcount1. simpl. unfold knownDeps.
        case_decide; lia.
      * intros f. rewrite Hrev, Hrev1. simpl. unfold knownDeps.
        by rewrite <- app_assoc.
    + intros q Hq. apply Hl. by right.
Qed.

End counting.

Section queueing.
Import model compilator.

Variable packages : list Package.t.
Hypothesis packages_NoDup : NoDup (fingerprints packages).

Lemma fingerprint_inj (p q : Package.t) :
  p ∈ packages -> q ∈ packages ->
  Package.Fingerprint p = Package.Fingerprint q -> p = q.
Proof.
  intros Hp Hq E. clear -packages_NoDup Hp Hq E.
  induction packages as [|x l IH]; [by apply elem_of_nil in Hp |].
  apply NoDup_cons in packages_NoDup as [Hx Hl].
  apply elem_of_cons in Hp as [-> | Hp]; apply elem_of_cons in Hq as [-> | Hq];
    try done.
  - exfalso. apply Hx. rewrite E. apply list_elem_of_fmap. eauto.
  - exfalso. apply Hx. rewrite <- E. apply list_elem_of_fmap. eauto.
  - by apply IH.
Qed.

Lemma fingerprints_cons (p : Package.t) (l : list Package.t) :
  fingerprints (p :: l) = Package.Fingerprint p :: fingerprints l.
Proof. reflexivity. Qed.

Lemma fingerprints_app (l1 l2 : list Package.t) :
  fingerprints (l1 ++ l2) = fingerprints l1 ++ fingerprints l2.
Proof. apply fmap_app. Qed.

Lemma elem_of_fingerprints (l : list Package.t) (p : Package.t) :
  p ∈ l -> Package.Fingerprint p ∈ fingerprints l.
Proof. intros. apply list_elem_of_fmap. eauto. Qed.

Lemma depTotal_fresh (ps : list Package.t) (g : string) (l : list Package.t) :
  g ∉ fingerprints l -> depTotal ps g l = O.
Proof.
  induction l as [|p l IH]; cbn [depTotal]; [done |].
  rewrite fingerprints_cons, not_elem_of_cons. intros [Hne Hl].
  rewrite decide_False by done. by rewrite IH.
Qed.

Lemma depTotal_unique (ps : list Package.t) (l : list Package.t)
    (q : Package.t) :
  NoDup (fingerprints l) -> q ∈ l ->
  depTotal ps (Package.Fingerprint q) l = List.length (knownDeps ps q).
Proof.
  induction l as [|p l IH]; intros Hnd Hq; [by apply elem_of_nil in Hq |].
  rewrite fingerprints_cons in Hnd.
  apply NoDup_cons in Hnd as [Hp Hl]. cbn [depTotal].
  apply elem_of_cons in Hq as [-> | Hq].
  - rewrite decide_True by done. rewrite depTotal_fresh by done. lia.
  - rewrite decide_False.
    + by rewrite IH.
    + intros E. apply Hp. rewrite <- E. by apply elem_of_fingerprints.
Qed.

Lemma usersOf_fresh (ps : list Package.t) (f g : string) (l : list Package.t) :
  g ∉ fingerprints l ->
  filter (fun u => Package.Fingerprint u = g) (usersOf ps f l) = [].
Proof.
  induction l as [|p l IH]; cbn [usersOf]; [done |].
  rewrite fingerprints_cons, not_elem_of_cons. intros [Hne Hl].
  rewrite filter_app, IH, app_nil_r by done.
  generalize (filter (fun dep => Package.Fingerprint dep = f) (knownDeps ps p)).
  intros ds. induction ds as [|d ds IHd]; [done |].
  rewrite fmap_cons, filter_cons_False; [done | congruence].
Qed.

Lemma usersOf_unique (ps : list Package.t) (f : string) (l : list Package.t)
    (q : Package.t) :
  NoDup (fingerprints l) -> q ∈ l ->
  List.length (filter (fun u => Package.Fingerprint u = Package.Fingerprint q)
                 (usersOf ps f l))
  = List.length (filter (fun d => Package.Fingerprint d = f) (knownDeps ps q)).
Proof.
  induction l as [|p l IH]; intros Hnd Hq; [by apply elem_of_nil in Hq |].
  rewrite fingerprints_cons in Hnd.
  apply NoDup_cons in Hnd as [Hp Hl]. cbn [usersOf].
  rewrite filter_app, length_app.
  apply elem_of_cons in Hq as [-> | Hq].
  - rewrite usersOf_fresh by done. cbn [length]. rewrite Nat.add_0_r.
    assert (H1 : forall ds : list Package.t,
               List.length
                 (filter (fun u => Package.Fingerprint u = Package.Fingerprint p)
                    ((fun _ => p) <$> ds))
               = List.length ds).
    { induction ds as [|d ds IHd]; [done |].
      rewrite fmap_cons, filter_cons_True by done. cbn [length].
      by rewrite IHd. }
    by rewrite H1.
  - rewrite IH by done.
    assert (Hne : Package.Fingerprint p <> Package.Fingerprint q).
    { intros E. apply Hp. rewrite E. by apply elem_of_fingerprints. }
    assert (H0 : forall ds : list Package.t,
               filter (fun u => Package.Fingerprint u = Package.Fingerprint q)
                      ((fun _ => p) <$> ds) = []).
    { induction ds as [|d ds IHd]; [done |].
      by rewrite fmap_cons, filter_cons_False. }
    by rewrite H0.
Qed.

(** What the two counting loops leave behind. *)
Lemma countDeps_spec (depCount : gmap string Z)
    (revDeps : gmap string (list Package.t)) :
  countDeps packages = (depCount, revDeps) ->
  (forall q, q ∈ packages ->
     count depCount (Package.Fingerprint q)
     = Z.of_nat (List.length (knownDeps packages q)))
  /\ (forall f, default [] (revDeps !! f) = usersOf packages f packages).
Proof.
  unfold countDeps. intros H.
  apply (countDeps_fold packages) in H as [Hc Hr].
  - split.
    + intros q Hq. rewrite Hc. unfold count at 1.
      rewrite initDepCount_lookup.
      rewrite decide_True by (by apply elem_of_fingerprints). simpl.
      by rewrite depTotal_unique.
    + intros f. rewrite Hr. by rewrite lookup_empty.
  - intros g. rewrite initDepCount_lookup.
    case_decide; split; try done; eauto; by intros [? ?].
  - intros pkg. apply elem_of_fingerprints.
Qed.

Lemma notifyUsers_count (users : list Package.t) (depCount : gmap string Z)
    (g : string) :
  count (notifyUsers users depCount) g
  = count depCount g
    - Z.of_nat (List.length
                  (filter (fun u => Package.Fingerprint u = g) users)).
Proof.
  unfold notifyUsers. revert depCount.
  induction users as [|u users IH]; intros depCount; simpl; [lia |].
  rewrite IH. destruct (decide (Package.Fingerprint u = g)) as [<- | Hne].
  - rewrite count_insert_eq, filter_cons_True by done. simpl length. lia.
  - rewrite count_insert_ne, filter_cons_False by done. lia.
Qed.

(** Queueing [f] takes the dependencies on [f] out of what is unmet. *)
Lemma unmet_queue (queued : list string) (f : string) (ds : list Package.t) :
  f ∉ queued ->
  (List.length (filter (fun d => Package.Fingerprint d ∉ queued ++ [f]) ds)
   + List.length (filter (fun d => Package.Fingerprint d = f) ds))%nat
  = List.length (filter (fun d => Package.Fingerprint d ∉ queued) ds).
Proof.
  intros Hf. induction ds as [|d ds IH]; [done |].
  rewrite !filter_cons.
  destruct (decide (Package.Fingerprint d = f)) as [E | Hne].
  - rewrite decide_False.
    + rewrite decide_True by (by rewrite E). simpl. lia.
    + intros H. apply H. rewrite E. apply elem_of_app. right. by left.
  - destruct (decide (Package.Fingerprint d ∉ queued)) as [Hq | Hq].
    + rewrite decide_True.
      * simpl. lia.
      * intros [? | ?%list_elem_of_singleton]%elem_of_app; done.
    + rewrite decide_False; [done |].
      intros H. apply Hq. intros Hin. apply H. apply elem_of_app. by left.
Qed.

Lemma filter_nil_forall {A : Type} (P : A -> Prop) `{!forall x, Decision (P x)}
    (l : list A) :
  filter P l = [] -> forall x, x ∈ l -> ~ P x.
Proof.
  intros Hnil x Hx HP.
  assert (Hin : x ∈ filter P l) by (by apply list_elem_of_filter).
  rewrite Hnil in Hin. by apply elem_of_nil in Hin.
Qed.

Lemma forall_filter_nil {A : Type} (P : A -> Prop) `{!forall x, Decision (P x)}
    (l : list A) :
  (forall x, x ∈ l -> ~ P x) -> filter P l = [].
Proof.
  induction l as [|x l IH]; intros Hall; [done |].
  rewrite filter_cons_False by (apply Hall; by left).
  apply IH. intros y Hy. apply Hall. by right.
Qed.

Lemma snoc_split {A : Type} (l before after : list A) (x p : A) :
  l ++ [x] = before ++ p :: after ->
  (after = [] /\ before = l /\ p = x)
  \/ (exists after', after = after' ++ [x] /\ l = before ++ p :: after').
Proof.
  destruct after as [|y after' _] using rev_ind; intros E.
  - left. apply app_inj_tail in E as [-> ->]. auto.
  - right.
    change (before ++ p :: after' ++ [y])
      with (before ++ (p :: after') ++ [y]) in E.
    rewrite app_assoc in E. apply app_inj_tail in E as [-> ->].
    by exists after'.
Qed.

Variable revDeps : gmap string (list Package.t).
Hypothesis revDeps_users :
  forall f, default [] (revDeps !! f) = usersOf packages f packages.

Lemma queued_member (st : queueing) (queued : list Package.t) (q : Package.t) :
  queueInvariant packages st queued ->
  q ∈ packages -> Package.Fingerprint q ∈ fingerprints queued -> q ∈ queued.
Proof.
  intros (_ & _ & Hsub & _) Hq Hin.
  apply list_elem_of_fmap in Hin as (q' & E & Hq').
  by rewrite (fingerprint_inj q q' Hq (Hsub _ Hq') E).
Qed.

Lemma visit_skip (st : queueing) (pkg : Package.t) :
  count (depCount st) (Package.Fingerprint pkg) <> 0 ->
  visit revDeps st pkg = st.
Proof.
  intros Hne. unfold visit. apply Z.eqb_neq in Hne. by rewrite Hne.
Qed.

(** A package whose counter is zero is taken, behind what was taken. *)
Lemma visit_take (st : queueing) (queued : list Package.t) (pkg : Package.t) :
  queueInvariant packages st queued ->
  pkg ∈ packages ->
  count (depCount st) (Package.Fingerprint pkg) = 0 ->
  queueInvariant packages (visit revDeps st pkg) (queued ++ [pkg])
  /\ keepRunning (visit revDeps st pkg) = true.
Proof.
  intros Inv Hpkg Hzero.
  pose proof Inv as (Hr & Hb & Hsub & Hnd & Hcnt & Htopo).
  pose proof (Hcnt pkg Hpkg) as Hc. rewrite Hzero in Hc.
  destruct (decide (Package.Fingerprint pkg ∈ fingerprints queued))
    as [|Hfresh]; [done |].
  assert (Hmet : forall d, d ∈ knownDeps packages pkg ->
                   Package.Fingerprint d ∈ fingerprints queued).
  { intros d Hd.
    destruct (decide (Package.Fingerprint d ∈ fingerprints queued)) as [|Hn];
      [done |].
    assert (Hnil : unmet packages (fingerprints queued) pkg = []).
    { apply length_zero_iff_nil. lia. }
    exfalso. by eapply (filter_nil_forall _ _ Hnil d). }
  assert (Hinv_rest :
    (forall p, p ∈ queued ++ [pkg] -> p ∈ packages)
    /\ NoDup (fingerprints (queued ++ [pkg]))
    /\ (forall q, q ∈ packages ->
          count (notifyUsers (default [] (revDeps !! Package.Fingerprint pkg))
                   (<[Package.Fingerprint pkg := 0 - 1]> (depCount st)))
                (Package.Fingerprint q)
          = if decide (Package.Fingerprint q ∈ fingerprints (queued ++ [pkg]))
            then -1
            else Z.of_nat
                   (List.length
                      (unmet packages (fingerprints (queued ++ [pkg])) q)))
    /\ afterItsDeps packages (queued ++ [pkg])).
  { split; [|split; [|split]].
    - intros p [Hp | ->%list_elem_of_singleton]%elem_of_app; [by apply Hsub | done].
    - rewrite fingerprints_app. apply NoDup_app. split; [done |]. split.
      + intros x Hx ->%list_elem_of_singleton. done.
      + apply NoDup_singleton.
    - intros q Hq.
      rewrite notifyUsers_count, revDeps_users, usersOf_unique by done.
      rewrite fingerprints_app. cbn [fingerprints fmap list_fmap].
      destruct (decide (Package.Fingerprint q = Package.Fingerprint pkg))
        as [E | Hne].
      + assert (q = pkg) as -> by (by apply fingerprint_inj).
        rewrite count_insert_eq.
        rewrite forall_filter_nil.
        * rewrite decide_True; [simpl; lia |].
          apply elem_of_app. right. by left.
        * intros d Hd Ed. apply Hfresh. rewrite <- Ed. by apply Hmet.
      + rewrite count_insert_ne by done. rewrite (Hcnt q Hq).
        destruct (decide (Package.Fingerprint q ∈ fingerprints queued))
          as [Hin | Hnin].
        * rewrite decide_True by (apply elem_of_app; by left).
          rewrite forall_filter_nil; [simpl; lia |].
          intros d Hd Ed.
          pose proof (queued_member st queued q Inv Hq Hin) as Hqin.
          apply list_elem_of_split in Hqin as (b & a & Eq).
          apply Hfresh. rewrite <- Ed. rewrite Eq, fingerprints_app.
          apply elem_of_app. left. eapply Htopo; [done |].
          by apply elem_of_fingerprints.
        * rewrite decide_False.
          -- pose proof (unmet_queue (fingerprints queued)
                           (Package.Fingerprint pkg) (knownDeps packages q)
                           Hfresh) as Hu.
             unfold unmet. lia.
          -- intros [? | ?%list_elem_of_singleton]%elem_of_app; done.
    - intros before p after g E Hg.
      apply snoc_split in E as [(-> & -> & ->) | (after' & -> & ->)].
      + apply list_elem_of_fmap in Hg as (d & -> & Hd). by apply Hmet.
      + by eapply Htopo. }
  destruct Hinv_rest as (Hsub' & Hnd' & Hcnt' & Htopo').
  unfold visit. rewrite Hzero. cbn [Z.eqb negb].
  destruct (isRuby pkg) eqn:Ruby; (split; [|done]);
    (split; [|split; [|done]]); cbn [rubies buckets]; rewrite filter_app.
  - rewrite Hr, filter_cons_True by done. done.
  - rewrite Hb, filter_cons_False; [by rewrite app_nil_r | ]. rewrite Ruby. auto.
  - rewrite Hr, filter_cons_False; [by rewrite app_nil_r | ]. by rewrite Ruby.
  - rewrite Hb, filter_cons_True; [done |]. by rewrite Ruby.
Qed.

(** The inner loop over a part of the packages *)
Lemma visits_spec (l : list Package.t) (st : queueing)
    (queued : list Package.t) :
  (forall p, p ∈ l -> p ∈ packages) ->
  queueInvariant packages st queued ->
  exists more,
    queueInvariant packages (fold_left (visit revDeps) l st) (queued ++ more)
    /\ (more = [] ->
        fold_left (visit revDeps) l st = st
        /\ forall p, p ∈ l ->
             count (depCount st) (Package.Fingerprint p) <> 0)
    /\ (more <> [] -> keepRunning (fold_left (visit revDeps) l st) = true).
Proof.
  revert st queued. induction l as [|p l IH]; intros st queued Hl Inv.
  - exists []. rewrite app_nil_r. split; [done |]. split; [|done].
    split; [done |]. intros p Hp. by apply elem_of_nil in Hp.
  - cbn [fold_left].
    destruct (decide (count (depCount st) (Package.Fingerprint p) = 0))
      as [Hz | Hnz].
    + destruct (visit_take st queued p Inv) as [Inv1 Hk];
        [apply Hl; by left | done |].
      destruct (IH _ _ (fun q Hq => Hl q (list_elem_of_further _ _ _ Hq)) Inv1)
        as (more & Inv2 & Hnil & Hcons).
      exists (p :: more). split; [|split; [done |]].
      * by rewrite <- app_assoc in Inv2.
      * intros _. destruct more as [|m more]; [|by apply Hcons].
        destruct Hnil as [-> _]; done.
    + rewrite visit_skip by done.
      destruct (IH _ _ (fun q Hq => Hl q (list_elem_of_further _ _ _ Hq)) Inv)
        as (more & Inv2 & Hnil & Hcons).
      exists more. split; [done |]. split; [|done].
      intros Hm. destruct (Hnil Hm) as [E Hall]. split; [done |].
      intros q [-> | Hq]%elem_of_cons; [done | by apply Hall].
Qed.

(** One round: packages are taken, or the round changes nothing and no
    counter is zero. *)
Lemma round_spec (st : queueing) (queued : list Package.t) :
  queueInvariant packages st queued ->
  exists more,
    queueInvariant packages (round revDeps packages st) (queued ++ more)
    /\ (keepRunning (round revDeps packages st) = false ->
        more = []
        /\ forall p, p ∈ packages ->
             count (depCount (round revDeps packages st))
                   (Package.Fingerprint p) <> 0)
    /\ (keepRunning (round revDeps packages st) = true -> more <> []).
Proof.
  intros Inv. unfold round.
  set (st0 := mkQueueing (depCount st) false (rubies st) (buckets st)).
  assert (Inv0 : queueInvariant packages st0 queued) by exact Inv.
  destruct (visits_spec packages st0 queued (fun _ H => H) Inv0)
    as (more & Inv1 & Hnil & Hcons).
  exists more. split; [done |].
  destruct more as [|m more].
  - destruct (Hnil eq_refl) as [-> Hall]. split; [done |]. done.
  - rewrite Hcons by done. split; done.
Qed.

Lemma queued_length (st : queueing) (queued : list Package.t) :
  queueInvariant packages st queued ->
  (List.length queued <= List.length packages)%nat.
Proof.
  intros (_ & _ & Hsub & Hnd & _).
  apply NoDup_fmap_1 in Hnd.
  by apply submseteq_length, NoDup_submseteq.
Qed.

(** The rounds come to an end, with no counter at zero. *)
Lemma rounds_spec (fuel : nat) (st : queueing) (queued : list Package.t) :
  queueInvariant packages st queued ->
  (List.length packages - List.length queued < fuel)%nat ->
  exists st' queued',
    rounds fuel revDeps packages st = Some st'
    /\ queueInvariant packages st' queued'
    /\ forall p, p ∈ packages ->
         count (depCount st') (Package.Fingerprint p) <> 0.
Proof.
  revert st queued. induction fuel as [|fuel IH]; intros st queued Inv Hfuel;
    [lia |].
  cbn [rounds].
  destruct (round_spec st queued Inv) as (more & Inv1 & Hstop & Hgo).
  destruct (keepRunning (round revDeps packages st)).
  - apply (IH _ (queued ++ more)); [done |].
    pose proof (queued_length _ _ Inv1) as Hlen.
    rewrite length_app in *.
    destruct more as [|m more]; [by destruct Hgo |]. simpl in *. lia.
  - destruct Hstop as [-> Hall]; [done |]. eauto.
Qed.

(** When no counter is zero and nothing depends on itself, everything was
    taken. *)
Lemma all_queued (st : queueing) (queued : list Package.t) :
  queueInvariant packages st queued ->
  (forall p, p ∈ packages ->
     count (depCount st) (Package.Fingerprint p) <> 0) ->
  acyclic packages ->
  forall p, p ∈ packages -> Package.Fingerprint p ∈ fingerprints queued.
Proof.
  intros Inv Hnz Hacyc p Hp.
  destruct (decide (Package.Fingerprint p ∈ fingerprints queued)) as [|Hout];
    [done |].
  exfalso.
  pose proof Inv as (_ & _ & _ & _ & Hcnt & _).
  destruct (no_sink_cycle (dependsOn packages)
              (filter (fun f => f ∉ fingerprints queued) (fingerprints packages)))
    as [f Hf].
  - intros Hnil.
    eapply (filter_nil_forall _ _ Hnil (Package.Fingerprint p));
      [by apply elem_of_fingerprints | done].
  - intros x [Hx Hin]%list_elem_of_filter.
    apply list_elem_of_fmap in Hin as (q & -> & Hq).
    pose proof (Hcnt q Hq) as Hc. rewrite decide_False in Hc by done.
    pose proof (Hnz q Hq) as Hn. rewrite Hc in Hn.
    destruct (unmet packages (fingerprints queued) q) as [|d ds] eqn:Eu;
      [done |].
    assert (Hd : d ∈ unmet packages (fingerprints queued) q)
      by (rewrite Eu; by left).
    apply list_elem_of_filter in Hd as [Hdq Hd].
    pose proof Hd as [Hdk _]%list_elem_of_filter.
    exists (Package.Fingerprint d). split.
    + by apply list_elem_of_filter.
    + exists q. split; [done |]. split; [done |].
      by apply elem_of_fingerprints.
  - by apply (Hacyc f).
Qed.

End queueing.

Section buckets.
Import model compilator.

Lemma unmet_nil (packages : list Package.t) (q : Package.t) :
  unmet packages [] q = knownDeps packages q.
Proof.
  unfold unmet. induction (knownDeps packages q) as [|d ds IH]; [done |].
  rewrite filter_cons_True; [by rewrite IH |].
  intros H. by apply elem_of_nil in H.
Qed.

(** The state [createDepBuckets] ends in: everything it took, in the order
    it took it. *)
Lemma createDepBuckets_fuel_spec (packages : list Package.t) :
  NoDup (fingerprints packages) ->
  exists st queued,
    createDepBuckets_fuel (S (List.length packages)) packages
    = Some (rubies st ++ buckets st)
    /\ queueInvariant packages st queued
    /\ forall p, p ∈ packages ->
         count (depCount st) (Package.Fingerprint p) <> 0.
Proof.
  intros Hnd. unfold createDepBuckets_fuel.
  destruct (countDeps packages) as [depCount0 revDeps] eqn:Ec.
  apply (countDeps_spec packages Hnd) in Ec as [Hc Hr].
  destruct (rounds_spec packages Hnd revDeps Hr (S (List.length packages))
              (mkQueueing depCount0 true [] []) [])
    as (st & queued & -> & Inv & Hnz).
  - split; [done |]. split; [done |].
    split; [intros p Hp; by apply elem_of_nil in Hp |].
    split; [apply NoDup_nil_2 |].
    split.
    + intros q Hq. cbn [depCount fingerprints fmap list_fmap].
      rewrite decide_False by (intros H; by apply elem_of_nil in H).
      rewrite Hc by done. by rewrite unmet_nil.
    + intros before p after g E. by destruct before.
  - simpl. lia.
  - eauto.
Qed.

Lemma queue_Permutation (st : queueing) (queued : list Package.t)
    (packages : list Package.t) :
  queueInvariant packages st queued ->
  rubies st ++ buckets st ≡ₚ queued.
Proof.
  intros (-> & -> & _). apply filter_app_complement.
Qed.

(** With distinct fingerprints the queue holds packages of the input, each
    at most once, whether or not the dependencies have a cycle. *)
Lemma createDepBuckets_NoDup (packages : list Package.t) :
  NoDup (fingerprints packages) ->
  NoDup (fingerprints (createDepBuckets packages))
  /\ forall p, p ∈ createDepBuckets packages -> p ∈ packages.
Proof.
  intros Hnd.
  destruct (createDepBuckets_fuel_spec packages Hnd)
    as (st & queued & E & Inv & _).
  unfold createDepBuckets. rewrite E. cbn [default].
  pose proof (queue_Permutation _ _ _ Inv) as Hperm.
  destruct Inv as (_ & _ & Hsub & Hq & _). split.
  - unfold fingerprints. by rewrite Hperm.
  - intros p Hp. apply Hsub. by rewrite <- Hperm.
Qed.

(** Where a package stands in the queue, from where it stands among the
    packages in the order they were taken. *)
Lemma queue_before (queued b a before after : list Package.t) (p : Package.t) :
  NoDup queued ->
  queued = b ++ p :: a ->
  filter (fun p => isRuby p = true) queued
    ++ filter (fun p => isRuby p <> true) queued
  = before ++ p :: after ->
  forall d, d ∈ b -> isRuby p = false \/ isRuby d = true -> d ∈ before.
Proof.
  intros Hnd Eq E d Hd Hruby.
  assert (Hpbefore : p ∉ before).
  { assert (Hperm : before ++ p :: after ≡ₚ queued)
      by (rewrite <- E; apply filter_app_complement).
    rewrite <- Hperm in Hnd.
    apply NoDup_app in Hnd as (_ & Hn & _). intros H. apply (Hn p H). by left. }
  subst queued.
  apply NoDup_app in Hnd as (_ & Hb & Ha). apply NoDup_cons in Ha as [Ha _].
  assert (Hpb : p ∉ b) by (intros H; apply (Hb p H); by left).
  rewrite !filter_app, !filter_cons in E.
  destruct (isRuby p) eqn:Rp.
  - rewrite decide_True, decide_False in E by auto.
    rewrite <- !app_assoc in E. cbn [app] in E.
    apply not_elem_of_app_cons_inv_l in E as (<- & _ & _); [| done |].
    + destruct Hruby as [? | Hdr]; [done |]. by apply list_elem_of_filter.
    + intros [_ H]%list_elem_of_filter. done.
  - rewrite decide_False, decide_True in E by auto.
    rewrite app_assoc in E.
    apply not_elem_of_app_cons_inv_l in E as (<- & _ & _); [| done |].
    + destruct (isRuby d) eqn:Rd.
      * apply elem_of_app. left. apply elem_of_app. left.
        by apply list_elem_of_filter.
      * apply elem_of_app. right. apply list_elem_of_filter.
        split; [by rewrite Rd | done].
    + intros [[[_ H]%list_elem_of_filter | [_ H]%list_elem_of_filter]%elem_of_app
             | [_ H]%list_elem_of_filter]%elem_of_app; done.
Qed.

(** Dependencies that go down in a rank have no cycle. *)
Lemma acyclic_of_rank (packages : list Package.t) (rank : string -> nat) :
  forallb (fun p =>
             forallb (fun g => (rank g <? rank (Package.Fingerprint p))%nat)
                     (inputDeps packages p))
          packages = true ->
  acyclic packages.
Proof.
  intros Hrank.
  assert (Hstep : forall f g, dependsOn packages f g -> (rank g < rank f)%nat).
  { intros f g (p & Hp & <- & Hg).
    rewrite forallb_forall in Hrank.
    specialize (Hrank p (proj1 (list_elem_of_In _ _) Hp)).
    rewrite forallb_forall in Hrank.
    apply Nat.ltb_lt, Hrank. by apply list_elem_of_In. }
  assert (Htc : forall f g, tc (dependsOn packages) f g -> (rank g < rank f)%nat).
  { intros f g H. induction H as [f g H | f g h H _ IH].
    - by apply Hstep.
    - apply Hstep in H. lia. }
  intros f Hf. apply Htc in Hf. lia.
Qed.

(** C5. For an input of packages with distinct fingerprints whose
    dependencies have no cycle, [createDepBuckets] returns a queue that holds
    every package exactly once. The packages are taken in an order in which
    each one comes after all of its dependencies that are in the input; the
    queue is the ruby-2. packages in that order, moved to the front,
    followed by the others in that order. So every package that is not a
    ruby-2. one, and every one whose dependency is itself a ruby-2. package,
    stands in the queue behind that dependency. For A, B on A, ruby-2.6 and C
    on B the queue is ruby-2.6, A, B, C. *)
Theorem createDepBuckets_queue :
  (forall packages : list Package.t,
      NoDup (fingerprints packages) -> acyclic packages ->
      exists queued,
        createDepBuckets_fuel (S (List.length packages)) packages
        = Some (createDepBuckets packages)
        /\ queued ≡ₚ packages
        /\ afterItsDeps packages queued
        /\ createDepBuckets packages
           = filter (fun p => isRuby p = true) queued
               ++ filter (fun p => isRuby p <> true) queued
        /\ createDepBuckets packages ≡ₚ packages
        /\ (forall before p after g,
              createDepBuckets packages = before ++ p :: after ->
              g ∈ inputDeps packages p ->
              isRuby p = false
              \/ (exists d, d ∈ packages /\ Package.Fingerprint d = g
                             /\ isRuby d = true) ->
              g ∈ fingerprints before))
  /\ createDepBuckets [pkgA; pkgB; pkgRuby; pkgC]
     = [pkgRuby; pkgA; pkgB; pkgC].
Proof.
  split; [|by vm_compute].
  intros packages Hnd Hacyc.
  destruct (createDepBuckets_fuel_spec packages Hnd)
    as (st & queued & E & Inv & Hnz).
  pose proof (all_queued packages st queued Inv Hnz Hacyc) as Hall.
  pose proof (queue_Permutation _ _ _ Inv) as Hperm.
  pose proof Inv as (Hr & Hb & Hsub & Hq & _ & Htopo).
  assert (Hqp : queued ≡ₚ packages).
  { apply NoDup_Permutation.
    - by apply NoDup_fmap_1 in Hq.
    - by apply NoDup_fmap_1 in Hnd.
    - intros x. split; [apply Hsub |]. intros Hx.
      apply (queued_member packages Hnd st queued x Inv Hx). by apply Hall. }
  assert (Eq : createDepBuckets packages = rubies st ++ buckets st).
  { unfold createDepBuckets. by rewrite E. }
  exists queued. split; [by rewrite Eq |]. split; [done |]. split; [done |].
  split; [by rewrite Eq, Hr, Hb |]. split; [by rewrite Eq, Hperm |].
  intros before p after g Esplit Hg Hruby.
  assert (Hp : p ∈ queued).
  { rewrite <- Hperm, <- Eq, Esplit. apply elem_of_app. right. by left. }
  apply list_elem_of_split in Hp as (b & a & Hsplit).
  pose proof (Htopo b p a g Hsplit Hg) as Hgb.
  apply list_elem_of_fmap in Hgb as (d' & -> & Hd').
  apply elem_of_fingerprints.
  eapply (queue_before queued b a before after p); eauto.
  - by apply NoDup_fmap_1 in Hq.
  - by rewrite <- Hr, <- Hb, <- Eq.
  - destruct Hruby as [? | (d & Hd & Ed & Rd)]; [by left | right].
    assert (d' = d) as ->; [|done].
    apply (fingerprint_inj packages Hnd); [|done | done].
    apply Hsub. rewrite Hsplit. apply elem_of_app. by left.
Qed.

(** The theorem at the packages of scenario 1. *)
Lemma createDepBuckets_queue_witness :
  createDepBuckets [pkgA; pkgB; pkgRuby; pkgC]
  ≡ₚ [pkgA; pkgB; pkgRuby; pkgC].
Proof.
  destruct (proj1 createDepBuckets_queue [pkgA; pkgB; pkgRuby; pkgC])
    as (queued & _ & _ & _ & _ & Hperm & _).
  - apply (bool_decide_unpack _). vm_compute. exact I.
  - apply (acyclic_of_rank _ scenarioRank). vm_compute. reflexivity.
  - exact Hperm.
Defined.

(** The ruby-2. packages go to the front whatever they depend on: one that
    depends on A is queued before A. The workers wait for the signal of a
    dependency, not for its place in the queue. *)
Example createDepBuckets_ruby_first :
  createDepBuckets [pkgA; pkgRubyOnA] = [pkgRubyOnA; pkgA].
Proof. by vm_compute. Qed.

End buckets.

(** *** createDepBuckets returns, whatever the input *)

Section termination.
Import model compilator.

Variable revDeps : gmap string (list Package.t).

Lemma live_mono (l : list Package.t) (depCount depCount' : gmap string Z) :
  (forall g, count depCount' g <= count depCount g) ->
  (live l depCount' <= live l depCount)%nat.
Proof.
  intros Hle. unfold live. induction l as [|p l IH]; [done |].
  rewrite !filter_cons. specialize (Hle (Package.Fingerprint p)).
  repeat case_decide; simpl; lia.
Qed.

Lemma live_strict (l : list Package.t) (depCount depCount' : gmap string Z)
    (p : Package.t) :
  (forall g, count depCount' g <= count depCount g) ->
  p ∈ l ->
  0 <= count depCount (Package.Fingerprint p) ->
  count depCount' (Package.Fingerprint p) < 0 ->
  (live l depCount' < live l depCount)%nat.
Proof.
  intros Hle Hp H0 H1. induction l as [|q l IH];
    [by apply elem_of_nil in Hp |].
  pose proof (live_mono l depCount depCount' Hle) as Hm.
  unfold live in *. rewrite !filter_cons.
  apply elem_of_cons in Hp as [<- | Hp].
  - rewrite decide_False by lia. rewrite decide_True by lia. simpl. lia.
  - specialize (IH Hp). specialize (Hle (Package.Fingerprint q)).
    repeat case_decide; simpl; lia.
Qed.

Lemma visit_le (st : queueing) (pkg : Package.t) (g : string) :
  count (depCount (visit revDeps st pkg)) g <= count (depCount st) g.
Proof.
  unfold visit.
  destruct (negb (count (depCount st) (Package.Fingerprint pkg) =? 0));
    [lia |].
  assert (H : count (notifyUsers
                       (default [] (revDeps !! Package.Fingerprint pkg))
                       (<[Package.Fingerprint pkg :=
                            count (depCount st) (Package.Fingerprint pkg) - 1]>
                          (depCount st))) g
              <= count (depCount st) g).
  { rewrite notifyUsers_count.
    destruct (decide (Package.Fingerprint pkg = g)) as [<- | Hne].
    - rewrite count_insert_eq. lia.
    - rewrite count_insert_ne by done. lia. }
  by destruct (isRuby pkg).
Qed.

Lemma visit_taken (st : queueing) (pkg : Package.t) :
  keepRunning (visit revDeps st pkg) = keepRunning st
  \/ (0 <= count (depCount st) (Package.Fingerprint pkg)
      /\ count (depCount (visit revDeps st pkg)) (Package.Fingerprint pkg) < 0).
Proof.
  unfold visit.
  destruct (count (depCount st) (Package.Fingerprint pkg) =? 0) eqn:E;
    cbn [negb]; [right | by left].
  apply Z.eqb_eq in E. split; [lia |].
  assert (H : count (notifyUsers
                       (default [] (revDeps !! Package.Fingerprint pkg))
                       (<[Package.Fingerprint pkg :=
                            count (depCount st) (Package.Fingerprint pkg) - 1]>
                          (depCount st))) (Package.Fingerprint pkg) < 0).
  { rewrite notifyUsers_count, count_insert_eq. lia. }
  by destruct (isRuby pkg).
Qed.

Lemma visits_le (l : list Package.t) (st : queueing) (g : string) :
  count (depCount (fold_left (visit revDeps) l st)) g <= count (depCount st) g.
Proof.
  revert st. induction l as [|p l IH]; intros st; cbn [fold_left]; [lia |].
  pose proof (IH (visit revDeps st p)). pose proof (visit_le st p g). lia.
Qed.

Lemma visits_taken (l : list Package.t) (st : queueing) :
  keepRunning st = false ->
  keepRunning (fold_left (visit revDeps) l st) = true ->
  exists p, p ∈ l
            /\ 0 <= count (depCount st) (Package.Fingerprint p)
            /\ count (depCount (fold_left (visit revDeps) l st))
                     (Package.Fingerprint p) < 0.
Proof.
  revert st. induction l as [|p l IH]; intros st Hoff Hon; cbn [fold_left] in *;
    [congruence |].
  destruct (visit_taken st p) as [Hsame | [H0 H1]].
  - destruct (IH (visit revDeps st p)) as (q & Hq & Hq0 & Hq1);
      [congruence | done |].
    exists q. split; [by right |]. split; [|done].
    pose proof (visit_le st p (Package.Fingerprint q)). lia.
  - exists p. split; [by left |]. split; [done |].
    pose proof (visits_le l (visit revDeps st p) (Package.Fingerprint p)). lia.
Qed.

Lemma rounds_total (packages : list Package.t) (fuel : nat) (st : queueing) :
  (live packages (depCount st) < fuel)%nat ->
  is_Some (rounds fuel revDeps packages st).
Proof.
  revert st. induction fuel as [|fuel IH]; intros st Hfuel; [lia |].
  cbn [rounds].
  destruct (keepRunning (round revDeps packages st)) eqn:K; [|eauto].
  apply IH. unfold round in *.
  set (st0 := mkQueueing (depCount st) false (rubies st) (buckets st)) in *.
  destruct (visits_taken packages st0 eq_refl K) as (p & Hp & H0 & H1).
  pose proof (live_strict packages (depCount st0)
                (depCount (fold_left (visit revDeps) packages st0)) p
                (visits_le packages st0) Hp H0 H1) as Hlt.
  simpl in Hlt. lia.
Qed.

End termination.

(** One round more than there are packages is enough fuel for every input:
    [createDepBuckets] is a total function, and the queue it returns is the
    one the loops end with. *)
Lemma createDepBuckets_fuel_total (packages : list model.Package.t) :
  compilator.createDepBuckets_fuel (S (List.length packages)) packages
  = Some (compilator.createDepBuckets packages).
Proof.
  unfold compilator.createDepBuckets, compilator.createDepBuckets_fuel.
  destruct (compilator.countDeps packages) as [depCount0 revDeps].
  destruct (rounds_total revDeps packages (S (List.length packages))
              (compilator.mkQueueing depCount0 true [] [])) as [st ->]; [|done].
  unfold live. pose proof (length_filter
    (fun p => 0 <= compilator.count depCount0 (model.Package.Fingerprint p))
    packages). simpl. lia.
Qed.

(** ** gatherPackages *)

Section gathering.
Import model compilator.

Lemma packageSize_unfold (pkg : Package.t) :
  packageSize pkg = S (packagesSize (Package.Dependencies pkg)).
Proof.
  destruct pkg as [n v f s r deps]. cbn [packageSize Package.Dependencies].
  f_equal. unfold packagesSize.
  induction deps as [|d deps IH]; [done |]. cbn [List.map list_sum fold_right].
  by rewrite IH.
Qed.

Lemma packagesSize_cons (pkg : Package.t) (l : list Package.t) :
  packagesSize (pkg :: l) = (packageSize pkg + packagesSize l)%nat.
Proof. reflexivity. Qed.

Lemma packagesSize_app (l1 l2 : list Package.t) :
  packagesSize (l1 ++ l2) = (packagesSize l1 + packagesSize l2)%nat.
Proof.
  unfold packagesSize. by rewrite List.map_app, list_sum_app.
Qed.

(** The walk over the pending packages ends before the fuel does. *)
Lemma pendingLoop_total (fuel : nat) (pending : list Package.t)
    (listed : gmap string bool) (result : list Package.t) :
  (packagesSize pending <= fuel)%nat ->
  is_Some (pendingLoop fuel pending listed result).
Proof.
  revert pending listed result.
  induction fuel as [|fuel IH]; intros [|pkg rest] listed result Hfuel;
    cbn [pendingLoop]; eauto.
  - rewrite packagesSize_cons, packageSize_unfold in Hfuel. lia.
  - rewrite packagesSize_cons, packageSize_unfold in Hfuel.
    destruct (default false (listed !! Package.Name pkg)); apply IH.
    + lia.
    + rewrite packagesSize_app. lia.
Qed.

Lemma gatherPackagesFromInstanceGroups_total (release : Release.t)
    (instanceGroups : list InstanceGroup.t) :
  pendingLoop (packagesSize (initialPending release instanceGroups))
    (initialPending release instanceGroups) ∅ []
  = Some (gatherPackagesFromInstanceGroups release instanceGroups).
Proof.
  unfold gatherPackagesFromInstanceGroups.
  by destruct (pendingLoop_total
                 (packagesSize (initialPending release instanceGroups))
                 (initialPending release instanceGroups) ∅ [] (le_n _))
    as [l ->].
Qed.

Lemma fold_left_concat {A B : Type} (f : A -> B -> A) (ls : list (list B))
    (a : A) :
  fold_left f (List.concat ls) a = fold_left (fun a l => fold_left f l a) ls a.
Proof.
  revert a. induction ls as [|l ls IH]; intros a; [done |].
  cbn [List.concat fold_left]. by rewrite fold_left_app, IH.
Qed.

Lemma gatherPackages_encountered (signals : gmap string chan)
    (releases : list Release.t) (instanceGroups : option (list InstanceGroup.t)) :
  gatherPackages signals releases instanceGroups
  = fold_left gatherStep (encountered instanceGroups releases) ([], signals).
Proof.
  unfold gatherPackages, encountered, gatherRelease.
  rewrite fold_left_concat. generalize ([] : list Package.t, signals).
  induction releases as [|r rs IH]; intros st; [done |].
  cbn [List.map fold_left]. apply IH.
Qed.

Lemma gatherStep_fold (l acc : list Package.t) (signals : gmap string chan) :
  exists signals',
    fold_left gatherStep l (acc, signals) = (acc ++ firstNew signals l, signals')
    /\ forall f, signals' !! f
                 = if decide (f ∈ fingerprints (firstNew signals l))
                   then Some Open else signals !! f.
Proof.
  revert acc signals. induction l as [|p l IH]; intros acc signals.
  - exists signals. rewrite app_nil_r. split; [done |]. intros f.
    rewrite decide_False; [done |]. intros H. by apply elem_of_nil in H.
  - cbn [fold_left gatherStep firstNew].
    destruct (signals !! Package.Fingerprint p) as [c|] eqn:Es.
    + apply IH.
    + destruct (IH (acc ++ [p]) (<[Package.Fingerprint p := Open]> signals))
        as (signals' & -> & Hs).
      exists signals'. split; [by rewrite <- app_assoc |].
      intros f. rewrite Hs, fingerprints_cons.
      destruct (decide (f ∈ fingerprints _)) as [Hin | Hnin].
      * rewrite decide_True; [done | by right].
      * destruct (decide (f = Package.Fingerprint p)) as [-> | Hne].
        -- rewrite lookup_insert_eq. rewrite decide_True; [done | by left].
        -- rewrite lookup_insert_ne by done. rewrite decide_False; [done |].
           intros [? | ?]%elem_of_cons; done.
Qed.

Lemma firstNew_fresh (signals : gmap string chan) (l : list Package.t)
    (p : Package.t) :
  p ∈ firstNew signals l -> signals !! Package.Fingerprint p = None.
Proof.
  revert signals. induction l as [|q l IH]; intros signals Hp;
    [by apply elem_of_nil in Hp |].
  cbn [firstNew] in Hp.
  destruct (signals !! Package.Fingerprint q) as [c|] eqn:Es; [by apply IH |].
  apply elem_of_cons in Hp as [-> | Hp]; [done |].
  apply IH in Hp.
  destruct (decide (Package.Fingerprint q = Package.Fingerprint p)) as [E | Hne].
  - rewrite E, lookup_insert_eq in Hp. done.
  - by rewrite lookup_insert_ne in Hp.
Qed.

Lemma firstNew_NoDup (signals : gmap string chan) (l : list Package.t) :
  NoDup (fingerprints (firstNew signals l)).
Proof.
  revert signals. induction l as [|q l IH]; intros signals; [apply NoDup_nil_2 |].
  cbn [firstNew].
  destruct (signals !! Package.Fingerprint q) as [c|] eqn:Es; [apply IH |].
  rewrite fingerprints_cons. apply NoDup_cons. split; [|apply IH].
  intros (p & E & Hp)%list_elem_of_fmap.
  apply firstNew_fresh in Hp. rewrite <- E, lookup_insert_eq in Hp. done.
Qed.

Lemma firstNew_sublist (signals : gmap string chan) (l : list Package.t) :
  firstNew signals l `sublist_of` l.
Proof.
  revert signals. induction l as [|q l IH]; intros signals; [done |].
  cbn [firstNew].
  destruct (signals !! Package.Fingerprint q);
    [apply sublist_cons | apply sublist_skip]; apply IH.
Qed.

(** A package that is kept is the first of its fingerprint. *)
Lemma firstNew_first (signals : gmap string chan) (l : list Package.t)
    (p : Package.t) :
  p ∈ firstNew signals l ->
  exists before after,
    l = before ++ p :: after
    /\ Package.Fingerprint p ∉ fingerprints before.
Proof.
  revert signals. induction l as [|q l IH]; intros signals Hp;
    [by apply elem_of_nil in Hp |].
  cbn [firstNew] in Hp.
  destruct (signals !! Package.Fingerprint q) as [c|] eqn:Es.
  - pose proof (firstNew_fresh _ _ _ Hp) as Hf.
    destruct (IH _ Hp) as (b & a & -> & Hb). exists (q :: b), a.
    split; [done |]. rewrite fingerprints_cons.
    intros [E | ?]%elem_of_cons; [|done]. congruence.
  - apply elem_of_cons in Hp as [-> | Hp].
    + exists [], l. split; [done |]. intros H. by apply elem_of_nil in H.
    + pose proof (firstNew_fresh _ _ _ Hp) as Hf.
      destruct (IH _ Hp) as (b & a & -> & Hb). exists (q :: b), a.
      split; [done |]. rewrite fingerprints_cons.
      intros [E | ?]%elem_of_cons; [|done].
      rewrite E, lookup_insert_eq in Hf. done.
Qed.

(** The first package of a fingerprint without a channel is kept. *)
Lemma firstNew_kept (signals : gmap string chan) (before after : list Package.t)
    (p : Package.t) :
  signals !! Package.Fingerprint p = None ->
  Package.Fingerprint p ∉ fingerprints before ->
  p ∈ firstNew signals (before ++ p :: after).
Proof.
  revert signals. induction before as [|q before IH]; intros signals Hs Hb.
  - cbn [app firstNew]. rewrite Hs. by left.
  - rewrite fingerprints_cons in Hb. apply not_elem_of_cons in Hb as [Hne Hb].
    cbn [app firstNew].
    destruct (signals !! Package.Fingerprint q); [by apply IH |].
    right. apply IH; [|done]. by rewrite lookup_insert_ne.
Qed.

Section Compile.

Variable isPackageCompiledHarness : Package.t -> result bool.
Variable sortPackages : list Package.t -> list Package.t.
Hypothesis sortPackages_Permutation : forall l, sortPackages l ≡ₚ l.

Local Abbreviation Compile :=
  (compilator.Compile isPackageCompiledHarness sortPackages).
Local Abbreviation removeCompiledPackages :=
  (compilator.removeCompiledPackages isPackageCompiledHarness).

Lemma removeCompiledPackages_sublist (l acc packages : list Package.t)
    (signals signals' : gmap string chan) :
  removeCompiledPackages l signals acc = Done (Ok packages, signals') ->
  exists kept, packages = acc ++ kept /\ kept `sublist_of` l.
Proof.
  revert acc signals. induction l as [|p l IH]; intros acc signals H;
    cbn [compilator.removeCompiledPackages] in H.
  - injection H as <- <-. exists []. by rewrite app_nil_r.
  - destruct (isPackageCompiledHarness p) as [[|]|e]; [| |done].
    + destruct (closeSignal (Package.Fingerprint p) signals) as [s|]; [|done].
      destruct (IH _ _ H) as (kept & -> & Hk). exists kept.
      split; [done | by apply sublist_cons].
    + destruct (IH _ _ H) as (kept & -> & Hk). exists (p :: kept).
      split; [by rewrite <- app_assoc | by apply sublist_skip].
Qed.

(** The compile jobs of a call are packages that were gathered, with
    distinct fingerprints. *)
Lemma Compile_jobs (signals0 : gmap string chan) (releases : list Release.t)
    (instanceGroups : option (list InstanceGroup.t))
    (results : list compileResult.t) (c : compiled) :
  Compile signals0 releases instanceGroups results = Done c ->
  NoDup (fingerprints (jobs c))
  /\ forall p, p ∈ jobs c ->
       p ∈ (gatherPackages signals0 releases instanceGroups).1.
Proof.
  unfold compilator.Compile.
  rewrite gatherPackages_encountered.
  destruct (gatherStep_fold (encountered instanceGroups releases) [] signals0)
    as (signals & -> & _).
  cbn [app fst].
  destruct (removeCompiledPackages _ signals []) as [[[packages|e] signals']|]
    eqn:Er; [| |done].
  - apply removeCompiledPackages_sublist in Er as (kept & -> & Hk).
    cbn [app].
    assert (Hnd : NoDup (fingerprints (sortPackages kept))).
    { unfold fingerprints. rewrite sortPackages_Permutation.
      eapply sublist_NoDup; [apply firstNew_NoDup |]. by apply fmap_sublist. }
    destruct (createDepBuckets_NoDup _ Hnd) as [Hq Hsub].
    destruct kept as [|k kept].
    + intros [= <-]. cbn [jobs]. split; [apply NoDup_nil_2 |].
      intros p Hp. by apply elem_of_nil in Hp.
    + destruct (drain results _) as [st|]; [|done].
      intros [= <-]. cbn [jobs]. split; [done |].
      intros p Hp. apply Hsub in Hp. rewrite sortPackages_Permutation in Hp.
      by eapply elem_of_sublist.
  - intros [= <-]. cbn [jobs]. split; [apply NoDup_nil_2 |].
    intros p Hp. by apply elem_of_nil in Hp.
Qed.

End Compile.

(** C4. Of the packages of all the releases given to [Compile],
    [gatherPackages] keeps the first one it meets of every fingerprint that
    has no signal channel yet, and creates the channel: the packages kept
    have distinct fingerprints, stand in the order they were met, each is
    the first of its fingerprint, every first one is kept, and the channels
    are the ones there were and an open one for every package kept. The
    compile jobs [Compile] adds to the worker are among the packages kept,
    at most one for a fingerprint. *)
Theorem gatherPackages_one_per_fingerprint
    (signals0 : gmap string chan) (releases : list Release.t)
    (instanceGroups : option (list InstanceGroup.t)) :
  let met := encountered instanceGroups releases in
  let gathered := (gatherPackages signals0 releases instanceGroups).1 in
  let signals := (gatherPackages signals0 releases instanceGroups).2 in
  NoDup (fingerprints gathered)
  /\ gathered `sublist_of` met
  /\ (forall p, p ∈ gathered ->
        signals0 !! Package.Fingerprint p = None
        /\ exists before after,
             met = before ++ p :: after
             /\ Package.Fingerprint p ∉ fingerprints before)
  /\ (forall before p after,
        met = before ++ p :: after ->
        signals0 !! Package.Fingerprint p = None ->
        Package.Fingerprint p ∉ fingerprints before ->
        p ∈ gathered)
  /\ (forall f, signals !! f
                = if decide (f ∈ fingerprints gathered) then Some Open
                  else signals0 !! f)
  /\ (forall isPackageCompiledHarness sortPackages results c,
        (forall l, sortPackages l ≡ₚ l) ->
        compilator.Compile isPackageCompiledHarness sortPackages signals0
          releases instanceGroups results = Done c ->
        NoDup (fingerprints (jobs c))
        /\ forall p, p ∈ jobs c -> p ∈ gathered).
Proof.
  intros met gathered signals. subst gathered signals.
  rewrite gatherPackages_encountered. fold met.
  destruct (gatherStep_fold met [] signals0) as (signals & E & Hs).
  rewrite E. cbn [app fst snd].
  split; [apply firstNew_NoDup |]. split; [apply firstNew_sublist |].
  split; [|split; [|split; [done |]]].
  - intros p Hp. split; [by eapply firstNew_fresh | by eapply firstNew_first].
  - intros before p after -> Hf Hb. by apply firstNew_kept.
  - intros isC sortP results c Hsort Hc.
    pose proof (Compile_jobs isC sortP Hsort _ _ _ _ _ Hc) as Hj.
    rewrite gatherPackages_encountered in Hj. fold met in Hj.
    by rewrite E in Hj.
Qed.

(** The theorem at two releases that both hold the packages of scenario 1:
    four compile jobs, not eight. *)
Lemma gatherPackages_one_per_fingerprint_witness :
  exists c,
    compilator.Compile notCompiled sorted ∅ [release1; release1] None []
    = Done c
    /\ NoDup (fingerprints (jobs c))
    /\ List.length (jobs c) = 4%nat.
Proof.
  destruct (compilator.Compile notCompiled sorted ∅ [release1; release1] None [])
    as [c|msg] eqn:E; [|vm_compute in E; discriminate].
  exists c. split; [reflexivity |].
  destruct (proj2 (proj2 (proj2 (proj2 (proj2
              (gatherPackages_one_per_fingerprint ∅ [release1; release1] None)))))
              notCompiled sorted [] c (fun l => Permutation_refl l) E)
    as [Hnd _].
  split; [exact Hnd |].
  vm_compute in E. injection E as <-. reflexivity.
Defined.

End gathering.

(** ** Link resolution: the indices of the first pass *)

Lemma fold_left_reaches {S X : Type} (f : S -> X -> S) (Q : S -> Prop)
    (l : list X) (x : X) (s : S) :
  In x l -> (forall s, Q (f s x)) -> (forall s y, Q s -> Q (f s y)) ->
  Q (fold_left f l s).
Proof.
  intros Hx Hhere Hkeep. revert s.
  induction l as [|y l IH]; intros s; [done |].
  destruct Hx as [-> | Hx]; simpl; [| by apply IH].
  generalize (Hhere s). generalize (f s x). clear -Hkeep.
  induction l as [|y l IH]; intros s' Hs'; simpl; [done |]. apply IH, Hkeep, Hs'.
Qed.

Lemma fold_left_keeps {S X : Type} (f : S -> X -> S) (Q : S -> Prop)
    (l : list X) (s : S) :
  Q s -> (forall s y, Q s -> Q (f s y)) -> Q (fold_left f l s).
Proof.
  intros Hs Hkeep. revert s Hs.
  induction l as [|y l IH]; intros s Hs; simpl; [done |]. apply IH, Hkeep, Hs.
Qed.

Section indexing.
Import model resolver.

Variable ConvertNameToKey : string -> string.

Local Abbreviation providerInfo := (resolver.providerInfo ConvertNameToKey).

Lemma amap_get_In {V : Type} (m : amap.t V) k v :
  amap.get k m = Some v -> In v (List.map snd m).
Proof.
  induction m as [|[k' v'] m IH]; simpl; [done |].
  destruct (String.eqb k k'); [intros [= ->]; by left | right; auto].
Qed.

(** The loop over the available providers appends, under each type, the
    providers of that type. *)
Lemma availableStep_fold ig jr T l names byType :
  default [] ((fold_left (availableStep ConvertNameToKey ig jr) l
                 (names, byType)).2 !! T)
  = default [] (byType !! T)
    ++ List.map (providerInfo ig jr) (List.filter (ofType T) (List.map snd l)).
Proof.
  revert names byType.
  induction l as [|[n p] l IH]; intros names byType; simpl.
  - by rewrite app_nil_r.
  - rewrite IH.
    change (ofType T p)
      with (String.eqb (JobLinkInfo.Type_ (JobProvidesInfo.Link p)) T
            && negb (String.eqb T EmptyString)).
    destruct (String.eqb (JobLinkInfo.Type_ (JobProvidesInfo.Link p))
                EmptyString) eqn:Eempty.
    + apply String.eqb_eq in Eempty.
      destruct (String.eqb (JobLinkInfo.Type_ (JobProvidesInfo.Link p)) T)
        eqn:ET; simpl; [| done].
      apply String.eqb_eq in ET. rewrite <- ET, Eempty. by simpl.
    + apply String.eqb_neq in Eempty.
      destruct (String.eqb (JobLinkInfo.Type_ (JobProvidesInfo.Link p)) T)
        eqn:ET; simpl.
      * apply String.eqb_eq in ET. subst T.
        apply String.eqb_neq in Eempty. rewrite Eempty. simpl.
        rewrite lookup_insert_eq. simpl. by rewrite <- app_assoc.
      * apply String.eqb_neq in ET. by rewrite lookup_insert_ne.
Qed.

Lemma indexJob_byType ig ix jr :
  providersByType (indexJob ConvertNameToKey ig ix jr)
  = (fold_left (availableStep ConvertNameToKey ig jr)
       (Job.AvailableProviders (JobReference.Job jr))
       ([], providersByType ix)).2.
Proof.
  unfold indexJob.
  destruct (fold_left (availableStep ConvertNameToKey ig jr) _ _)
    as [names byType].
  by destruct (fold_left (exportedStep ConvertNameToKey ig jr names) _ _).
Qed.

Lemma indexJob_byName ig ix jr :
  exists names,
    providersByName (indexJob ConvertNameToKey ig ix jr)
    = (fold_left (exportedStep ConvertNameToKey ig jr names)
         (JobReference.ExportedProvides jr)
         (providersByName ix, errors ix)).1.
Proof.
  unfold indexJob.
  destruct (fold_left (availableStep ConvertNameToKey ig jr) _ _)
    as [names byType].
  exists names.
  by destruct (fold_left (exportedStep ConvertNameToKey ig jr names) _ _).
Qed.

Lemma indexGroup_byType T ig jobs ix :
  default [] (providersByType
                (fold_left (indexJob ConvertNameToKey ig) jobs ix) !! T)
  = default [] (providersByType ix !! T)
    ++ flat_map
         (fun jr =>
            List.map (providerInfo ig jr)
              (List.filter (ofType T)
                 (List.map snd (Job.AvailableProviders (JobReference.Job jr)))))
         jobs.
Proof.
  revert ix. induction jobs as [|jr jobs IH]; intros ix; simpl.
  - by rewrite app_nil_r.
  - rewrite IH, indexJob_byType, availableStep_fold. by rewrite <- app_assoc.
Qed.

Lemma buildIndices_byType_from T m ix :
  default [] (providersByType
                (fold_left (indexGroup ConvertNameToKey) m ix) !! T)
  = default [] (providersByType ix !! T)
    ++ providersOfType ConvertNameToKey m T.
Proof.
  revert ix. induction m as [|ig m IH]; intros ix; simpl.
  - by rewrite app_nil_r.
  - rewrite IH.
    change (indexGroup ConvertNameToKey ix ig)
      with (fold_left (indexJob ConvertNameToKey ig)
              (InstanceGroup.JobReferences ig) ix).
    rewrite indexGroup_byType. by rewrite <- app_assoc.
Qed.

(** The index by type lists, for every type, the providers of that type of
    the whole deployment. *)
Lemma buildIndices_byType m T :
  default [] (providersByType (buildIndices ConvertNameToKey m) !! T)
  = providersOfType ConvertNameToKey m T.
Proof.
  unfold buildIndices. rewrite buildIndices_byType_from. simpl.
  by rewrite lookup_empty.
Qed.

Lemma providersOfType_offers m T p :
  In p (providersOfType ConvertNameToKey m T) -> offers ConvertNameToKey m p.
Proof.
  unfold providersOfType. rewrite in_flat_map.
  intros (ig & Hig & Hp). apply in_flat_map in Hp as (jr & Hjr & Hp).
  apply in_map_iff in Hp as (ap & <- & Hap).
  apply filter_In in Hap as [Hap _].
  by exists ig, jr, ap.
Qed.

Local Abbreviation namesOffered := (resolver_namesOffered ConvertNameToKey).

Lemma exportedStep_offered m ig jr names l byName errs :
  In ig m -> In jr (InstanceGroup.JobReferences ig) ->
  namesOffered m byName ->
  namesOffered m
    (fold_left (exportedStep ConvertNameToKey ig jr names) l (byName, errs)).1.
Proof.
  intros Hig Hjr. revert byName errs.
  induction l as [|[n provider] l IH]; intros byName errs Hall; simpl; [done |].
  destruct (amap.get n (Job.AvailableProviders (JobReference.Job jr)))
    as [info|] eqn:E; apply IH; [| done].
  intros n' p'. rewrite lookup_insert. case_decide; [| apply Hall].
  intros [= <-]. exists ig, jr, info.
  repeat split; try done. by eapply amap_get_In.
Qed.

Lemma indexGroup_offered m ig jobs ix :
  In ig m -> (forall jr, In jr jobs -> In jr (InstanceGroup.JobReferences ig)) ->
  namesOffered m (providersByName ix) ->
  namesOffered m
    (providersByName (fold_left (indexJob ConvertNameToKey ig) jobs ix)).
Proof.
  intros Hig. revert ix.
  induction jobs as [|jr jobs IH]; intros ix Hjobs Hall; simpl; [done |].
  apply IH; [intros; apply Hjobs; by right |].
  destruct (indexJob_byName ig ix jr) as [names ->].
  apply exportedStep_offered; auto. apply Hjobs. by left.
Qed.

Lemma buildIndices_offered_from m groups ix :
  (forall ig, In ig groups -> In ig m) ->
  namesOffered m (providersByName ix) ->
  namesOffered m
    (providersByName (fold_left (indexGroup ConvertNameToKey) groups ix)).
Proof.
  revert ix.
  induction groups as [|ig groups IH]; intros ix Hgroups Hall; simpl; [done |].
  apply IH; [intros; apply Hgroups; by right |].
  apply indexGroup_offered; auto. apply Hgroups. by left.
Qed.

Lemma buildIndices_byName m n p :
  providersByName (buildIndices ConvertNameToKey m) !! n = Some p ->
  offers ConvertNameToKey m p.
Proof.
  apply (buildIndices_offered_from m m); [done |].
  intros n' p'. simpl. by rewrite lookup_empty.
Qed.

(** The index by name holds a name exactly when a provider is published
    under it. *)
Lemma exportedStep_is_Some ig jr names st entry n :
  is_Some (st.1 !! n) ->
  is_Some ((exportedStep ConvertNameToKey ig jr names st entry).1 !! n).
Proof.
  destruct st as [byName errs], entry as [name provider]. simpl.
  destruct (amap.get name _); simpl; [| done].
  intros H. rewrite lookup_insert_is_Some.
  destruct (String.eq_dec
              (if String.eqb (JobProvidesInfo.Alias provider) EmptyString
               then name else JobProvidesInfo.Alias provider) n);
    [by left | by right].
Qed.

Lemma indexJob_is_Some ig ix jr n :
  is_Some (providersByName ix !! n) ->
  is_Some (providersByName (indexJob ConvertNameToKey ig ix jr) !! n).
Proof.
  intros H. destruct (indexJob_byName ig ix jr) as [names ->].
  apply (fold_left_keeps _ (fun st => is_Some (st.1 !! n))); [done |].
  intros. by apply exportedStep_is_Some.
Qed.

Lemma indexGroup_is_Some ix ig n :
  is_Some (providersByName ix !! n) ->
  is_Some (providersByName (indexGroup ConvertNameToKey ix ig) !! n).
Proof.
  intros H. unfold indexGroup.
  apply (fold_left_keeps _ (fun ix => is_Some (providersByName ix !! n)));
    [done |].
  intros. by apply indexJob_is_Some.
Qed.

Lemma exportedStep_published m ig jr names l byName errs n :
  In ig m -> In jr (InstanceGroup.JobReferences ig) ->
  (forall entry, In entry l -> In entry (JobReference.ExportedProvides jr)) ->
  (is_Some (byName !! n) -> published m n) ->
  is_Some ((fold_left (exportedStep ConvertNameToKey ig jr names) l
              (byName, errs)).1 !! n) ->
  published m n.
Proof.
  intros Hig Hjr. revert byName errs.
  induction l as [|[name provider] l IH]; intros byName errs Hl Hall; simpl;
    [done |].
  destruct (amap.get name (Job.AvailableProviders (JobReference.Job jr)))
    as [info|] eqn:E; apply IH; try (intros; apply Hl; by right); [| done].
  rewrite lookup_insert_is_Some. intros [Hn | [_ Hn]]; [| by apply Hall].
  exists ig, jr, (name, provider).
  repeat split; try done; [apply Hl; by left | simpl; by rewrite E].
Qed.

Lemma indexGroup_published m ig jobs ix n :
  In ig m -> (forall jr, In jr jobs -> In jr (InstanceGroup.JobReferences ig)) ->
  (is_Some (providersByName ix !! n) -> published m n) ->
  is_Some (providersByName (fold_left (indexJob ConvertNameToKey ig) jobs ix)
             !! n) ->
  published m n.
Proof.
  intros Hig. revert ix.
  induction jobs as [|jr jobs IH]; intros ix Hjobs Hall; simpl; [done |].
  apply IH; [intros; apply Hjobs; by right |].
  destruct (indexJob_byName ig ix jr) as [names ->].
  apply exportedStep_published; auto. apply Hjobs. by left.
Qed.

Lemma buildIndices_published_from m groups ix n :
  (forall ig, In ig groups -> In ig m) ->
  (is_Some (providersByName ix !! n) -> published m n) ->
  is_Some (providersByName (fold_left (indexGroup ConvertNameToKey) groups ix)
             !! n) ->
  published m n.
Proof.
  revert ix.
  induction groups as [|ig groups IH]; intros ix Hgroups Hall; simpl; [done |].
  apply IH; [intros; apply Hgroups; by right |].
  apply indexGroup_published; auto. apply Hgroups. by left.
Qed.

Lemma buildIndices_published m n :
  is_Some (providersByName (buildIndices ConvertNameToKey m) !! n)
  <-> published m n.
Proof.
  split.
  - apply (buildIndices_published_from m m); [done |].
    simpl. rewrite lookup_empty. by intros [? ?].
  - intros (ig & jr & [name provider] & Hig & Hjr & Hentry & Hav & ->).
    unfold buildIndices.
    apply (fold_left_reaches _ (fun ix => is_Some (providersByName ix !! _))
             _ ig); [done | |].
    + intros ix0. unfold indexGroup.
      apply (fold_left_reaches _ (fun ix => is_Some (providersByName ix !! _))
               _ jr); [done | |].
      * intros ix1. destruct (indexJob_byName ig ix1 jr) as [names ->].
        apply (fold_left_reaches _ (fun st => is_Some (st.1 !! _))
                 _ (name, provider)); [done | |].
        -- intros [byName errs]. simpl in *.
           destruct (amap.get name _); [| done]. simpl.
           unfold providerAlias. simpl. by rewrite lookup_insert_eq.
        -- intros. by apply exportedStep_is_Some.
      * intros. by apply indexJob_is_Some.
    + intros. by apply indexGroup_is_Some.
Qed.

(** The provider an expected consumer is matched to is one of the
    deployment, and for a consumer without a name the only one of its
    type. *)
Lemma matchProvider_offers m c p :
  matchProvider (buildIndices ConvertNameToKey m) c = Some p ->
  offers ConvertNameToKey m p.
Proof.
  unfold matchProvider.
  destruct (if String.eqb _ _ then None else _) as [q|] eqn:E.
  - intros [= <-].
    destruct (String.eqb _ _); [done |]. by eapply buildIndices_byName.
  - rewrite buildIndices_byType.
    destruct (providersOfType _ _ _) as [|q [|]] eqn:El; try done.
    intros [= <-]. eapply providersOfType_offers. rewrite El. by left.
Qed.

Lemma matchProvider_unnamed m c p :
  JobLinkInfo.Name (JobConsumesInfo.Link c) = EmptyString ->
  matchProvider (buildIndices ConvertNameToKey m) c = Some p ->
  providersOfType ConvertNameToKey m
    (JobLinkInfo.Type_ (JobConsumesInfo.Link c)) = [p].
Proof.
  unfold matchProvider. intros ->. simpl.
  rewrite buildIndices_byType.
  destruct (providersOfType _ _ _) as [|q [|]]; try done. by intros [= <-].
Qed.

End indexing.

(** ** Link resolution: consumers matched by type *)

Lemma JobLinkInfo_eta (link : model.JobLinkInfo.t) :
  model.JobLinkInfo.mk (model.JobLinkInfo.Name link)
    (model.JobLinkInfo.Type_ link) (model.JobLinkInfo.RoleName link)
    (model.JobLinkInfo.JobName link) (model.JobLinkInfo.ServiceName link)
  = link.
Proof. by destruct link. Qed.

(** What the second loop does with a consumer whose provider is found, and
    with one whose provider is not. *)
Lemma expectedStep_matched ix ig jr rc errs c p :
  resolver.matchProvider ix c = Some p ->
  resolver.expectedStep ix ig jr (rc, errs) c
  = (amap.set (resolver.bindingName c p)
       (boundTo p (default model.JobConsumesInfo.zero
                     (amap.get (resolver.bindingName c p) rc)))
       rc,
     errs).
Proof.
  intros E. unfold resolver.expectedStep. rewrite E.
  unfold boundTo. by rewrite JobLinkInfo_eta.
Qed.

Lemma expectedStep_unmatched ix ig jr rc errs c :
  resolver.matchProvider ix c = None ->
  resolver.expectedStep ix ig jr (rc, errs) c
  = (rc, if model.JobConsumesInfo.Optional c then errs
         else errs ++ [unresolved ig jr c]).
Proof.
  intros E. unfold resolver.expectedStep. rewrite E.
  by destruct (model.JobConsumesInfo.Optional c).
Qed.




(** Scenario 3 through the whole of ResolveLinks: the job of B consumes p1
    of A, the job of A is consumed by B, and nothing is diagnosed. *)
Example ResolveLinks_scenario3 :
  resolver.ResolveLinks sameName scenario3
  = (resolver.RoleManifest.mk
       [groupOf "A"
          [model.JobReference.setResolvedConsumedBy
             [("p1", [model.JobLinkInfo.mk "p1" "T" "B" "cj" "A-pj"])]
             providerJob];
        groupOf "B"
          [consumerJob [consumerOfT]
             [("p1",
               model.JobConsumesInfo.mk
                 (model.JobLinkInfo.mk "p1" "T" "A" "pj" "A-pj")
                 EmptyString false false)]]],
     []).
Proof. vm_compute. reflexivity. Qed.

(** With a second provider of type T the consumer stays unbound and is
    diagnosed. *)
Example ResolveLinks_two_providers :
  let r := resolver.ResolveLinks sameName twoProviders in
  consumesOf <$> resolver.RoleManifest.InstanceGroups r.1
  = [("A", [("pj", [])]); ("B", [("cj", [])]); ("C", [("pj", [])])]
  /\ r.2 = [unresolved (groupOf "B" []) (consumerJob [] []) consumerOfT].
Proof. vm_compute. split; reflexivity. Qed.

(** ** Link resolution: every consumer is settled *)

Section resolving.
Import model resolver.

Variable ConvertNameToKey : string -> string.
Variable deployment : list InstanceGroup.t.

Local Abbreviation ix := (buildIndices ConvertNameToKey deployment).
Local Abbreviation boundAt := (boundAt ConvertNameToKey deployment).
Local Abbreviation bound := (bound ConvertNameToKey deployment).
Local Abbreviation settled := (settled ConvertNameToKey deployment).
Local Abbreviation ignored := (ignored deployment).
Local Abbreviation nameOf :=
  (fun c : JobConsumesInfo.t => JobLinkInfo.Name (JobConsumesInfo.Link c)).

Lemma removeFirst_In {A : Type} (p : A -> bool) (l : list A) (x : A) :
  In x l -> In x (removeFirst p l) \/ p x = true.
Proof.
  induction l as [|y l IH]; simpl; [done |].
  destruct (p y) eqn:E.
  - intros [<- | H]; [by right | by left].
  - intros [<- | H]; [left; by left |].
    destruct (IH H); [left; by right | by right].
Qed.

(** *** The first loop: the consumers the role manifest marks *)

(** A declared consumer is still expected, or it is ignored with its
    provider found, or it is bound under its name. *)
Lemma explicitStep_keeps ig jr c st entry :
  In entry (JobReference.ResolvedConsumes jr) ->
  In c (expectedConsumers st) \/ ignored jr c \/ boundAt (nameOf c) (consumes st) ->
  let st' := explicitStep ix ig jr st entry in
  In c (expectedConsumers st') \/ ignored jr c
  \/ boundAt (nameOf c) (consumes st').
Proof.
  destruct entry as [consumerName consumerInfo]. intros Hentry Hc.
  unfold explicitStep.
  change (if String.eqb (JobConsumesInfo.Alias consumerInfo) EmptyString
          then consumerName else JobConsumesInfo.Alias consumerInfo)
    with (consumerAlias (consumerName, consumerInfo)).
  destruct (String.eqb (consumerAlias (consumerName, consumerInfo))
              EmptyString) eqn:Ealias; [done |].
  apply String.eqb_neq in Ealias.
  destruct (providersByName ix !! consumerAlias (consumerName, consumerInfo))
    as [provider|] eqn:Eprov; [| done].
  assert (published deployment (consumerAlias (consumerName, consumerInfo)))
    as Hpub
    by (apply (buildIndices_published ConvertNameToKey); by rewrite Eprov).
  apply buildIndices_byName in Eprov. simpl.
  assert (nameOf c = consumerName ->
          ignored jr c
          \/ boundAt (nameOf c)
               (if JobConsumesInfo.Ignore consumerInfo
                then amap.delete consumerName (consumes st)
                else amap.set consumerName
                       (JobConsumesInfo.mk (JobProvidesInfo.Link provider)
                          EmptyString false false)
                       (consumes st))) as Hsame.
  { intros Hname. destruct (JobConsumesInfo.Ignore consumerInfo) eqn:Eign.
    - left. exists consumerInfo. cbv zeta. by rewrite Hname.
    - right. eexists _, provider. rewrite Hname, amap_get_set_eq. by simpl. }
  destruct Hc as [Hc | [Hc | Hc]].
  - apply (removeFirst_In
             (fun c => String.eqb (JobLinkInfo.Name (JobConsumesInfo.Link c))
                                  consumerName)) in Hc as [Hc | Hc];
      [by left | right].
    apply String.eqb_eq in Hc. by apply Hsame.
  - right. by left.
  - right. destruct (String.eq_dec (nameOf c) consumerName) as [E | E];
      [by apply Hsame | right].
    destruct Hc as (info & p & Hget & Hp & Hlink). exists info, p.
    split; [| done].
    destruct (JobConsumesInfo.Ignore consumerInfo).
    + rewrite amap_get_delete_ne; [done | congruence].
    + rewrite amap_get_set_ne; [done | congruence].
Qed.

Lemma explicitStep_errs ig jr st entry e :
  In e (errs st) -> In e (errs (explicitStep ix ig jr st entry)).
Proof.
  destruct entry as [consumerName consumerInfo]. intros He.
  unfold explicitStep.
  destruct (String.eqb _ EmptyString); simpl; [apply in_or_app; by left |].
  destruct (providersByName ix !! _); simpl; [done |].
  apply in_or_app; by left.
Qed.

Lemma explicit_fold ig jr c entries st :
  (forall entry, In entry entries ->
                 In entry (JobReference.ResolvedConsumes jr)) ->
  In c (expectedConsumers st) \/ ignored jr c \/ boundAt (nameOf c) (consumes st) ->
  let st' := fold_left (explicitStep ix ig jr) entries st in
  In c (expectedConsumers st') \/ ignored jr c
  \/ boundAt (nameOf c) (consumes st').
Proof.
  revert st.
  induction entries as [|entry entries IH]; intros st Hentries Hc; simpl;
    [done |].
  apply IH; [intros; apply Hentries; by right |].
  apply explicitStep_keeps; [apply Hentries; by left | done].
Qed.

Lemma explicit_fold_errs ig jr entries st e :
  In e (errs st) -> In e (errs (fold_left (explicitStep ix ig jr) entries st)).
Proof.
  revert st. induction entries as [|entry entries IH]; intros st He; simpl;
    [done |].
  by apply IH, explicitStep_errs.
Qed.

(** *** The second loop: the consumers that are left *)

Lemma expectedStep_boundAt ig jr key rc errs c :
  boundAt key rc -> boundAt key (expectedStep ix ig jr (rc, errs) c).1.
Proof.
  intros Hkey. destruct (matchProvider ix c) as [p|] eqn:E.
  - rewrite (expectedStep_matched _ _ _ _ _ _ _ E). simpl.
    destruct (String.eq_dec (bindingName c p) key) as [<- | Hne].
    + eexists _, p. rewrite amap_get_set_eq.
      split; [done |]. split; [by eapply matchProvider_offers | done].
    + destruct Hkey as (info & q & Hget & Hq & Hlink). exists info, q.
      by rewrite amap_get_set_ne.
  - by rewrite (expectedStep_unmatched _ _ _ _ _ _ E).
Qed.

Lemma expectedStep_errs ig jr rc errs c e :
  In e errs -> In e (expectedStep ix ig jr (rc, errs) c).2.
Proof.
  intros He. destruct (matchProvider ix c) as [p|] eqn:E.
  - by rewrite (expectedStep_matched _ _ _ _ _ _ _ E).
  - rewrite (expectedStep_unmatched _ _ _ _ _ _ E). simpl.
    destruct (JobConsumesInfo.Optional c); [done |].
    apply in_or_app; by left.
Qed.

(** The consumer the loop body handles is bound or diagnosed. *)
Lemma expectedStep_here ig jr rc errs c :
  JobConsumesInfo.Optional c = false ->
  bound (expectedStep ix ig jr (rc, errs) c).1 c
  \/ diagnosed ig jr (expectedStep ix ig jr (rc, errs) c).2 c.
Proof.
  intros Hopt. destruct (matchProvider ix c) as [p|] eqn:E.
  - left. rewrite (expectedStep_matched _ _ _ _ _ _ _ E). simpl.
    exists (bindingName c p). split.
    + unfold keyFor, bindingName.
      destruct (String.eqb (nameOf c) EmptyString) eqn:Ename; [| by left].
      apply String.eqb_eq in Ename. right. split; [done |].
      exists p. split; [| done]. by apply matchProvider_unnamed.
    + eexists _, p. rewrite amap_get_set_eq.
      split; [done |]. split; [by eapply matchProvider_offers | done].
  - right. rewrite (expectedStep_unmatched _ _ _ _ _ _ E), Hopt. simpl.
    exists (unresolved ig jr c). split; [| done].
    apply in_or_app. right. by left.
Qed.

Lemma bound_kept ig jr rc errs c c' :
  bound rc c -> bound (expectedStep ix ig jr (rc, errs) c').1 c.
Proof.
  intros (key & Hkey & Hat). exists key. split; [done |].
  by apply expectedStep_boundAt.
Qed.

Lemma diagnosed_mono ig jr errs errs' c :
  (forall e, In e errs -> In e errs') ->
  diagnosed ig jr errs c -> diagnosed ig jr errs' c.
Proof. intros Hincl (e & He & Hfield). exists e. auto. Qed.

Lemma expected_fold ig jr expected rc errs :
  let st' := fold_left (expectedStep ix ig jr) expected (rc, errs) in
  (forall c, In c expected -> JobConsumesInfo.Optional c = false ->
             bound st'.1 c \/ diagnosed ig jr st'.2 c)
  /\ (forall c, bound rc c -> bound st'.1 c)
  /\ (forall e, In e errs -> In e st'.2).
Proof.
  revert rc errs.
  induction expected as [|c0 expected IH]; intros rc errs;
    [simpl; done | cbn [fold_left]].
  destruct (expectedStep ix ig jr (rc, errs) c0) as [rc1 errs1] eqn:E.
  destruct (IH rc1 errs1) as (H1 & H2 & H3).
  assert (rc1 = (expectedStep ix ig jr (rc, errs) c0).1) as Erc by by rewrite E.
  assert (errs1 = (expectedStep ix ig jr (rc, errs) c0).2) as Eerrs
    by by rewrite E.
  split; [| split].
  - intros c [<- | Hc] Hopt; [| by apply H1].
    destruct (expectedStep_here ig jr rc errs c0 Hopt) as [Hb | Hd].
    + left. apply H2. by rewrite Erc.
    + right. eapply diagnosed_mono; [apply H3 |]. by rewrite Eerrs.
  - intros c Hc. apply H2. rewrite Erc. by apply bound_kept.
  - intros e He. apply H3. rewrite Eerrs. by apply expectedStep_errs.
Qed.

(** *** One job reference, one instance group, the deployment *)

Lemma settled_mono errs errs' ig jr jr' :
  (forall e, In e errs -> In e errs') ->
  settled errs ig jr jr' -> settled errs' ig jr jr'.
Proof.
  intros Hincl Hs c Hc Hopt.
  destruct (Hs c Hc Hopt) as [H | [H | H]]; auto.
  right; right. by eapply diagnosed_mono.
Qed.

Lemma resolveJob_settled ig jr errs0 :
  let r := resolveJob ix ig jr errs0 in
  (forall e, In e errs0 -> In e r.2)
  /\ settled r.2 ig jr r.1
  /\ JobReference.Name r.1 = JobReference.Name jr.
Proof.
  unfold resolveJob.
  pose proof (expected_fold ig jr
                (expectedConsumers (afterExplicit ix ig jr errs0))
                (consumes (afterExplicit ix ig jr errs0))
                (errs (afterExplicit ix ig jr errs0))) as (H1 & H2 & H3).
  destruct (fold_left (expectedStep ix ig jr) _ _) as [rc errs1].
  simpl in *. split; [| split; [| done]].
  - intros e He. by apply H3, explicit_fold_errs.
  - intros c Hc Hopt.
    destruct (explicit_fold ig jr c (JobReference.ResolvedConsumes jr)
                (mkResolving (JobReference.ResolvedConsumes jr)
                   (Job.DesiredConsumers (JobReference.Job jr)) errs0))
      as [Hexp | [Hign | Hat]]; [done | by left | | by left |].
    + destruct (H1 c Hexp Hopt); auto.
    + right; left. apply H2. exists (nameOf c). split; [by left | done].
Qed.

Lemma resolveJobs_settled ig jobs errs0 :
  let r := resolveJobs ix ig jobs errs0 in
  (forall e, In e errs0 -> In e r.2)
  /\ Forall2
       (fun jr jr' =>
          settled r.2 ig jr jr'
          /\ JobReference.Name jr' = JobReference.Name jr)
       jobs r.1.
Proof.
  revert errs0.
  induction jobs as [|jr jobs IH]; intros errs0; cbn [resolveJobs].
  - simpl. split; [done | constructor].
  - pose proof (resolveJob_settled ig jr errs0) as (H1 & H2 & H3).
    destruct (resolveJob ix ig jr errs0) as [jr' errs1].
    pose proof (IH errs1) as [H4 H5].
    destruct (resolveJobs ix ig jobs errs1) as [rest' errs2].
    simpl in *. split; [auto |].
    constructor; [| done]. split; [| done]. by eapply settled_mono.
Qed.

Lemma resolveGroups_settled m errs0 :
  let r := resolveGroups ix m errs0 in
  (forall e, In e errs0 -> In e r.2)
  /\ Forall2
       (fun ig ig' =>
          InstanceGroup.Name ig' = InstanceGroup.Name ig
          /\ Forall2
               (fun jr jr' =>
                  settled r.2 ig jr jr'
                  /\ JobReference.Name jr' = JobReference.Name jr)
               (InstanceGroup.JobReferences ig)
               (InstanceGroup.JobReferences ig'))
       m r.1.
Proof.
  revert errs0.
  induction m as [|ig m IH]; intros errs0; cbn [resolveGroups].
  - simpl. split; [done | constructor].
  - pose proof (resolveJobs_settled ig (InstanceGroup.JobReferences ig) errs0)
      as [H1 H2].
    destruct (resolveJobs ix ig _ errs0) as [jobs' errs1].
    pose proof (IH errs1) as [H3 H4].
    destruct (resolveGroups ix m errs1) as [rest' errs2].
    simpl in *. split; [auto |].
    constructor; [| done]. split; [done |].
    eapply Forall2_impl; [exact H2 |].
    intros jr jr' [Hs Hn]. split; [| done]. by eapply settled_mono.
Qed.

End resolving.

(** *** recordJobConsumers leaves the resolved consumers as they are *)










(** A consumer the role manifest marks [ignore] under a name that no
    provider is published under keeps its entry: the first loop reports that
    the consumer is not found, and the second loop binds it to the only
    provider of its type. *)
Lemma ResolveLinks_ignore_mark_without_provider :
  let r := resolver.ResolveLinks sameName ignoringUnpublished in
  consumesOf <$> resolver.RoleManifest.InstanceGroups r.1
  = [("A", [("pj", [])]);
     ("B", [("cj",
             [("q", model.JobConsumesInfo.mk
                      (model.JobLinkInfo.mk "p1" "T" "A" "pj" "A-pj")
                      EmptyString true false)])])]
  /\ r.2 = [validation.NotFound "instance_group[B].job[cj].consumes[q]"
              "consumer q not found"].
Proof. vm_compute. by split. Qed.

(** The entry the first loop deletes for an ignored consumer can be written
    again by the second loop: a consumer without a name that is bound to the
    only provider of its type is recorded under the name of that provider. *)
Lemma ResolveLinks_ignored_name_bound_again :
  let r := resolver.ResolveLinks sameName ignoringAndUnnamed in
  consumesOf <$> resolver.RoleManifest.InstanceGroups r.1
  = [("A", [("pj", [])]);
     ("B", [("cj",
             [("p1", model.JobConsumesInfo.mk
                       (model.JobLinkInfo.mk "p1" "T" "A" "pj" "A-pj")
                       EmptyString false false)])])]
  /\ r.2 = [].
Proof. vm_compute. by split. Qed.

(** The consumer of the manifest that marks p1 to be ignored is one of
    those the first loop takes off: its mark says ignore and a provider is
    published under p1. *)
Lemma ignoringManifest_consumer_is_ignored :
  ignored (resolver.RoleManifest.InstanceGroups ignoringManifest)
    (consumerJob [consumerOfP1] [("p1", ignoreMark)]) consumerOfP1.
Proof.
  exists ignoreMark. cbv zeta.
  split; [by left |]. split; [done |]. split; [done |].
  exists (groupOf "A" [providerJob]), providerJob, ("p1", providerP1).
  split; [by left |]. split; [by left |]. split; [by left |]. by split.
Qed.

(** * Further properties *)

(** ** createDepBuckets and dependency cycles *)

(** In a finite graph in which every vertex of [l] has a successor in [l],
    a walk from any vertex of [l] runs into a cycle. *)
Lemma walk_into_cycle {A : Type} `{EqDecision A} (E : relation A) (l : list A) :
  (forall x, x ∈ l -> exists y, y ∈ l /\ E x y) ->
  forall (n : nat) (visited : list A) (s x : A),
    (List.length l < n + List.length visited)%nat ->
    NoDup visited -> (forall v, v ∈ visited -> v ∈ l /\ tc E v x) ->
    x ∈ l -> rtc E s x ->
    exists z, rtc E s z /\ tc E z z.
Proof.
  intros Hsucc n. induction n as [|n IH]; intros visited s x Hlen Hnd Hv Hx Hs.
  - exfalso. simpl in Hlen.
    assert (List.length visited <= List.length l)%nat; [| lia].
    apply submseteq_length, NoDup_submseteq; [done |].
    intros v Hin. by apply Hv.
  - destruct (decide (x ∈ visited)) as [Hin | Hout].
    + exists x. split; [done |]. by apply Hv.
    + destruct (Hsucc x Hx) as (y & Hy & Exy).
      apply (IH (x :: visited) s y).
      * simpl. lia.
      * by apply NoDup_cons.
      * intros v [-> | Hin]%elem_of_cons.
        -- split; [done | by apply tc_once].
        -- split; [by apply Hv |]. eapply tc_r; [by apply Hv | done].
      * done.
      * eapply rtc_r; done.
Qed.

Lemma reachesCycle_step (packages : list model.Package.t) (f : string) :
  reachesCycle packages f ->
  exists h, dependsOn packages f h /\ reachesCycle packages h.
Proof.
  intros (g & Hfg & Hg).
  destruct Hfg as [f | f y g Efy Hyg].
  - inversion Hg as [? ? Eff | ? y ? Efy Hyf]; subst.
    + exists f. split; [done |]. exists f. split; [done | by apply tc_once].
    + exists y. split; [done |]. exists f. split; [by apply tc_rtc | done].
  - exists y. split; [done |]. by exists g.
Qed.

Section cycles.
Import model compilator.

Variable packages : list Package.t.
Hypothesis packages_NoDup : NoDup (fingerprints packages).

(** A package that was taken reaches no cycle: its dependencies were all
    taken before it. *)
Lemma queued_reaches_no_cycle (st : queueing) (queued : list Package.t) :
  queueInvariant packages st queued ->
  forall (n : nat) (before : list Package.t) (p : Package.t)
         (after : list Package.t),
    queued = before ++ p :: after -> (List.length before < n)%nat ->
    ~ reachesCycle packages (Package.Fingerprint p).
Proof.
  intros Inv. pose proof Inv as (_ & _ & Hsub & _ & _ & Htopo).
  induction n as [|n IH]; intros before p after E Hlen Hcyc; [lia |].
  apply reachesCycle_step in Hcyc as (h & (p' & Hp' & Efp & Hh) & Hcyc).
  assert (Hp : p ∈ packages).
  { apply Hsub. rewrite E. apply elem_of_app. right. by left. }
  assert (p' = p) as -> by by apply (fingerprint_inj packages packages_NoDup).
  pose proof (Htopo before p after h E Hh) as Hb.
  apply list_elem_of_fmap in Hb as (d & -> & Hd).
  apply list_elem_of_split in Hd as (b1 & b2 & ->).
  apply (IH b1 d (b2 ++ p :: after)).
  - rewrite E. by rewrite <- app_assoc.
  - rewrite length_app in Hlen. simpl in Hlen. lia.
  - done.
Qed.

(** A package that was never taken has a dependency that was never taken. *)
Lemma unqueued_successor (st : queueing) (queued : list Package.t) :
  queueInvariant packages st queued ->
  (forall p, p ∈ packages ->
     count (depCount st) (Package.Fingerprint p) <> 0) ->
  forall x,
    x ∈ filter (fun f => f ∉ fingerprints queued) (fingerprints packages) ->
    exists y,
      y ∈ filter (fun f => f ∉ fingerprints queued) (fingerprints packages)
      /\ dependsOn packages x y.
Proof.
  intros Inv Hnz x [Hx Hin]%list_elem_of_filter.
  pose proof Inv as (_ & _ & _ & _ & Hcnt & _).
  apply list_elem_of_fmap in Hin as (q & -> & Hq).
  pose proof (Hcnt q Hq) as Hc. rewrite decide_False in Hc by done.
  pose proof (Hnz q Hq) as Hn. rewrite Hc in Hn.
  destruct (unmet packages (fingerprints queued) q) as [|d ds] eqn:Eu;
    [done |].
  assert (Hd : d ∈ unmet packages (fingerprints queued) q)
    by (rewrite Eu; by left).
  apply list_elem_of_filter in Hd as [Hdq Hd].
  pose proof Hd as [Hdk _]%list_elem_of_filter.
  exists (Package.Fingerprint d). split.
  - by apply list_elem_of_filter.
  - exists q. split; [done |]. split; [done |].
    by apply elem_of_fingerprints.
Qed.

End cycles.

(** X1. For packages with distinct fingerprints, [createDepBuckets] queues
    exactly the packages from which no dependency cycle can be reached: a
    package on a cycle, and every package that depends on one, is left out
    of the queue without a diagnostic. *)
Theorem createDepBuckets_leaves_out_cycles (packages : list model.Package.t) :
  NoDup (fingerprints packages) ->
  forall p,
    p ∈ packages ->
    (p ∈ compilator.createDepBuckets packages
     <-> ~ reachesCycle packages (model.Package.Fingerprint p)).
Proof.
  intros Hnd p Hp.
  destruct (createDepBuckets_fuel_spec packages Hnd)
    as (st & queued & E & Inv & Hnz).
  assert (Eq : compilator.createDepBuckets packages
               = compilator.rubies st ++ compilator.buckets st).
  { unfold compilator.createDepBuckets. by rewrite E. }
  rewrite Eq, (queue_Permutation _ _ _ Inv).
  split.
  - intros Hin. apply list_elem_of_split in Hin as (before & after & Es).
    apply (queued_reaches_no_cycle packages Hnd st queued Inv
             (S (List.length before)) before p after Es). lia.
  - intros Hno.
    destruct (decide (model.Package.Fingerprint p ∈ fingerprints queued))
      as [Hin | Hout]; [by apply (queued_member packages Hnd st queued p Inv) |].
    exfalso. apply Hno.
    apply (walk_into_cycle (dependsOn packages)
             (filter (fun f => f ∉ fingerprints queued) (fingerprints packages))
             (unqueued_successor packages st queued Inv Hnz)
             (S (List.length
                   (filter (fun f => f ∉ fingerprints queued)
                           (fingerprints packages))))
             [] (model.Package.Fingerprint p) (model.Package.Fingerprint p)).
    + simpl. lia.
    + apply NoDup_nil_2.
    + intros v Hv. by apply elem_of_nil in Hv.
    + apply list_elem_of_filter. split; [done |].
      by apply elem_of_fingerprints.
    + done.
Qed.

(** X and Y depend on each other: of X, Y and A only A is queued. *)
Lemma createDepBuckets_leaves_out_cycles_witness :
  compilator.createDepBuckets [pkgX; pkgY; pkgA] = [pkgA]
  /\ (pkgX ∈ compilator.createDepBuckets [pkgX; pkgY; pkgA]
      <-> ~ reachesCycle [pkgX; pkgY; pkgA] (model.Package.Fingerprint pkgX)).
Proof.
  split; [by vm_compute |].
  apply (createDepBuckets_leaves_out_cycles [pkgX; pkgY; pkgA]).
  - apply (bool_decide_unpack _). vm_compute. exact I.
  - by left.
Defined.

(** ** gatherPackagesFromInstanceGroups *)

Section pending.
Import model compilator.

Variable initial : list Package.t.

Lemma packageNames_snoc (l : list Package.t) (p : Package.t) :
  packageNames (l ++ [p]) = packageNames l ++ [Package.Name p].
Proof. unfold packageNames. by rewrite fmap_app. Qed.

Lemma pendingLoop_invariant (fuel : nat) (pending : list Package.t)
    (listed : gmap string bool) (result out : list Package.t) :
  pendingInvariant initial pending listed result ->
  pendingLoop fuel pending listed result = Some out ->
  exists listed', pendingInvariant initial [] listed' out.
Proof.
  revert pending listed result.
  induction fuel as [|fuel IH]; intros pending listed result Inv E;
    destruct pending as [|pkg rest]; simpl in E; try done.
  - injection E as <-. by exists listed.
  - injection E as <-. by exists listed.
  - destruct Inv as (Hl & Hnd & Hdeps & Hinit & Hneed).
    destruct (default false (listed !! Package.Name pkg)) eqn:El.
    + apply (IH _ _ _) in E; [done |].
      apply Hl in El.
      split; [done |]. split; [done |]. split; [| split].
      * intros p d Hp Hd.
        destruct (Hdeps p d Hp Hd) as [[-> | H]%elem_of_cons | H]; auto.
      * intros p Hp.
        destruct (Hinit p Hp) as [[-> | H]%elem_of_cons | H]; auto.
      * intros p [Hp | Hp]; apply Hneed; [by left | right; by right].
    + apply (IH _ _ _) in E; [done |].
      assert (Hfresh : Package.Name pkg ∉ packageNames result).
      { intros Hin. apply Hl in Hin. congruence. }
      split; [| split; [| split; [| split]]].
      * intros n. rewrite packageNames_snoc, elem_of_app, list_elem_of_singleton.
        rewrite lookup_insert. case_decide as En.
        -- subst n. simpl. split; [by right | done].
        -- rewrite Hl. split; [by left |]. by intros [H | ->].
      * rewrite packageNames_snoc. apply NoDup_app. split; [done |].
        split; [| apply NoDup_singleton].
        intros n Hn ->%list_elem_of_singleton. done.
      * intros p d [Hp | ->%list_elem_of_singleton]%elem_of_app Hd.
        -- rewrite packageNames_snoc, !elem_of_app, list_elem_of_singleton.
           destruct (Hdeps p d Hp Hd) as [[-> | H]%elem_of_cons | H]; auto.
        -- left. apply elem_of_app. by right.
      * intros p Hp.
        rewrite packageNames_snoc, !elem_of_app, list_elem_of_singleton.
        destruct (Hinit p Hp) as [[-> | H]%elem_of_cons | H]; auto.
      * intros p [[Hp | ->%list_elem_of_singleton]%elem_of_app
                 | [Hp | Hp]%elem_of_app].
        -- apply Hneed. by left.
        -- apply Hneed. right. by left.
        -- apply Hneed. right. by right.
        -- eapply needed_dependency; [| exact Hp]. apply Hneed. right. by left.
Qed.

End pending.

(** X2. [gatherPackagesFromInstanceGroups] lists one package for a name:
    the names of the result are distinct. Every package of a job of the
    instance groups that belongs to the release has its name in the result,
    and so has every dependency of a package of the result; and the result
    holds nothing but these packages and what they depend on. *)
Theorem gatherPackagesFromInstanceGroups_closed
    (release : model.Release.t) (instanceGroups : list model.InstanceGroup.t) :
  let initial := compilator.initialPending release instanceGroups in
  let result :=
    compilator.gatherPackagesFromInstanceGroups release instanceGroups in
  NoDup (packageNames result)
  /\ (forall p, p ∈ initial -> model.Package.Name p ∈ packageNames result)
  /\ (forall p d, p ∈ result -> d ∈ model.Package.Dependencies p ->
        model.Package.Name d ∈ packageNames result)
  /\ (forall p, p ∈ result -> needed initial p).
Proof.
  intros initial result.
  pose proof (gatherPackagesFromInstanceGroups_total release instanceGroups)
    as E.
  fold initial result in E.
  apply (pendingLoop_invariant initial) in E as [listed Inv].
  - destruct Inv as (_ & Hnd & Hdeps & Hinit & Hneed).
    split; [done |]. split; [| split].
    + intros p Hp. destruct (Hinit p Hp) as [H | H]; [| done].
      by apply elem_of_nil in H.
    + intros p d Hp Hd. destruct (Hdeps p d Hp Hd) as [H | H]; [| done].
      by apply elem_of_nil in H.
    + intros p Hp. apply Hneed. by left.
  - split; [| split; [apply NoDup_nil_2 | split; [| split]]].
    + intros n. rewrite lookup_empty. simpl. split; [done |].
      intros H. by apply elem_of_nil in H.
    + intros p d Hp. by apply elem_of_nil in Hp.
    + intros p Hp. by left.
    + intros p [Hp | Hp]; [by apply elem_of_nil in Hp | by apply needed_initial].
Qed.

(** ** removeCompiledPackages and the start of Compile *)

Section culling.
Import model compilator.

Variable isPackageCompiledHarness : Package.t -> result bool.
Variable sortPackages : list Package.t -> list Package.t.

Local Abbreviation removeCompiledPackages :=
  (compilator.removeCompiledPackages isPackageCompiledHarness).
Local Abbreviation Compile :=
  (compilator.Compile isPackageCompiledHarness sortPackages).
Local Abbreviation compiledOf :=
  (List.filter (alreadyCompiled isPackageCompiledHarness)).
Local Abbreviation uncompiled := (toCompile isPackageCompiledHarness).

Lemma closedFor_refl (signals : gmap string chan) : closedFor [] signals signals.
Proof. intros f. rewrite decide_False; [done |]. apply not_elem_of_nil. Qed.

Lemma closedFor_cons (p : Package.t) (closed : list Package.t)
    (signals signals' : gmap string chan) :
  closedFor closed (<[Package.Fingerprint p := Closed]> signals) signals' ->
  closedFor (p :: closed) signals signals'.
Proof.
  intros H f. rewrite (H f). rewrite fingerprints_cons.
  destruct (decide (f ∈ fingerprints closed)) as [Hin | Hout].
  - rewrite decide_True; [done | by right].
  - rewrite lookup_insert. case_decide as E.
    + subst f. rewrite decide_True; [done | by left].
    + rewrite decide_False; [done |].
      intros [? | ?]%elem_of_cons; congruence.
Qed.

(** Without a failing check: the packages that are not compiled are
    returned behind [acc], the signals of the others are closed. *)
Lemma removeCompiledPackages_checked (l acc : list Package.t)
    (signals : gmap string chan) :
  (forall p, p ∈ l -> exists b, isPackageCompiledHarness p = Ok b) ->
  NoDup (fingerprints l) ->
  (forall p, p ∈ l -> signals !! Package.Fingerprint p = Some Open) ->
  exists signals',
    removeCompiledPackages l signals acc = Done (Ok (acc ++ uncompiled l), signals')
    /\ closedFor (compiledOf l) signals signals'.
Proof.
  revert acc signals.
  induction l as [|p l IH]; intros acc signals Hok Hnd Hopen.
  - exists signals. simpl. rewrite app_nil_r. split; [done | apply closedFor_refl].
  - rewrite fingerprints_cons in Hnd. apply NoDup_cons in Hnd as [Hp Hnd].
    destruct (Hok p) as [b Eb]; [by left |].
    cbn [compilator.removeCompiledPackages]. rewrite Eb.
    unfold toCompile, alreadyCompiled. cbn [List.filter]. rewrite Eb.
    destruct b; cbn [negb].
    + unfold closeSignal. rewrite (Hopen p) by by left.
      destruct (IH acc (<[Package.Fingerprint p := Closed]> signals))
        as (signals' & E & Hc).
      * intros q Hq. apply Hok. by right.
      * done.
      * intros q Hq. rewrite lookup_insert_ne; [apply Hopen; by right |].
        intros Efp. apply Hp. rewrite Efp. by apply elem_of_fingerprints.
      * exists signals'. split; [exact E |]. by apply closedFor_cons.
    + destruct (IH (acc ++ [p]) signals) as (signals' & E & Hc).
      * intros q Hq. apply Hok. by right.
      * done.
      * intros q Hq. apply Hopen. by right.
      * exists signals'. split; [| exact Hc].
        rewrite E. by rewrite <- app_assoc.
Qed.

(** With a failing check: the error is returned, and what stands behind
    the package is not looked at. *)
Lemma removeCompiledPackages_failed (before after acc : list Package.t)
    (p : Package.t) (e : string) (signals : gmap string chan) :
  (forall q, q ∈ before -> exists b, isPackageCompiledHarness q = Ok b) ->
  isPackageCompiledHarness p = Err e ->
  NoDup (fingerprints before) ->
  (forall q, q ∈ before -> signals !! Package.Fingerprint q = Some Open) ->
  exists signals',
    removeCompiledPackages (before ++ p :: after) signals acc
    = Done (Err e, signals')
    /\ closedFor (compiledOf before) signals signals'.
Proof.
  intros Hok Ep. revert acc signals.
  induction before as [|q before IH]; intros acc signals Hnd Hopen.
  - exists signals. simpl. rewrite Ep. split; [done | apply closedFor_refl].
  - rewrite fingerprints_cons in Hnd. apply NoDup_cons in Hnd as [Hq Hnd].
    destruct (Hok q) as [b Eb]; [by left |].
    cbn [app compilator.removeCompiledPackages]. rewrite Eb.
    unfold alreadyCompiled. cbn [List.filter]. rewrite Eb.
    destruct b.
    + unfold closeSignal. rewrite (Hopen q) by by left.
      destruct (IH (fun x Hx => Hok x (list_elem_of_further _ _ _ Hx)) acc
                  (<[Package.Fingerprint q := Closed]> signals))
        as (signals' & E & Hc).
      * done.
      * intros x Hx. rewrite lookup_insert_ne; [apply Hopen; by right |].
        intros Efp. apply Hq. rewrite Efp. by apply elem_of_fingerprints.
      * exists signals'. split; [exact E |]. by apply closedFor_cons.
    + apply (IH (fun x Hx => Hok x (list_elem_of_further _ _ _ Hx))); [done |].
      intros x Hx. apply Hopen. by right.
Qed.

(** X3. On packages with distinct fingerprints whose signal channels are
    open, [removeCompiledPackages] returns the packages that are not
    compiled yet, in their order, and closes the signal of every package
    that is; when a check fails it returns that error and looks at no
    package behind the one it failed on. *)
Theorem removeCompiledPackages_keeps_what_is_left
    (packages : list Package.t) (signals : gmap string chan) :
  NoDup (fingerprints packages) ->
  (forall p, p ∈ packages -> signals !! Package.Fingerprint p = Some Open) ->
  ((forall p, p ∈ packages -> exists b, isPackageCompiledHarness p = Ok b) ->
   exists signals',
     removeCompiledPackages packages signals []
     = Done (Ok (uncompiled packages), signals')
     /\ closedFor (compiledOf packages) signals signals')
  /\ (forall before p after e,
        packages = before ++ p :: after ->
        (forall q, q ∈ before -> exists b, isPackageCompiledHarness q = Ok b) ->
        isPackageCompiledHarness p = Err e ->
        exists signals',
          removeCompiledPackages packages signals [] = Done (Err e, signals')
          /\ closedFor (compiledOf before) signals signals').
Proof.
  intros Hnd Hopen. split.
  - intros Hok. by apply (removeCompiledPackages_checked packages []).
  - intros before p after e -> Hok Ep.
    apply removeCompiledPackages_failed; [done | done | |].
    + rewrite fingerprints_app in Hnd. by apply NoDup_app in Hnd as [? _].
    + intros q Hq. apply Hopen. apply elem_of_app. by left.
Qed.

(** What [gatherPackages] hands to [removeCompiledPackages]: packages with
    distinct fingerprints, each with an open signal channel of its own. *)
Lemma gatherPackages_ready (signals0 : gmap string chan)
    (releases : list Release.t) (instanceGroups : option (list InstanceGroup.t)) :
  exists gathered signals,
    gatherPackages signals0 releases instanceGroups = (gathered, signals)
    /\ NoDup (fingerprints gathered)
    /\ forall p, p ∈ gathered ->
         signals !! Package.Fingerprint p = Some Open.
Proof.
  rewrite gatherPackages_encountered.
  destruct (gatherStep_fold (encountered instanceGroups releases) [] signals0)
    as (signals & -> & Hs).
  eexists _, signals. split; [done |]. cbn [app].
  split; [apply firstNew_NoDup |].
  intros p Hp. rewrite Hs. rewrite decide_True; [done |].
  by apply elem_of_fingerprints.
Qed.

(** X4. [Compile] hands to [removeCompiledPackages] what [gatherPackages]
    found, and closing the signals of the compiled packages never panics.
    When every package gathered is compiled already, [Compile] returns no
    error and adds no compile job, whatever the workers would report. When
    a check of the disk fails, it returns that error behind "failed to
    remove compiled packages: " and adds no job. Otherwise the jobs are the
    packages that are not compiled, sorted and put in dependency order. *)
Theorem Compile_before_the_workers
    (signals0 : gmap string chan) (releases : list Release.t)
    (instanceGroups : option (list InstanceGroup.t))
    (results : list compileResult.t) :
  let gathered := (gatherPackages signals0 releases instanceGroups).1 in
  ((forall p, p ∈ gathered -> exists b, isPackageCompiledHarness p = Ok b) ->
   (uncompiled gathered = [] ->
    exists c,
      Compile signals0 releases instanceGroups results = Done c
      /\ returned c = None /\ jobs c = []
      /\ ui (final c) = ["No package needed to be built"])
   /\ (uncompiled gathered <> [] ->
       forall c,
         Compile signals0 releases instanceGroups results = Done c ->
         jobs c = createDepBuckets (sortPackages (uncompiled gathered))))
  /\ (forall before p after e,
        gathered = before ++ p :: after ->
        (forall q, q ∈ before -> exists b, isPackageCompiledHarness q = Ok b) ->
        isPackageCompiledHarness p = Err e ->
        exists c,
          Compile signals0 releases instanceGroups results = Done c
          /\ returned c = Some ("failed to remove compiled packages: " +:+ e)
          /\ jobs c = []).
Proof.
  intros gathered. subst gathered. unfold compilator.Compile.
  destruct (gatherPackages_ready signals0 releases instanceGroups)
    as (gathered & signals & -> & Hnd & Hopen).
  cbn [fst]. split.
  - intros Hok.
    destruct (removeCompiledPackages_checked gathered [] signals Hok Hnd Hopen)
      as (signals' & -> & _).
    cbn [app]. split.
    + intros ->. eexists. by split.
    + intros Hne c. destruct (uncompiled gathered) as [|k kept]; [done |].
      destruct (drain results _); [| done]. by intros [= <-].
  - intros before p after e -> Hok Ep.
    rewrite fingerprints_app in Hnd. apply NoDup_app in Hnd as [Hnd _].
    destruct (removeCompiledPackages_failed before after [] p e signals Hok Ep
                Hnd) as (signals' & -> & _).
    + intros q Hq. apply Hopen. apply elem_of_app. by left.
    + eexists. by split.
Qed.

End culling.

(** A is compiled, B is not: B is returned and the signal of A is closed. *)
Lemma removeCompiledPackages_keeps_what_is_left_witness :
  exists signals',
    compilator.removeCompiledPackages onlyACompiled [pkgA; pkgB]
      (<["fp-a" := compilator.Open]> (<["fp-b" := compilator.Open]> ∅)) []
    = compilator.Done (Ok [pkgB], signals')
    /\ signals' !! "fp-a" = Some compilator.Closed.
Proof.
  destruct (removeCompiledPackages_keeps_what_is_left onlyACompiled
              [pkgA; pkgB]
              (<["fp-a" := compilator.Open]> (<["fp-b" := compilator.Open]> ∅)))
    as [Hall _].
  - apply (bool_decide_unpack _). vm_compute. exact I.
  - intros p Hp. repeat (apply elem_of_cons in Hp as [-> | Hp]); try done.
    by apply elem_of_nil in Hp.
  - destruct Hall as (signals' & E & Hc).
    + intros p Hp. unfold onlyACompiled. eauto.
    + exists signals'. split; [exact E |]. rewrite (Hc "fp-a"). reflexivity.
Defined.

(** Everything of scenario 1 is compiled already: nothing is built. *)
Lemma Compile_before_the_workers_witness :
  exists c,
    compilator.Compile allCompiled sorted ∅ [release1] None resultsBFails
    = compilator.Done c
    /\ compilator.returned c = None /\ compilator.jobs c = [].
Proof.
  destruct (Compile_before_the_workers allCompiled sorted ∅ [release1] None
              resultsBFails) as [Hok _].
  destruct Hok as [Hnone _].
  - intros p Hp. by exists true.
  - destruct Hnone as (c & E & Hr & Hj & _); [reflexivity |].
    exists c. split; [exact E |]. by split.
Defined.

(** ** ResolveLinks: the diagnostics *)

Section diagnostics.
Import model resolver.

Variable ConvertNameToKey : string -> string.
Variable deployment : list InstanceGroup.t.

Local Abbreviation ix := (buildIndices ConvertNameToKey deployment).

(** *** The first pass *)

Lemma availableStep_names ig jr l names byType :
  (fold_left (availableStep ConvertNameToKey ig jr) l (names, byType)).1
  = names ++ amap.keys l.
Proof.
  revert names byType.
  induction l as [|[n p] l IH]; intros names byType; simpl.
  - by rewrite app_nil_r.
  - rewrite IH. by rewrite <- app_assoc.
Qed.

Lemma indexJob_errors ig ix0 jr :
  errors (indexJob ConvertNameToKey ig ix0 jr)
  = (fold_left
       (exportedStep ConvertNameToKey ig jr
          (amap.keys (Job.AvailableProviders (JobReference.Job jr))))
       (JobReference.ExportedProvides jr)
       (providersByName ix0, errors ix0)).2.
Proof.
  unfold indexJob.
  pose proof (availableStep_names ig jr
                (Job.AvailableProviders (JobReference.Job jr)) []
                (providersByType ix0)) as Hn.
  destruct (fold_left (availableStep ConvertNameToKey ig jr) _ _)
    as [names byType].
  simpl in Hn. subst names.
  by destruct (fold_left (exportedStep ConvertNameToKey ig jr _) _ _).
Qed.

Lemma exportedStep_keeps ig jr names st entry e :
  In e st.2 -> In e (exportedStep ConvertNameToKey ig jr names st entry).2.
Proof.
  destruct st as [byName errs], entry as [name provider]. simpl.
  destruct (amap.get name _); simpl; [done |].
  intros He. apply in_or_app. by left.
Qed.

Lemma indexJob_keeps ig ix0 jr e :
  In e (errors ix0) -> In e (errors (indexJob ConvertNameToKey ig ix0 jr)).
Proof.
  intros He. rewrite indexJob_errors.
  apply (fold_left_keeps _ (fun st => In e st.2)); [done |].
  intros. by apply exportedStep_keeps.
Qed.

Lemma indexGroup_keeps ix0 ig e :
  In e (errors ix0) -> In e (errors (indexGroup ConvertNameToKey ix0 ig)).
Proof.
  intros He. unfold indexGroup.
  apply (fold_left_keeps _ (fun ix => In e (errors ix))); [done |].
  intros. by apply indexJob_keeps.
Qed.

(** What the first pass reports about an exported provider that the job
    does not make available. *)
Lemma buildIndices_missing_provider ig jr name provider :
  In ig deployment -> In jr (InstanceGroup.JobReferences ig) ->
  In (name, provider) (JobReference.ExportedProvides jr) ->
  amap.get name (Job.AvailableProviders (JobReference.Job jr)) = None ->
  In (validation.NotFound (providesField ig jr name)
        ("Provider not found; available providers: "
           +:+ Sprintf_v
                 (amap.keys (Job.AvailableProviders (JobReference.Job jr)))))
     (errors ix).
Proof.
  intros Hig Hjr Hentry Hnone. unfold buildIndices.
  apply (fold_left_reaches _ (fun ix => In _ (errors ix)) _ ig); [done | |].
  - intros ix0. unfold indexGroup.
    apply (fold_left_reaches _ (fun ix => In _ (errors ix)) _ jr); [done | |].
    + intros ix1. rewrite indexJob_errors.
      apply (fold_left_reaches _ (fun st => In _ st.2) _ (name, provider));
        [done | |].
      * intros [byName errs]. simpl. rewrite Hnone. simpl.
        apply in_or_app. right. by left.
      * intros. by apply exportedStep_keeps.
    + intros. by apply indexJob_keeps.
  - intros. by apply indexGroup_keeps.
Qed.

(** *** The second pass *)

Lemma resolveJobs_reaches ig jobs jr e :
  In jr jobs ->
  (forall errs0, In e (resolveJob ix ig jr errs0).2) ->
  forall errs0, In e (resolveJobs ix ig jobs errs0).2.
Proof.
  intros Hjr Hhere.
  induction jobs as [|j jobs IH]; intros errs0; [done |].
  cbn [resolveJobs].
  pose proof (Hhere errs0) as H0.
  destruct Hjr as [-> | Hjr].
  - destruct (resolveJob ix ig jr errs0) as [jr' errs1].
    pose proof (resolveJobs_settled ConvertNameToKey deployment ig jobs errs1)
      as [Hmono _].
    destruct (resolveJobs ix ig jobs errs1) as [rest' errs2]. simpl in *. auto.
  - destruct (resolveJob ix ig j errs0) as [j' errs1].
    pose proof (IH Hjr errs1) as H1.
    by destruct (resolveJobs ix ig jobs errs1) as [rest' errs2].
Qed.

Lemma resolveGroups_reaches m ig e :
  In ig m ->
  (forall errs0,
      In e (resolveJobs ix ig (InstanceGroup.JobReferences ig) errs0).2) ->
  forall errs0, In e (resolveGroups ix m errs0).2.
Proof.
  intros Hig Hhere.
  induction m as [|g m IH]; intros errs0; [done |].
  cbn [resolveGroups].
  pose proof (Hhere errs0) as H0.
  destruct Hig as [-> | Hig].
  - destruct (resolveJobs ix ig _ errs0) as [jobs' errs1].
    pose proof (resolveGroups_settled ConvertNameToKey deployment m errs1)
      as [Hmono _].
    destruct (resolveGroups ix m errs1) as [rest' errs2]. simpl in *. auto.
  - destruct (resolveJobs ix g _ errs0) as [jobs' errs1].
    pose proof (IH Hig errs1) as H1.
    by destruct (resolveGroups ix m errs1) as [rest' errs2].
Qed.

(** A diagnostic that the first loop adds for an entry of the role manifest
    is among the diagnostics of the job. *)
Lemma resolveJob_explicit ig jr entry e errs0 :
  In entry (JobReference.ResolvedConsumes jr) ->
  (forall st, In e (errs (explicitStep ix ig jr st entry))) ->
  In e (resolveJob ix ig jr errs0).2.
Proof.
  intros Hentry Hhere. unfold resolveJob.
  pose proof (expected_fold ConvertNameToKey deployment ig jr
                (expectedConsumers (afterExplicit ix ig jr errs0))
                (consumes (afterExplicit ix ig jr errs0))
                (errs (afterExplicit ix ig jr errs0))) as (_ & _ & Hkeep).
  destruct (fold_left (expectedStep ix ig jr) _ _) as [rc errs1].
  simpl in *. apply Hkeep. unfold afterExplicit.
  apply (fold_left_reaches _ (fun st => In e (errs st)) _ entry); [done.. |].
  intros. by apply explicitStep_errs.
Qed.

(** *** Where a diagnostic of kind Required comes from *)

Lemma removeFirst_incl {A : Type} (p : A -> bool) (l : list A) (x : A) :
  In x (removeFirst p l) -> In x l.
Proof.
  induction l as [|y l IH]; simpl; [done |].
  destruct (p y); [by right |]. intros [-> | H]; [by left | right; auto].
Qed.

Lemma explicitStep_expected ig jr st entry c :
  In c (expectedConsumers (explicitStep ix ig jr st entry)) ->
  In c (expectedConsumers st).
Proof.
  destruct entry as [consumerName consumerInfo]. unfold explicitStep.
  destruct (String.eqb _ EmptyString); [done |].
  destruct (providersByName ix !! _); [| done].
  simpl. apply removeFirst_incl.
Qed.

Lemma explicitStep_justified ig jr st entry :
  requiredJustified ConvertNameToKey deployment (errs st) ->
  requiredJustified ConvertNameToKey deployment
    (errs (explicitStep ix ig jr st entry)).
Proof.
  destruct entry as [consumerName consumerInfo]. intros Hj. unfold explicitStep.
  destruct (String.eqb _ EmptyString); simpl.
  - intros e [He | [<- | []]]%in_app_or; [by apply Hj | done].
  - destruct (providersByName ix !! _); simpl; [done |].
    intros e [He | [<- | []]]%in_app_or; [by apply Hj | done].
Qed.

Lemma expectedStep_justified ig jr rc errs0 c :
  In ig deployment -> In jr (InstanceGroup.JobReferences ig) ->
  In c (Job.DesiredConsumers (JobReference.Job jr)) ->
  requiredJustified ConvertNameToKey deployment errs0 ->
  requiredJustified ConvertNameToKey deployment
    (expectedStep ix ig jr (rc, errs0) c).2.
Proof.
  intros Hig Hjr Hc Hj. destruct (matchProvider ix c) as [p|] eqn:E.
  - by rewrite (expectedStep_matched _ _ _ _ _ _ _ E).
  - rewrite (expectedStep_unmatched _ _ _ _ _ _ E). simpl.
    destruct (JobConsumesInfo.Optional c) eqn:Eopt; [done |].
    intros e [He | [<- | []]]%in_app_or Ht; [by apply Hj |].
    by exists ig, jr, c.
Qed.

Lemma resolveJob_justified ig jr errs0 :
  In ig deployment -> In jr (InstanceGroup.JobReferences ig) ->
  requiredJustified ConvertNameToKey deployment errs0 ->
  requiredJustified ConvertNameToKey deployment (resolveJob ix ig jr errs0).2.
Proof.
  intros Hig Hjr Hj. unfold resolveJob.
  assert (Hst : requiredJustified ConvertNameToKey deployment
                  (errs (afterExplicit ix ig jr errs0))
                /\ forall c, In c (expectedConsumers (afterExplicit ix ig jr errs0))
                             -> In c (Job.DesiredConsumers (JobReference.Job jr))).
  { unfold afterExplicit.
    apply (fold_left_keeps _
             (fun st => requiredJustified ConvertNameToKey deployment (errs st)
                        /\ forall c, In c (expectedConsumers st) ->
                                     In c (Job.DesiredConsumers
                                             (JobReference.Job jr))));
      [by split |].
    intros st entry [H1 H2]. split; [by apply explicitStep_justified |].
    intros c Hc. by eapply H2, explicitStep_expected. }
  destruct Hst as [H1 H2].
  revert H1 H2.
  generalize (consumes (afterExplicit ix ig jr errs0)).
  generalize (errs (afterExplicit ix ig jr errs0)).
  generalize (expectedConsumers (afterExplicit ix ig jr errs0)).
  intros expected. induction expected as [|c expected IH];
    intros errs1 rc H1 H2; [done |].
  cbn [fold_left].
  pose proof (expectedStep_justified ig jr rc errs1 c Hig Hjr
                (H2 c (or_introl eq_refl)) H1) as Hstep.
  destruct (expectedStep ix ig jr (rc, errs1) c) as [rc' errs'].
  apply IH; [done |]. intros c' Hc'. apply H2. by right.
Qed.

Lemma resolveJobs_justified ig jobs errs0 :
  In ig deployment ->
  (forall jr, In jr jobs -> In jr (InstanceGroup.JobReferences ig)) ->
  requiredJustified ConvertNameToKey deployment errs0 ->
  requiredJustified ConvertNameToKey deployment
    (resolveJobs ix ig jobs errs0).2.
Proof.
  intros Hig. revert errs0.
  induction jobs as [|jr jobs IH]; intros errs0 Hjobs Hj; [done |].
  cbn [resolveJobs].
  pose proof (resolveJob_justified ig jr errs0 Hig
                (Hjobs jr (or_introl eq_refl)) Hj) as H1.
  destruct (resolveJob ix ig jr errs0) as [jr' errs1].
  pose proof (IH errs1 (fun j Hin => Hjobs j (or_intror Hin)) H1) as H2.
  by destruct (resolveJobs ix ig jobs errs1).
Qed.

Lemma resolveGroups_justified m errs0 :
  (forall ig, In ig m -> In ig deployment) ->
  requiredJustified ConvertNameToKey deployment errs0 ->
  requiredJustified ConvertNameToKey deployment (resolveGroups ix m errs0).2.
Proof.
  revert errs0.
  induction m as [|ig m IH]; intros errs0 Hm Hj; [done |].
  cbn [resolveGroups].
  pose proof (resolveJobs_justified ig (InstanceGroup.JobReferences ig) errs0
                (Hm ig (or_introl eq_refl)) (fun _ H => H) Hj) as H1.
  destruct (resolveJobs ix ig _ errs0) as [jobs' errs1].
  pose proof (IH errs1 (fun g Hin => Hm g (or_intror Hin)) H1) as H2.
  by destruct (resolveGroups ix m errs1).
Qed.

(** The first pass and [recordJobConsumers] add no diagnostic of kind
    Required. *)
Lemma buildIndices_no_Required m ix0 e :
  (In e (errors ix0) -> validation.Type_ e <> validation.ErrorTypeRequired) ->
  In e (errors (fold_left (indexGroup ConvertNameToKey) m ix0)) ->
  validation.Type_ e <> validation.ErrorTypeRequired.
Proof.
  intros H0.
  apply (fold_left_keeps _
           (fun ix => In e (errors ix) ->
                      validation.Type_ e <> validation.ErrorTypeRequired));
    [exact H0 |].
  intros ix1 ig H1. unfold indexGroup.
  apply (fold_left_keeps _
           (fun ix => In e (errors ix) ->
                      validation.Type_ e <> validation.ErrorTypeRequired));
    [exact H1 |].
  intros ix2 jr H2. rewrite indexJob_errors.
  apply (fold_left_keeps _
           (fun st => In e st.2 ->
                      validation.Type_ e <> validation.ErrorTypeRequired));
    [exact H2 |].
  intros [byName errs0] [name provider] H. simpl.
  destruct (amap.get name _); simpl; [done |].
  intros [He | [<- | []]]%in_app_or; [by apply H | done].
Qed.

Lemma recordJobConsumers_no_Required m e :
  In e (recordJobConsumers m).2 ->
  validation.Type_ e <> validation.ErrorTypeRequired.
Proof.
  unfold recordJobConsumers.
  apply (fold_left_keeps _
           (fun st => In e st.2 ->
                      validation.Type_ e <> validation.ErrorTypeRequired));
    [done |].
  intros st cg H0. unfold recordGroup.
  apply (fold_left_keeps _
           (fun st => In e st.2 ->
                      validation.Type_ e <> validation.ErrorTypeRequired));
    [exact H0 |].
  intros st1 cj H1. unfold recordJob.
  apply (fold_left_keeps _
           (fun st => In e st.2 ->
                      validation.Type_ e <> validation.ErrorTypeRequired));
    [exact H1 |].
  intros [m2 errs2] [linkName consumer] H. unfold recordStep.
  destruct (LookupInstanceGroup m2 _) as [g|]; simpl.
  - destruct (LookupJob g _); simpl; [done |].
    intros [He | [<- | []]]%in_app_or; [by apply H | done].
  - intros [He | [<- | []]]%in_app_or; [by apply H | done].
Qed.

End diagnostics.

(** X5. When a job reference exports a provider under a name that its job
    specification does not make available, the list ResolveLinks returns
    holds the NotFound diagnostic for that name of that job, with the
    providers the specification does make available. *)
Theorem ResolveLinks_reports_unknown_export
    (ConvertNameToKey : string -> string) (m : resolver.RoleManifest.t)
    (ig : model.InstanceGroup.t) (jr : model.JobReference.t)
    (name : string) (provider : model.JobProvidesInfo.t) :
  In ig (resolver.RoleManifest.InstanceGroups m) ->
  In jr (model.InstanceGroup.JobReferences ig) ->
  In (name, provider) (model.JobReference.ExportedProvides jr) ->
  amap.get name (model.Job.AvailableProviders (model.JobReference.Job jr))
  = None ->
  In (validation.NotFound (resolver.providesField ig jr name)
        ("Provider not found; available providers: "
           +:+ resolver.Sprintf_v
                 (amap.keys
                    (model.Job.AvailableProviders (model.JobReference.Job jr)))))
     (resolver.ResolveLinks ConvertNameToKey m).2.
Proof.
  intros Hig Hjr Hentry Hnone. unfold resolver.ResolveLinks.
  pose proof (buildIndices_missing_provider ConvertNameToKey _ ig jr name
                provider Hig Hjr Hentry Hnone) as He.
  pose proof (resolveGroups_settled ConvertNameToKey
                (resolver.RoleManifest.InstanceGroups m)
                (resolver.RoleManifest.InstanceGroups m)
                (resolver.errors
                   (resolver.buildIndices ConvertNameToKey
                      (resolver.RoleManifest.InstanceGroups m))))
    as [Hmono _].
  destruct (resolver.resolveGroups _ _ _) as [groups errs].
  destruct (resolver.recordJobConsumers groups) as [groups' errs'].
  simpl in *. apply in_or_app. left. by apply Hmono.
Qed.

(** The job of A exports p2, and makes only p1 available. *)
Lemma ResolveLinks_reports_unknown_export_witness :
  In (validation.NotFound "instance_groups[A].jobs[pj].provides[p2]"
        "Provider not found; available providers: [p1]")
     (resolver.ResolveLinks sameName
        (resolver.RoleManifest.mk [groupOf "A" [exportsUnknown]])).2.
Proof.
  apply (ResolveLinks_reports_unknown_export sameName
           (resolver.RoleManifest.mk [groupOf "A" [exportsUnknown]])
           (groupOf "A" [exportsUnknown]) exportsUnknown "p2" providerP1).
  - by left.
  - by left.
  - by left.
  - reflexivity.
Defined.

(** X6. For every consumer entry the role manifest gives a job reference:
    when neither its alias nor its name is given, ResolveLinks returns the
    Invalid diagnostic "consumer has no name" for the job; when no provider
    is published under the alias (or, without alias, the name), it returns
    the NotFound diagnostic for that consumer of that job. *)
Theorem ResolveLinks_reports_unknown_consumer
    (ConvertNameToKey : string -> string) (m : resolver.RoleManifest.t)
    (ig : model.InstanceGroup.t) (jr : model.JobReference.t)
    (entry : string * model.JobConsumesInfo.t) :
  In ig (resolver.RoleManifest.InstanceGroups m) ->
  In jr (model.InstanceGroup.JobReferences ig) ->
  In entry (model.JobReference.ResolvedConsumes jr) ->
  (consumerAlias entry = EmptyString ->
   In (validation.Invalid (resolver.jobField ig jr) "name"
         "consumer has no name")
      (resolver.ResolveLinks ConvertNameToKey m).2)
  /\ (consumerAlias entry <> EmptyString ->
      resolver.providersByName
        (resolver.buildIndices ConvertNameToKey
           (resolver.RoleManifest.InstanceGroups m))
        !! consumerAlias entry = None ->
      In (validation.NotFound (resolver.consumesField ig jr entry.1)
            ("consumer " +:+ consumerAlias entry +:+ " not found"))
         (resolver.ResolveLinks ConvertNameToKey m).2).
Proof.
  intros Hig Hjr Hentry.
  assert (Hlift : forall e,
             (forall st,
                 In e (resolver.errs
                         (resolver.explicitStep
                            (resolver.buildIndices ConvertNameToKey
                               (resolver.RoleManifest.InstanceGroups m))
                            ig jr st entry))) ->
             In e (resolver.ResolveLinks ConvertNameToKey m).2).
  { intros e Hhere. unfold resolver.ResolveLinks.
    pose proof (resolveGroups_reaches ConvertNameToKey
                  (resolver.RoleManifest.InstanceGroups m)
                  (resolver.RoleManifest.InstanceGroups m) ig e Hig) as Hr.
    specialize (Hr (resolveJobs_reaches ConvertNameToKey _ ig _ jr e Hjr
                      (fun errs0 =>
                         resolveJob_explicit ConvertNameToKey _ ig jr entry e
                           errs0 Hentry Hhere))).
    specialize (Hr (resolver.errors
                      (resolver.buildIndices ConvertNameToKey
                         (resolver.RoleManifest.InstanceGroups m)))).
    destruct (resolver.resolveGroups _ _ _) as [groups errs].
    destruct (resolver.recordJobConsumers groups) as [groups' errs'].
    simpl in *. apply in_or_app. by left. }
  destruct entry as [consumerName consumerInfo].
  unfold consumerAlias. simpl. split.
  - intros Hempty. apply Hlift. intros st. unfold resolver.explicitStep.
    rewrite Hempty. simpl. apply in_or_app. right. by left.
  - intros Hne Hnone. apply Hlift. intros st. unfold resolver.explicitStep.
    apply String.eqb_neq in Hne. rewrite Hne, Hnone. simpl.
    apply in_or_app. right. by left.
Qed.

(** The role manifest asks, for the job of B, for the link q from
    "nowhere". *)
Lemma ResolveLinks_reports_unknown_consumer_witness :
  In (validation.NotFound "instance_group[B].job[cj].consumes[q]"
        "consumer nowhere not found")
     (resolver.ResolveLinks sameName
        (resolver.RoleManifest.mk
           [groupOf "A" [providerJob];
            groupOf "B" [consumerJob [] [("q", asksNowhere)]]])).2.
Proof.
  destruct (ResolveLinks_reports_unknown_consumer sameName
              (resolver.RoleManifest.mk
                 [groupOf "A" [providerJob];
                  groupOf "B" [consumerJob [] [("q", asksNowhere)]]])
              (groupOf "B" [consumerJob [] [("q", asksNowhere)]])
              (consumerJob [] [("q", asksNowhere)]) ("q", asksNowhere))
    as [_ Hnot].
  - right. by left.
  - by left.
  - by left.
  - apply Hnot; [discriminate | reflexivity].
Defined.

(** X7. Every diagnostic of kind Required that ResolveLinks returns is the
    one of a consumer that a job of the deployment declares, that is not
    optional and that is matched to no provider: an optional consumer, or
    one that is matched, is never reported as unresolved. *)
Theorem ResolveLinks_Required_only_when_needed
    (ConvertNameToKey : string -> string) (m : resolver.RoleManifest.t)
    (e : validation.Error string) :
  In e (resolver.ResolveLinks ConvertNameToKey m).2 ->
  validation.Type_ e = validation.ErrorTypeRequired ->
  unresolvedIn ConvertNameToKey (resolver.RoleManifest.InstanceGroups m) e.
Proof.
  unfold resolver.ResolveLinks.
  pose proof (resolveGroups_justified ConvertNameToKey
                (resolver.RoleManifest.InstanceGroups m)
                (resolver.RoleManifest.InstanceGroups m)
                (resolver.errors
                   (resolver.buildIndices ConvertNameToKey
                      (resolver.RoleManifest.InstanceGroups m)))
                (fun _ H => H)) as Hj.
  destruct (resolver.resolveGroups _ _ _) as [groups errs].
  pose proof (recordJobConsumers_no_Required groups e) as Hrec.
  destruct (resolver.recordJobConsumers groups) as [groups' errs'].
  simpl in *. intros [He | He]%in_app_or Ht.
  - apply Hj; [| done | done].
    intros e0 He0 Ht0. exfalso.
    by apply (buildIndices_no_Required ConvertNameToKey
                (resolver.RoleManifest.InstanceGroups m)
                (resolver.mkIndices ∅ ∅ []) e0).
  - by apply Hrec in He.
Qed.

(** With two providers of type T, the diagnostic is the one of the consumer
    of B. *)
Lemma ResolveLinks_Required_only_when_needed_witness :
  unresolvedIn sameName (resolver.RoleManifest.InstanceGroups twoProviders)
    (unresolved (groupOf "B" []) (consumerJob [] []) consumerOfT).
Proof.
  apply (ResolveLinks_Required_only_when_needed sameName twoProviders).
  - vm_compute. by left.
  - reflexivity.
Defined.

(** ** recordJobConsumers *)

Lemma find_updateFirst_same {A : Type} (p : A -> bool) (f : A -> A)
    (l : list A) :
  (forall x, p x = true -> p (f x) = true) ->
  List.find p (resolver.updateFirst p f l) = option_map f (List.find p l).
Proof.
  intros Hf. induction l as [|x l IH]; simpl; [done |].
  destruct (p x) eqn:E; simpl.
  - by rewrite (Hf x E).
  - by rewrite E.
Qed.

Lemma find_updateFirst_other {A : Type} (p q : A -> bool) (f : A -> A)
    (l : list A) :
  (forall x, p x = true -> q x = false /\ q (f x) = false) ->
  List.find q (resolver.updateFirst p f l) = List.find q l.
Proof.
  intros Hf. induction l as [|x l IH]; simpl; [done |].
  destruct (p x) eqn:E; simpl.
  - destruct (Hf x E) as [-> ->]. done.
  - by rewrite IH.
Qed.

Section recording.
Import model resolver.

(** An entry is not lost when another consumer is recorded. *)
Lemma addConsumedBy_keeps m roleName jobName linkName' info'
    linkName link info :
  recordedAt m linkName link info ->
  recordedAt (addConsumedBy roleName jobName linkName' info' m)
    linkName link info.
Proof.
  intros (pg & pj & Hg & Hj & Hin). unfold recordedAt, addConsumedBy.
  unfold LookupInstanceGroup, LookupJob in *.
  destruct (String.eqb roleName (JobLinkInfo.RoleName link)) eqn:Er.
  - apply String.eqb_eq in Er as ->.
    destruct (String.eqb jobName (JobLinkInfo.JobName link)) eqn:Ej.
    + apply String.eqb_eq in Ej as ->.
      eexists _, _. split; [| split].
      * rewrite find_updateFirst_same by done. rewrite Hg. reflexivity.
      * simpl. rewrite find_updateFirst_same by done. rewrite Hj. reflexivity.
      * simpl. destruct (String.eqb linkName' linkName) eqn:El.
        -- apply String.eqb_eq in El as ->. rewrite amap_get_set_eq. simpl.
           apply in_or_app. by left.
        -- apply String.eqb_neq in El. by rewrite amap_get_set_ne.
    + eexists _, pj. split; [| split; [| done]].
      * rewrite find_updateFirst_same by done. rewrite Hg. reflexivity.
      * simpl. rewrite find_updateFirst_other; [done |].
        intros x Hx. apply String.eqb_eq in Hx. simpl. rewrite Hx.
        by rewrite Ej.
  - exists pg, pj. split; [| done].
    rewrite find_updateFirst_other; [done |].
    intros x Hx. apply String.eqb_eq in Hx. simpl. rewrite Hx.
    by rewrite Er.
Qed.

Lemma recordStep_here cg cj entry st :
  recorded cg cj entry (recordStep cg cj st entry).
Proof.
  destruct st as [m errs], entry as [linkName consumer].
  unfold recorded, recordStep. simpl.
  destruct (LookupInstanceGroup m _) as [pg|] eqn:Eg.
  - destruct (LookupJob pg _) as [pj|] eqn:Ej.
    + left. simpl. unfold recordedAt, addConsumedBy.
      unfold LookupInstanceGroup, LookupJob in *.
      eexists _, _. split; [| split].
      * rewrite find_updateFirst_same by done. rewrite Eg. reflexivity.
      * simpl. rewrite find_updateFirst_same by done. rewrite Ej. reflexivity.
      * simpl. rewrite amap_get_set_eq. simpl. apply in_or_app. right. by left.
    + right. eexists. simpl. apply in_or_app. right. by left.
  - right. eexists. simpl. apply in_or_app. right. by left.
Qed.

Lemma recordStep_keeps cg cj entry cg' cj' entry' st :
  recorded cg cj entry st ->
  recorded cg cj entry (recordStep cg' cj' st entry').
Proof.
  destruct st as [m errs], entry' as [linkName' consumer'].
  unfold recorded, recordStep. simpl. intros H.
  destruct (LookupInstanceGroup m _) as [pg|].
  - destruct (LookupJob pg _) as [pj|]; simpl.
    + destruct H as [H | H]; [left; by apply addConsumedBy_keeps | by right].
    + destruct H as [H | [d H]]; [by left | right].
      exists d. apply in_or_app. by left.
  - simpl. destruct H as [H | [d H]]; [by left | right].
    exists d. apply in_or_app. by left.
Qed.

(** X8. For every resolved consumer of every job reference,
    [recordJobConsumers] either appends the consuming instance group and
    job to the list the provider job keeps under the name of the link,
    where later appends leave it, or returns an internal error that names
    the consumer. *)
Theorem recordJobConsumers_records_every_consumer
    (m : list InstanceGroup.t) (cg : InstanceGroup.t) (cj : JobReference.t)
    (linkName : string) (consumer : JobConsumesInfo.t) :
  In cg m -> In cj (InstanceGroup.JobReferences cg) ->
  In (linkName, consumer) (JobReference.ResolvedConsumes cj) ->
  recordedAt (recordJobConsumers m).1 linkName (JobConsumesInfo.Link consumer)
    (consumedBy cg cj consumer)
  \/ exists detail,
       In (validation.InternalError (consumesField cg cj linkName) detail)
          (recordJobConsumers m).2.
Proof.
  intros Hcg Hcj Hentry. unfold recordJobConsumers.
  apply (fold_left_reaches recordGroup
           (recorded cg cj (linkName, consumer)) m cg); [done | |].
  - intros st. unfold recordGroup.
    apply (fold_left_reaches (recordJob cg)
             (recorded cg cj (linkName, consumer)) _ cj); [done | |].
    + intros st1. unfold recordJob.
      apply (fold_left_reaches (recordStep cg cj)
               (recorded cg cj (linkName, consumer)) _ (linkName, consumer));
        [done | |].
      * intros st2. apply recordStep_here.
      * intros st2 y. apply recordStep_keeps.
    + intros st1 cj' H1. unfold recordJob.
      apply (fold_left_keeps _ (recorded cg cj (linkName, consumer)));
        [done |].
      intros st2 y. apply recordStep_keeps.
  - intros st cg' H0. unfold recordGroup.
    apply (fold_left_keeps _ (recorded cg cj (linkName, consumer))); [done |].
    intros st1 cj' H1. unfold recordJob.
    apply (fold_left_keeps _ (recorded cg cj (linkName, consumer))); [done |].
    intros st2 y. apply recordStep_keeps.
Qed.

End recording.

(** In scenario 3, after the links are resolved, the job of A lists the job
    of B as the consumer of p1. *)
Lemma recordJobConsumers_records_witness :
  let resolved :=
    [groupOf "A" [providerJob];
     groupOf "B"
       [consumerJob [consumerOfT]
          [("p1",
            model.JobConsumesInfo.mk
              (model.JobLinkInfo.mk "p1" "T" "A" "pj" "A-pj")
              EmptyString false false)]]] in
  recordedAt (resolver.recordJobConsumers resolved).1 "p1"
    (model.JobLinkInfo.mk "p1" "T" "A" "pj" "A-pj")
    (model.JobLinkInfo.mk "p1" "T" "B" "cj" "A-pj").
Proof.
  intros resolved.
  destruct (recordJobConsumers_records_every_consumer resolved
              (groupOf "B"
                 [consumerJob [consumerOfT]
                    [("p1",
                      model.JobConsumesInfo.mk
                        (model.JobLinkInfo.mk "p1" "T" "A" "pj" "A-pj")
                        EmptyString false false)]])
              (consumerJob [consumerOfT]
                 [("p1",
                   model.JobConsumesInfo.mk
                     (model.JobLinkInfo.mk "p1" "T" "A" "pj" "A-pj")
                     EmptyString false false)])
              "p1"
              (model.JobConsumesInfo.mk
                 (model.JobLinkInfo.mk "p1" "T" "A" "pj" "A-pj")
                 EmptyString false false))
    as [H | [detail H]].
  - right. by left.
  - by left.
  - by left.
  - exact H.
  - vm_compute in H. destruct H.
Defined.

(** ** The service emitter: ports and the list of services *)

Section ports.
Import model kube.

Variable RoleNameLabel : string.
Variable AppNameLabel : string.
Variable makeVarName : string -> string.
Variable ConvertNameToKey : string -> string.
Variable Build : ExportSettings.t -> string -> string -> string -> result helm.Node.
Variable newTypeMeta : string -> string -> helm.Node.

Local Abbreviation createPorts := (kube.createPorts makeVarName).
Local Abbreviation countedPorts := (kube.countedPorts makeVarName).
Local Abbreviation servicePorts := (kube.servicePorts makeVarName).
Local Abbreviation clusteringPorts := (kube.clusteringPorts makeVarName).
Local Abbreviation newService :=
  (kube.newService RoleNameLabel AppNameLabel makeVarName ConvertNameToKey Build).
Local Abbreviation newClusteringService :=
  (kube.newClusteringService RoleNameLabel AppNameLabel makeVarName Build).
Local Abbreviation jobServices :=
  (kube.jobServices RoleNameLabel AppNameLabel makeVarName ConvertNameToKey
     Build).
Local Abbreviation NewServiceList :=
  (kube.NewServiceList RoleNameLabel AppNameLabel makeVarName ConvertNameToKey
     Build newTypeMeta).

Lemma countedPorts_length settings serviceType roleName port n portIndex :
  List.length (countedPorts settings serviceType roleName port n portIndex) = n.
Proof.
  revert portIndex. induction n as [|n IH]; intros portIndex; simpl; [done |].
  by rewrite IH.
Qed.

Lemma createPorts_length settings serviceType roleName port :
  List.length (createPorts settings serviceType roleName port)
  = portEntries settings port.
Proof.
  unfold kube.createPorts, portEntries.
  destruct (ExportSettings.CreateHelmChart settings
            && JobExposedPort.CountIsConfigurable port); [done |].
  apply countedPorts_length.
Qed.

Lemma countedPorts_lookup serviceType roleName port n portIndex (i : nat) :
  (i < n)%nat ->
  countedPorts (ExportSettings.mk false) serviceType roleName port n portIndex
    !! i
  = Some (plainPort serviceType port (portIndex + Z.of_nat i)).
Proof.
  revert portIndex i. induction n as [|n IH]; intros portIndex i Hi; [lia |].
  destruct i as [|i].
  - simpl. rewrite Z.add_0_r. unfold plainPort.
    by destruct (isHeadless serviceType).
  - cbn [kube.countedPorts]. rewrite lookup_cons_ne_0 by done. simpl.
    rewrite IH by lia. do 2 f_equal. lia.
Qed.

(** X9. [createPorts] makes one templated entry for a port whose count the
    chart can configure, and otherwise one entry for every index below
    [Count], none when [Count] is not positive. Without a chart the entry
    at index [i] has the external port plus [i], the internal port plus
    [i] as target (0 for a headless service) and, when [Max] is above one,
    the name with [-i] behind it. *)
Theorem createPorts_one_entry_per_index
    (settings : ExportSettings.t) (serviceType : newServiceType)
    (roleName : string) (port : JobExposedPort.t) :
  List.length (createPorts settings serviceType roleName port)
  = portEntries settings port
  /\ (JobExposedPort.Count port <= 0 ->
      createPorts (ExportSettings.mk false) serviceType roleName port = [])
  /\ (forall i : nat,
        Z.of_nat i < JobExposedPort.Count port ->
        createPorts (ExportSettings.mk false) serviceType roleName port !! i
        = Some (plainPort serviceType port (Z.of_nat i))).
Proof.
  split; [apply createPorts_length |]. split.
  - intros Hc. apply length_zero_iff_nil. rewrite createPorts_length.
    unfold portEntries. simpl. lia.
  - intros i Hi. unfold kube.createPorts. simpl.
    rewrite countedPorts_lookup by lia. by rewrite Z.add_0_l.
Qed.

(** *** NewServiceList *)

Lemma concat_nil {A : Type} (l : list (list A)) :
  List.concat l = [] <-> Forall (fun x => x = []) l.
Proof.
  induction l as [|x l IH]; simpl.
  - split; [constructor | done].
  - split.
    + intros [-> Hl]%app_eq_nil. constructor; [done | by apply IH].
    + intros H. inversion H as [|? ? -> Hl]; subst. simpl. by apply IH.
Qed.

Lemma createPorts_nil settings serviceType roleName port :
  createPorts settings serviceType roleName port = []
  <-> portEntries settings port = O.
Proof. by rewrite <- length_zero_iff_nil, createPorts_length. Qed.

Lemma servicePorts_no_entries role job serviceType settings :
  noPortEntries settings job -> servicePorts role job serviceType settings = [].
Proof.
  intros Hno. unfold kube.servicePorts. apply concat_nil.
  apply List.Forall_forall. intros x (port & <- & Hport)%in_map_iff.
  destruct (isPublic serviceType && negb (JobExposedPort.Public port)); [done |].
  apply createPorts_nil. unfold noPortEntries in Hno.
  rewrite List.Forall_forall in Hno. by apply Hno.
Qed.

Lemma servicePorts_private role job settings :
  servicePorts role job newServiceTypePrivate settings = []
  <-> noPortEntries settings job.
Proof.
  split; [| apply servicePorts_no_entries].
  unfold kube.servicePorts. rewrite concat_nil. intros Hall.
  apply List.Forall_forall. intros port Hport.
  rewrite List.Forall_forall in Hall.
  apply (createPorts_nil settings newServiceTypePrivate (InstanceGroup.Name role)).
  apply (Hall (createPorts settings newServiceTypePrivate
                 (InstanceGroup.Name role) port)).
  apply in_map_iff. by exists port.
Qed.

Lemma clusteringPorts_no_entries role settings :
  Forall (noPortEntries settings) (InstanceGroup.JobReferences role) ->
  clusteringPorts role settings = [].
Proof.
  intros Hall. unfold kube.clusteringPorts. apply concat_nil.
  apply List.Forall_forall. intros x (job & <- & Hjob)%in_map_iff.
  apply (servicePorts_no_entries role job newServiceTypeHeadless settings).
  rewrite List.Forall_forall in Hall. by apply Hall.
Qed.

Lemma newService_no_ports role job serviceType settings :
  servicePorts role job serviceType settings = [] ->
  newService role job serviceType settings = Ok None.
Proof. intros E. unfold kube.newService. by rewrite E. Qed.

(** A service that has ports is the document [Build] returns with its
    spec, or the error of [Build]. *)
Lemma newService_some role job serviceType settings :
  servicePorts role job serviceType settings <> [] ->
  (exists svc, newService role job serviceType settings = Ok (Some svc))
  \/ (exists name e,
        Build settings "v1" "Service" name = Err e
        /\ newService role job serviceType settings
           = Err ("failed to build a new kube config: " +:+ e)).
Proof.
  intros Hne. unfold kube.newService.
  destruct (servicePorts role job serviceType settings) as [|p ps]; [done |].
  match goal with
  | |- context [Build settings "v1" "Service" ?n] =>
      destruct (Build settings "v1" "Service" n) as [service|e] eqn:Eb
  end.
  - left. destruct (ExportSettings.CreateHelmChart settings
                    && isPublic serviceType); eauto.
  - right. eauto.
Qed.

Lemma newClusteringService_some role settings :
  clusteringPorts role settings <> [] ->
  (exists svc, newClusteringService role settings = Ok (Some svc))
  \/ (exists name e,
        Build settings "v1" "Service" name = Err e
        /\ newClusteringService role settings
           = Err ("failed to build a new kube config: " +:+ e)).
Proof.
  intros Hne. unfold kube.newClusteringService.
  destruct (clusteringPorts role settings) as [|p ps]; [done |].
  match goal with
  | |- context [Build settings "v1" "Service" ?n] =>
      destruct (Build settings "v1" "Service" n) as [service|e] eqn:Eb
  end; eauto.
Qed.

Lemma jobServices_no_entries role clustering settings jobs items :
  Forall (noPortEntries settings) jobs ->
  jobServices role clustering settings jobs items = Ok items.
Proof.
  intros Hall. induction Hall as [|job jobs Hjob Hall IH]; [done |].
  cbn [kube.jobServices].
  rewrite !newService_no_ports by by apply servicePorts_no_entries.
  destruct clustering; simpl; apply IH.
Qed.

(** What a service contributes to the items. *)
Lemma newService_cases role job serviceType settings :
  (newService role job serviceType settings = Ok None
   /\ servicePorts role job serviceType settings = [])
  \/ (exists svc, newService role job serviceType settings = Ok (Some svc))
  \/ (exists name e,
        Build settings "v1" "Service" name = Err e
        /\ newService role job serviceType settings
           = Err ("failed to build a new kube config: " +:+ e)).
Proof.
  destruct (servicePorts role job serviceType settings) as [|p ps] eqn:E.
  - left. split; [| done]. by apply newService_no_ports.
  - right. apply newService_some. by rewrite E.
Qed.

Lemma jobServices_cases role clustering settings jobs items :
  (exists items',
      jobServices role clustering settings jobs items = Ok items'
      /\ (items' = [] <-> items = [] /\ Forall (noPortEntries settings) jobs))
  \/ (exists name e,
        Build settings "v1" "Service" name = Err e
        /\ jobServices role clustering settings jobs items
           = Err ("failed to build a new kube config: " +:+ e)).
Proof.
  revert items. induction jobs as [|job jobs IH]; intros items.
  - left. exists items. split; [done |]. split; [by split | by intros [? _]].
  - cbn [kube.jobServices].
    assert (Hhead :
      (exists items1,
          (if clustering
           then bind (newService role job newServiceTypeHeadless settings)
                  (fun svc => Ok (appendService items svc))
           else Ok items) = Ok items1
          /\ (items1 = [] -> items = [])
          /\ (items = [] -> noPortEntries settings job -> items1 = []))
      \/ (exists name e,
            Build settings "v1" "Service" name = Err e
            /\ (if clustering
                then bind (newService role job newServiceTypeHeadless settings)
                       (fun svc => Ok (appendService items svc))
                else Ok items)
               = Err ("failed to build a new kube config: " +:+ e))).
    { destruct clustering; [| left; by exists items].
      destruct (newService_cases role job newServiceTypeHeadless settings)
        as [[E _] | [[svc E] | (name & e & Eb & E)]]; rewrite E; simpl.
      - left. by exists items.
      - left. exists (items ++ [svc]). split; [done |]. split.
        + by intros [? ?]%app_eq_nil.
        + intros -> Hno.
          pose proof (servicePorts_no_entries role job newServiceTypeHeadless
                        settings Hno) as Hn.
          apply (newService_no_ports role job) in Hn. congruence.
      - right. by exists name, e. }
    destruct Hhead as [(items1 & -> & H1 & H1') | (name & e & Eb & ->)];
      [| right; by exists name, e].
    cbn [bind].
    destruct (newService_cases role job newServiceTypePrivate settings)
      as [[-> Hpriv] | [[svc Es] | (name & e & Eb & ->)]];
      [| | right; by exists name, e].
    + apply servicePorts_private in Hpriv. cbn [bind appendService].
      rewrite (newService_no_ports role job newServiceTypePublic)
        by by apply servicePorts_no_entries.
      cbn [bind appendService].
      destruct (IH items1) as [(items' & -> & Hiff) | Herr]; [| by right].
      left. exists items'. split; [done |]. rewrite Hiff. split.
      * intros [Hi Hall]. split; [auto |]. by constructor.
      * intros [Hi Hall]. inversion Hall; subst. split; [auto | done].
    + rewrite Es. cbn [bind appendService].
      assert (Hports : ~ noPortEntries settings job).
      { intros Hno. apply (servicePorts_no_entries role job newServiceTypePrivate)
          in Hno. apply (newService_no_ports role job) in Hno. congruence. }
      destruct (newService_cases role job newServiceTypePublic settings)
        as [[-> _] | [[svc' ->] | (name & e & Eb & ->)]];
        [| | right; by exists name, e]; cbn [bind appendService].
      * destruct (IH (items1 ++ [svc])) as [(items' & -> & Hiff) | Herr];
          [| by right].
        left. exists items'. split; [done |]. rewrite Hiff. split.
        -- by intros [[? ?]%app_eq_nil _].
        -- intros [_ Hall]. inversion Hall; subst. done.
      * destruct (IH ((items1 ++ [svc]) ++ [svc']))
          as [(items' & -> & Hiff) | Herr]; [| by right].
        left. exists items'. split; [done |]. rewrite Hiff. split.
        -- by intros [[? ?]%app_eq_nil _].
        -- intros [_ Hall]. inversion Hall; subst. done.
Qed.

(** X10. [NewServiceList] returns no document and no error when no port of
    any job of the instance group yields an entry. Any error it returns is
    the one of the document builder behind "failed to build a new kube
    config: "; and when it returns without error, there is a list exactly
    when some port of some job yields an entry. *)
Theorem NewServiceList_empty_or_list
    (role : InstanceGroup.t) (clustering : bool) (settings : ExportSettings.t) :
  (Forall (noPortEntries settings) (InstanceGroup.JobReferences role) ->
   NewServiceList role clustering settings = Ok None)
  /\ (forall msg,
        NewServiceList role clustering settings = Err msg ->
        exists name e,
          Build settings "v1" "Service" name = Err e
          /\ msg = "failed to build a new kube config: " +:+ e)
  /\ (forall list,
        NewServiceList role clustering settings = Ok list ->
        (list = None
         <-> Forall (noPortEntries settings) (InstanceGroup.JobReferences role)))
  /\ ((forall name, exists node, Build settings "v1" "Service" name = Ok node) ->
      exists list, NewServiceList role clustering settings = Ok list).
Proof.
  assert (Hall :
    (exists list,
        NewServiceList role clustering settings = Ok list
        /\ (list = None
            <-> Forall (noPortEntries settings)
                  (InstanceGroup.JobReferences role)))
    \/ (exists name e,
          Build settings "v1" "Service" name = Err e
          /\ NewServiceList role clustering settings
             = Err ("failed to build a new kube config: " +:+ e))).
  { unfold kube.NewServiceList.
    assert (Hhead :
      (exists items0,
          (if clustering
           then bind (newClusteringService role settings)
                  (fun svc => Ok (appendService [] svc))
           else Ok []) = Ok items0
          /\ (Forall (noPortEntries settings)
                (InstanceGroup.JobReferences role) -> items0 = []))
      \/ (exists name e,
            Build settings "v1" "Service" name = Err e
            /\ (if clustering
                then bind (newClusteringService role settings)
                       (fun svc => Ok (appendService [] svc))
                else Ok [])
               = Err ("failed to build a new kube config: " +:+ e))).
    { destruct clustering; [| left; by exists []].
      destruct (clusteringPorts role settings) as [|p ps] eqn:Ec.
      - left. exists []. unfold kube.newClusteringService. by rewrite Ec.
      - destruct (newClusteringService_some role settings)
          as [[svc ->] | (name & e & Eb & ->)]; [by rewrite Ec | |].
        + left. exists [svc]. split; [done |]. intros Hno.
          apply clusteringPorts_no_entries in Hno. congruence.
        + right. by exists name, e. }
    destruct Hhead as [(items0 & -> & H0) | (name & e & Eb & ->)];
      [| right; by exists name, e].
    cbn [bind].
    destruct (jobServices_cases role clustering settings
                (InstanceGroup.JobReferences role) items0)
      as [(items & -> & Hiff) | (name & e & Eb & ->)];
      [| right; by exists name, e].
    cbn [bind]. left. destruct items as [|i items].
    - exists None. split; [done |]. split; [| done].
      intros _. by apply Hiff.
    - eexists. split; [done |]. split; [done |].
      intros Hno. exfalso.
      assert ((i :: items) = []) by (apply Hiff; auto). done. }
  split; [| split; [| split]].
  - intros Hno. unfold kube.NewServiceList.
    assert (newClusteringService role settings = Ok None) as Hc.
    { unfold kube.newClusteringService.
      by rewrite (clusteringPorts_no_entries role settings Hno). }
    destruct clustering; [rewrite Hc |]; cbn [bind appendService];
      by rewrite (jobServices_no_entries role _ settings _ _ Hno).
  - intros msg E. destruct Hall as [(list & E' & _) | (name & e & Eb & E')];
      [congruence |].
    exists name, e. split; [done | congruence].
  - intros list E. destruct Hall as [(list' & E' & Hiff) | (name & e & Eb & E')];
      [| congruence].
    assert (list' = list) as -> by congruence. done.
  - intros Hb. destruct Hall as [(list & E & _) | (name & e & Eb & _)];
      [by exists list |].
    destruct (Hb name) as [node Hn]. congruence.
Qed.

End ports.

(** The last of three ports: http-2, 82 to 8082. *)
Lemma createPorts_one_entry_per_index_witness :
  kube.createPorts sameName (kube.ExportSettings.mk false)
    kube.newServiceTypePrivate "web" threePorts !! 2%nat
  = Some (helm.Mapping
            [("name", helm.Scalar "http-2" EmptyString);
             ("port", helm.Number 82);
             ("protocol", helm.Scalar "TCP" EmptyString);
             ("targetPort", helm.Number 8082)]
            EmptyString).
Proof.
  destruct (createPorts_one_entry_per_index sameName
              (kube.ExportSettings.mk false) kube.newServiceTypePrivate "web"
              threePorts) as (_ & _ & Hentry).
  rewrite (Hentry 2%nat); [reflexivity | simpl; lia].
Defined.

(** The only port of the job is exposed no times: no list of services. *)
Lemma NewServiceList_empty_or_list_witness :
  kube.NewServiceList "app.kubernetes.io/component" "app" sameName sameName
    buildService (fun apiVersion kind => helm.NewMapping [])
    (groupOf "web" [jobWithPorts [noPorts]]) true (kube.ExportSettings.mk false)
  = Ok None.
Proof.
  destruct (NewServiceList_empty_or_list "app.kubernetes.io/component" "app"
              sameName sameName buildService
              (fun apiVersion kind => helm.NewMapping [])
              (groupOf "web" [jobWithPorts [noPorts]]) true
              (kube.ExportSettings.mk false)) as [Hnone _].
  apply Hnone. repeat constructor.
Defined.

(** ** Signatures: their form, and the order of the templates *)

Lemma hex_digit_isHexDigit (n : Z) : isHexDigit (SHA1.hex_digit n) = true.
Proof.
  unfold SHA1.hex_digit. generalize (Z.to_nat n). intros k.
  do 16 (destruct k as [|k]; [reflexivity |]). by destruct k.
Qed.

Lemma hex_EncodeToString_form (bs : list Z) :
  String.length (SHA1.hex_EncodeToString bs) = (2 * List.length bs)%nat
  /\ forallb isHexDigit (list_ascii_of_string (SHA1.hex_EncodeToString bs))
     = true.
Proof.
  induction bs as [|b bs [IH1 IH2]]; [done |].
  cbn [SHA1.hex_EncodeToString String.length list_ascii_of_string forallb
       List.length].
  rewrite IH1, IH2, !hex_digit_isHexDigit. split; [lia | done].
Qed.

Lemma sum_length (msg : list Z) : List.length (SHA1.sum msg) = 20%nat.
Proof. unfold SHA1.sum. by rewrite !length_app. Qed.

(** X11. Whatever the signatures, [AggregateSignatures] returns forty
    digits of lowercase hexadecimal. *)
Theorem AggregateSignatures_is_a_hex_digest (signatures : list string) :
  String.length (model.AggregateSignatures signatures) = 40%nat
  /\ forallb isHexDigit
       (list_ascii_of_string (model.AggregateSignatures signatures))
     = true.
Proof.
  unfold model.AggregateSignatures, SHA1.hexdigest.
  destruct (hex_EncodeToString_form
              (SHA1.sum (SHA1.bytes_of_string (model.hashed_bytes signatures))))
    as [Hlen Hhex].
  rewrite sum_length in Hlen. by split.
Qed.

(** *** The order of the bytes on strings *)

Lemma ascii_compare_trans (a b c : ascii) (o : comparison) :
  Ascii.compare a b = o -> Ascii.compare b c = o -> Ascii.compare a c = o.
Proof.
  unfold Ascii.compare. intros H1 H2. destruct o.
  - apply N.compare_eq_iff in H1, H2. apply N.compare_eq_iff. congruence.
  - exact (N.lt_trans _ _ _ H1 H2).
  - apply N.lt_gt. exact (N.lt_trans _ _ _ (N.gt_lt _ _ H2) (N.gt_lt _ _ H1)).
Qed.

Lemma ascii_compare_eq (a b : ascii) : Ascii.compare a b = Eq -> a = b.
Proof.
  unfold Ascii.compare. intros H%N.compare_eq_iff.
  rewrite <- (ascii_N_embedding a), <- (ascii_N_embedding b). by rewrite H.
Qed.

Lemma string_compare_not_Gt_trans (s t u : string) :
  String.compare s t <> Gt -> String.compare t u <> Gt ->
  String.compare s u <> Gt.
Proof.
  revert t u. induction s as [|a s IH]; intros [|b t] [|c u]; simpl;
    try done.
  destruct (Ascii.compare a b) eqn:Eab; [| |done];
    destruct (Ascii.compare b c) eqn:Ebc; try done.
  - rewrite (ascii_compare_trans a b c Eq Eab Ebc). apply IH.
  - apply ascii_compare_eq in Eab as ->. by rewrite Ebc.
  - apply ascii_compare_eq in Ebc as <-. by rewrite Eab.
  - by rewrite (ascii_compare_trans a b c Lt Eab Ebc).
Qed.

Lemma bytesLe_compare (s t : string) : bytesLe s t <-> String.compare s t <> Gt.
Proof.
  unfold bytesLe, String.leb. by destruct (String.compare s t).
Qed.

#[local] Instance bytesLe_trans : Transitive bytesLe.
Proof.
  intros s t u. rewrite !bytesLe_compare. apply string_compare_not_Gt_trans.
Qed.

#[local] Instance bytesLe_antisym : AntiSymm eq bytesLe.
Proof. intros s t. apply String.leb_antisym. Qed.

Lemma insertString_Permutation (s : string) (l : list string) :
  model.insertString s l ≡ₚ s :: l.
Proof.
  induction l as [|x l IH]; simpl; [done |].
  destruct (String.leb s x); [done |]. rewrite IH. apply Permutation_swap.
Qed.

Lemma sort_Strings_Permutation (l : list string) : model.sort_Strings l ≡ₚ l.
Proof.
  induction l as [|x l IH]; simpl; [done |].
  by rewrite insertString_Permutation, IH.
Qed.

Lemma insertString_sorted (s : string) (l : list string) :
  StronglySorted bytesLe l -> StronglySorted bytesLe (model.insertString s l).
Proof.
  induction 1 as [|x l Hl IH Hx]; simpl; [repeat constructor |].
  destruct (String.leb s x) eqn:E.
  - constructor; [by constructor |]. constructor; [done |].
    eapply Forall_impl; [exact Hx |]. intros y Hy. by transitivity x.
  - constructor; [done |].
    rewrite insertString_Permutation. constructor; [| done].
    destruct (String.leb_total s x) as [H | H]; [congruence | done].
Qed.

Lemma sort_Strings_sorted (l : list string) :
  StronglySorted bytesLe (model.sort_Strings l).
Proof.
  induction l as [|x l IH]; simpl; [constructor | by apply insertString_sorted].
Qed.

(** What [sort.Strings] returns does not depend on the order it is given. *)
Lemma sort_Strings_order (l1 l2 : list string) :
  l1 ≡ₚ l2 -> model.sort_Strings l1 = model.sort_Strings l2.
Proof.
  intros Hp. apply (StronglySorted_unique bytesLe);
    [apply sort_Strings_sorted.. |].
  by rewrite !sort_Strings_Permutation.
Qed.

(** X12. [GetTemplateSignatures] ranges over a map, whose order Go leaves
    open: the signature is the same in whatever order the templates are
    visited. *)
Theorem GetTemplateSignatures_ignores_map_order
    (Templates Templates' : amap.t model.ConfigurationTemplate.t) :
  Templates ≡ₚ Templates' ->
  model.GetTemplateSignatures Templates
  = model.GetTemplateSignatures Templates'.
Proof.
  intros Hp. unfold model.GetTemplateSignatures.
  rewrite (sort_Strings_order (List.map model.templateLine Templates)
             (List.map model.templateLine Templates')); [done |].
  by apply Permutation_map.
Qed.

Lemma GetTemplateSignatures_ignores_map_order_witness :
  model.GetTemplateSignatures [templateA; templateB]
  = model.GetTemplateSignatures [templateB; templateA].
Proof.
  apply GetTemplateSignatures_ignores_map_order. apply Permutation_swap.
Defined.

(** ** The properties of the jobs of a release and of an instance group *)

Lemma fold_left_flat_map {S J P : Type} (step : J -> S -> P -> S)
    (items : J -> list P) (jobs : list J) (s : S) :
  fold_left (fun s job => fold_left (step job) (items job) s) jobs s
  = fold_left (fun s jp => step jp.1 s jp.2)
      (flat_map (fun job => List.map (pair job) (items job)) jobs) s.
Proof.
  revert s. induction jobs as [|job jobs IH]; intros s; simpl; [done |].
  rewrite fold_left_app, IH. f_equal.
  generalize (items job). intros l. revert s.
  induction l as [|p l IHl]; intros s; simpl; [done | apply IHl].
Qed.

Lemma filter_snoc {A : Type} (p : A -> bool) (l : list A) (x : A) :
  List.filter p (l ++ [x])
  = List.filter p l ++ (if p x then [x] else []).
Proof. rewrite List.filter_app. simpl. by destruct (p x). Qed.

Lemma int_wrap_succ (a : Z) :
  model.int_wrap (model.int_wrap a + 1) = model.int_wrap (a + 1).
Proof.
  unfold model.int_wrap. f_equal.
  replace ((a + 2 ^ 63) mod 2 ^ 64 - 2 ^ 63 + 1 + 2 ^ 63)
    with ((a + 2 ^ 63) mod 2 ^ 64 + 1) by lia.
  rewrite Zplus_mod_idemp_l. f_equal. lia.
Qed.

Section configs.
Import model.

Lemma uniqueConfigs_fold (name : string) (l : list (Job.t * JobProperty.t)) :
  fold_left (fun s jp => uniqueConfigStep jp.1 s jp.2) l ∅ !! name
  = configOf name (List.filter (named name) l).
Proof.
  induction l as [|[job property] l IH] using rev_ind; [done |].
  rewrite fold_left_app, filter_snoc. cbn [fold_left fst snd].
  unfold named at 2. cbn [snd].
  set (result := fold_left _ l ∅) in *.
  destruct (String.eqb (JobProperty.Name property) name) eqn:En.
  - apply String.eqb_eq in En. subst name.
    unfold uniqueConfigStep. rewrite IH.
    destruct (List.filter _ l) as [|[job0 property0] rest]; cbn [configOf app].
    + by rewrite lookup_insert_eq.
    + rewrite lookup_insert_eq. cbn [ReleaseConfig.Name ReleaseConfig.Jobs
        ReleaseConfig.UsageCount ReleaseConfig.Description].
      rewrite int_wrap_succ, List.map_app. cbn [List.map fst].
      do 3 f_equal. rewrite !length_cons, length_app. simpl. lia.
  - apply String.eqb_neq in En. rewrite app_nil_r, <- IH.
    unfold uniqueConfigStep.
    destruct (result !! JobProperty.Name property);
      by rewrite lookup_insert_ne.
Qed.

(** X13. For every name, [GetUniqueConfigs] holds a config exactly when a
    property of that name occurs in a job of the release: it lists the jobs
    of all the occurrences in order, counts them, and carries the
    description of the first. *)
Theorem GetUniqueConfigs_counts_occurrences (Jobs : list Job.t) (name : string) :
  GetUniqueConfigs Jobs !! name
  = configOf name (List.filter (named name) (jobProperties Job.Properties Jobs)).
Proof.
  unfold GetUniqueConfigs, jobProperties.
  rewrite (fold_left_flat_map uniqueConfigStep Job.Properties).
  apply uniqueConfigs_fold.
Qed.

Variable Sprintf_v : Value -> string.

Lemma propertyDefaults_fold (name : string)
    (l : list (JobReference.t * JobProperty.t)) :
  match fold_left (fun s jp => propertyDefaultStep Sprintf_v jp.1 s jp.2) l ∅
          !! name with
  | None => List.filter (named name) l = []
  | Some info =>
      List.filter (named name) l <> []
      /\ infoOf Sprintf_v (List.filter (named name) l) info
  end.
Proof.
  induction l as [|[job property] l IH] using rev_ind; [done |].
  rewrite fold_left_app, filter_snoc. cbn [fold_left fst snd].
  change (named name (job, property))
    with (String.eqb (JobProperty.Name property) name).
  set (result := fold_left _ l ∅) in *.
  destruct (String.eqb (JobProperty.Name property) name) eqn:En.
  - apply String.eqb_eq in En. subst name.
    unfold propertyDefaultStep. rewrite lookup_insert_eq.
    split; [by destruct (List.filter _ l) |].
    set (occ := List.filter _ l) in *.
    assert (Hinfo : infoOf Sprintf_v occ
                      match result !! JobProperty.Name property with
                      | Some info => info
                      | None => PropertyInfo.mk false ∅
                      end).
    { destruct (result !! JobProperty.Name property) as [info|];
        [by destruct IH |].
      rewrite IH. split; [done |]. intros text.
      cbn [PropertyInfo.Defaults]. by rewrite lookup_empty. }
    destruct Hinfo as [Hm Hd].
    set (info := match result !! JobProperty.Name property with
                 | Some info => info
                 | None => PropertyInfo.mk false ∅
                 end) in *.
    split.
    + rewrite existsb_app. cbn [existsb snd]. rewrite orb_false_r, <- Hm.
      destruct (maybeHash (JobProperty.Default property)); simpl;
        [by rewrite orb_true_r | by rewrite orb_false_r].
    + intros text. rewrite filter_snoc, List.map_app. cbn [snd].
      assert (Hlook :
        default []
          (<[Sprintf_v (JobProperty.Default property) :=
               default [] (PropertyInfo.Defaults info
                             !! Sprintf_v (JobProperty.Default property))
                 ++ [JobReference.Job job]]> (PropertyInfo.Defaults info)
             !! text)
        = List.map (fun jp => JobReference.Job jp.1)
            (List.filter
               (fun jp => String.eqb (Sprintf_v (JobProperty.Default jp.2)) text)
               occ)
          ++ List.map (fun jp => JobReference.Job jp.1)
               (if String.eqb (Sprintf_v (JobProperty.Default property)) text
                then [(job, property)] else [])).
      { destruct (String.eqb (Sprintf_v (JobProperty.Default property)) text)
          eqn:Et.
        - apply String.eqb_eq in Et. subst text.
          rewrite lookup_insert_eq. simpl. by rewrite Hd.
        - apply String.eqb_neq in Et. rewrite lookup_insert_ne by done.
          simpl. by rewrite app_nil_r, Hd. }
      by destruct (maybeHash (JobProperty.Default property)).
  - apply String.eqb_neq in En. rewrite app_nil_r.
    unfold propertyDefaultStep. by rewrite lookup_insert_ne.
Qed.

(** X14. For every name, [CollectPropertyDefaults] holds an entry exactly
    when a property of that name occurs in a job of the instance group; the
    entry may be a hash exactly when one of the occurrences has no default
    or a map as default, and under every text it lists, in order, the jobs
    whose default is printed as that text. *)
Theorem CollectPropertyDefaults_collects
    (JobReferences : list JobReference.t) (name : string) :
  let occurrences :=
    List.filter (named name)
      (jobProperties (fun job => Job.Properties (JobReference.Job job))
         JobReferences) in
  match CollectPropertyDefaults Sprintf_v JobReferences !! name with
  | None => occurrences = []
  | Some info => occurrences <> [] /\ infoOf Sprintf_v occurrences info
  end.
Proof.
  unfold CollectPropertyDefaults, jobProperties.
  rewrite (fold_left_flat_map (propertyDefaultStep Sprintf_v)
             (fun job => Job.Properties (JobReference.Job job))).
  apply propertyDefaults_fold.
Qed.

End configs.

(** ** CalculateRoleConfigurationTemplates *)

Section templating.
Import model.

Variable Sprintf_v : Value -> string.

Lemma find_app {A : Type} (p : A -> bool) (l1 l2 : list A) :
  List.find p (l1 ++ l2)
  = match List.find p l1 with
    | Some x => Some x
    | None => List.find p l2
    end.
Proof.
  induction l1 as [|x l1 IH]; simpl; [done |]. by destruct (p x).
Qed.

Lemma ownTemplates_written (raw : list (Value * Value))
    (Templates : amap.t ConfigurationTemplate.t) :
  stringKeys raw ->
  exists Templates',
    ownTemplates Sprintf_v raw Templates = Returns Templates'
    /\ forall k,
         amap.get k Templates'
         = match List.find (keyIs k) (List.rev raw) with
           | Some item =>
               Some (ConfigurationTemplate.mk (Sprintf_v item.2) false)
           | None => amap.get k Templates
           end.
Proof.
  intros Hkeys. revert Templates.
  induction Hkeys as [|[key v] raw [k0 Hk] _ IH]; intros Templates.
  - by exists Templates.
  - simpl in Hk. subst key. cbn [ownTemplates].
    destruct (IH (amap.set k0 (ConfigurationTemplate.mk (Sprintf_v v) false)
                    Templates)) as (T & -> & Hget).
    exists T. split; [done |]. intros k. rewrite Hget. cbn [List.rev].
    rewrite find_app. destruct (List.find (keyIs k) (List.rev raw)); [done |].
    cbn [List.find]. unfold keyIs at 1. cbn [fst snd].
    destruct (String.eqb k0 k) eqn:E.
    + apply String.eqb_eq in E as ->. by rewrite amap_get_set_eq.
    + apply String.eqb_neq in E. by rewrite amap_get_set_ne.
Qed.

Lemma globalTemplates_written (raw : list (Value * Value))
    (Templates : amap.t ConfigurationTemplate.t) :
  stringKeys raw ->
  exists Templates',
    globalTemplates Sprintf_v raw Templates = Returns Templates'
    /\ forall k,
         amap.get k Templates'
         = match amap.get k Templates with
           | Some template => Some template
           | None =>
               match List.find (keyIs k) raw with
               | Some item =>
                   Some (ConfigurationTemplate.mk (Sprintf_v item.2) true)
               | None => None
               end
           end.
Proof.
  intros Hkeys. revert Templates.
  induction Hkeys as [|[key v] raw [k0 Hk] _ IH]; intros Templates.
  - exists Templates. split; [done |]. intros k.
    by destruct (amap.get k Templates).
  - simpl in Hk. subst key. cbn [globalTemplates].
    destruct (IH (match amap.get k0 Templates with
                  | Some _ => Templates
                  | None =>
                      amap.set k0
                        (ConfigurationTemplate.mk (Sprintf_v v) true) Templates
                  end)) as (T & -> & Hget).
    exists T. split; [done |]. intros k. rewrite Hget.
    cbn [List.find]. unfold keyIs at 2. cbn [fst snd].
    destruct (String.eqb k0 k) eqn:E.
    + apply String.eqb_eq in E as ->.
      destruct (amap.get k Templates) eqn:Ek; [by rewrite Ek |].
      by rewrite amap_get_set_eq.
    + apply String.eqb_neq in E.
      destruct (amap.get k0 Templates); [done |].
      by rewrite amap_get_set_ne.
Qed.

Lemma ownTemplates_panics (raw : list (Value * Value))
    (Templates : amap.t ConfigurationTemplate.t) :
  ~ stringKeys raw -> exists msg, ownTemplates Sprintf_v raw Templates = Panics msg.
Proof.
  revert Templates. induction raw as [|[key v] raw IH]; intros Templates Hno.
  - exfalso. apply Hno. constructor.
  - destruct key; try (eexists; reflexivity).
    cbn [ownTemplates]. apply IH. intros Hk. apply Hno.
    constructor; [by eexists | done].
Qed.

Lemma globalTemplates_panics (raw : list (Value * Value))
    (Templates : amap.t ConfigurationTemplate.t) :
  ~ stringKeys raw ->
  exists msg, globalTemplates Sprintf_v raw Templates = Panics msg.
Proof.
  revert Templates. induction raw as [|[key v] raw IH]; intros Templates Hno.
  - exfalso. apply Hno. constructor.
  - destruct key; try (eexists; reflexivity).
    cbn [globalTemplates]. apply IH. intros Hk. apply Hno.
    constructor; [by eexists | done].
Qed.

(** X15. When every key of the raw templates is a string,
    [CalculateRoleConfigurationTemplates] gives every name the last raw
    template of that name of the instance group, not global, or else the
    first one of the role manifest, global, and no template to any other
    name. When a key is not a string it panics. *)
Theorem CalculateRoleConfigurationTemplates_precedence
    (own global : list (Value * Value)) :
  (stringKeys own -> stringKeys global ->
   exists Templates,
     CalculateRoleConfigurationTemplates Sprintf_v own global
     = Returns Templates
     /\ forall k, amap.get k Templates = templateOf Sprintf_v own global k)
  /\ (~ (stringKeys own /\ stringKeys global) ->
      exists msg,
        CalculateRoleConfigurationTemplates Sprintf_v own global = Panics msg).
Proof.
  unfold CalculateRoleConfigurationTemplates. split.
  - intros Hown Hglobal.
    destruct (ownTemplates_written own [] Hown) as (T1 & -> & H1).
    destruct (globalTemplates_written global T1 Hglobal) as (T2 & -> & H2).
    exists T2. split; [done |]. intros k. rewrite H2, H1. unfold templateOf.
    by destruct (List.find (keyIs k) (List.rev own)).
  - intros Hno.
    destruct (ownTemplates Sprintf_v own []) as [T1|msg] eqn:E1;
      [| by exists msg].
    apply globalTemplates_panics. intros Hglobal. apply Hno. split; [| done].
    clear Hno. revert E1. generalize (@nil (string * ConfigurationTemplate.t)).
    induction own as [|[key v] own IH]; intros T0 E1; [constructor |].
    destruct key; try done. cbn [ownTemplates] in E1.
    constructor; [by eexists | by eapply IH].
Qed.

End templating.

(** The instance group names properties.a twice, the role manifest names it
    and properties.b. *)
Lemma CalculateRoleConfigurationTemplates_precedence_witness :
  exists Templates,
    model.CalculateRoleConfigurationTemplates printString ownRaw globalRaw
    = model.Returns Templates
    /\ amap.get "properties.a" Templates
       = Some (model.ConfigurationTemplate.mk "own again" false)
    /\ amap.get "properties.b" Templates
       = Some (model.ConfigurationTemplate.mk "global" true).
Proof.
  destruct (CalculateRoleConfigurationTemplates_precedence printString ownRaw
              globalRaw) as [Hall _].
  destruct Hall as (Templates & E & Hget).
  - repeat constructor; by eexists.
  - repeat constructor; by eexists.
  - exists Templates. split; [exact E |]. by rewrite !Hget.
Defined.

(** ** MergeSpec and getProperty *)

(** X16. After [MergeSpec], [getProperty] finds the property of the job
    itself when it has one of that name, and else the one of the other job;
    when neither has one, the error names the job itself. *)
Theorem getProperty_after_MergeSpec (j otherJob : model.Job.t) (name : string) :
  model.getProperty (model.MergeSpec j otherJob) name
  = match model.getProperty j name with
    | Ok property => Ok property
    | Err _ =>
        match model.getProperty otherJob name with
        | Ok property => Ok property
        | Err _ =>
            Err ("Property " +:+ name +:+ " not found in job "
                   +:+ model.Job.Name j)
        end
    end.
Proof.
  unfold model.getProperty, model.MergeSpec. cbn [model.Job.Properties
    model.Job.Name].
  rewrite find_app.
  destruct (List.find _ (model.Job.Properties j)); [done |].
  by destruct (List.find _ (model.Job.Properties otherJob)).
Qed.

(** ** The disk check, the worker and the end of the queueing loop *)

Section disk.
Import model compilator.

Variable os_Stat : string -> statResult.
Variable os_Open : string -> openResult.
Variable GetPackageCompiledDir : Package.t -> string.

Local Abbreviation isPackageCompiled :=
  (compilator.isPackageCompiled os_Stat os_Open GetPackageCompiledDir).

(** X17. [isPackageCompiled] reports a package as compiled exactly when
    the directory of the compiled package exists, is a directory and holds
    an entry. A directory that does not exist, or an empty one, is not an
    error; a file in its place is one, and so is every other failure of
    the disk; with an error the answer is never "compiled". *)
Theorem isPackageCompiled_decides (pkg : Package.t) :
  let path := GetPackageCompiledDir pkg in
  (isPackageCompiled pkg = (true, None)
   <-> os_Stat path = StatInfo true /\ os_Open path = Opened ReaddirEntry)
  /\ (os_Stat path = StatNotExist -> isPackageCompiled pkg = (false, None))
  /\ (os_Stat path = StatInfo true -> os_Open path = Opened ReaddirEOF ->
      isPackageCompiled pkg = (false, None))
  /\ (os_Stat path = StatInfo false ->
      exists e, isPackageCompiled pkg = (false, Some e))
  /\ (forall b e, isPackageCompiled pkg = (b, Some e) ->
      b = false
      /\ (os_Stat path = StatError e \/ os_Stat path = StatInfo false
          \/ os_Open path = OpenError e
          \/ os_Open path = Opened (ReaddirError e))).
Proof.
  intros path. unfold compilator.isPackageCompiled. fold path.
  destruct (os_Stat path) as [|e|[|]] eqn:Es; simpl;
    destruct (os_Open path) as [e'|[|e'|]] eqn:Eo; simpl;
    repeat split; try done; try (intros [? ?]; done); eauto;
    match goal with
    | H : (_, Some _) = (_, Some _) |- _ => injection H as <- <-
    end; auto 6.
Qed.

End disk.

Lemma isPackageCompiled_decides_witness :
  compilator.isPackageCompiled statOnlyA openOnlyA compiledDirOf pkgA
  = (true, None)
  /\ compilator.isPackageCompiled statOnlyA openOnlyA compiledDirOf pkgB
     = (false, None).
Proof.
  destruct (isPackageCompiled_decides statOnlyA openOnlyA compiledDirOf pkgA)
    as (HA & _).
  destruct (isPackageCompiled_decides statOnlyA openOnlyA compiledDirOf pkgB)
    as (_ & HB & _).
  split; [apply HA; by split | by apply HB].
Defined.

Section worker.
Import model compilator.

Lemma runCompile_results (pkg : Package.t) (storage : option packageStorage.t)
    (compilePackage : option string) :
  (exists err, runCompile pkg storage compilePackage = [compileResult.mk pkg err])
  \/ (exists s b e err,
        storage = Some s /\ packageStorage.Exists s = (b, Some e)
        /\ runCompile pkg storage compilePackage
           = [compileResult.mk pkg (Some e); compileResult.mk pkg err]).
Proof.
  unfold runCompile. destruct storage as [s|]; [| left; eauto].
  destruct (packageStorage.Exists s) as [b [e|]] eqn:Ee.
  - right. exists s, b, e. destruct b; eauto.
  - left. destruct b; eauto.
Qed.

(** X18. Whatever the selects take, a job whose package has no
    dependencies is never aborted: it sends the outcome of compiling, and
    so does every job as long as no select takes the kill channel. Every
    result a job sends is about its package, and it sends one result,
    except when the lookup in the package cache fails: then it sends that
    error and, behind it, the outcome of compiling as a second result. *)
Theorem Run_sends_results (pkg : Package.t) (choices : list selected)
    (storage : option packageStorage.t) (compilePackage : option string) :
  (Package.Dependencies pkg = [] ->
   Run pkg choices storage compilePackage
   = Some (runCompile pkg storage compilePackage))
  /\ (forall results,
        Run pkg choices storage compilePackage = Some results ->
        Forall (fun r => compileResult.pkg r = pkg) results
        /\ ((exists err, results = [compileResult.mk pkg err])
            \/ (exists s b e err,
                  storage = Some s /\ packageStorage.Exists s = (b, Some e)
                  /\ results = [compileResult.mk pkg (Some e);
                                compileResult.mk pkg err])))
  /\ (In KillCase choices \/ 
      forall results,
        Run pkg choices storage compilePackage = Some results ->
        results = runCompile pkg storage compilePackage).
Proof.
  unfold Run. split; [by intros -> |]. split.
  - intros results.
    destruct (waitForDeps (Package.Dependencies pkg) choices) as [[|]|];
      [| | done]; intros [= <-].
    + split; [by repeat constructor | left; eauto].
    + destruct (runCompile_results pkg storage compilePackage)
        as [[err ->] | (s & b & e & err & Hs & He & ->)].
      * split; [by repeat constructor | left; eauto].
      * split; [by repeat constructor | right].
        by exists s, b, e, err.
  - assert (Hkill : forall deps cs, waitForDeps deps cs = Some true ->
                                   In KillCase cs).
    { intros deps. induction deps as [|dep deps IH]; intros cs; [done |].
      cbn [waitForDeps].
      assert (Hdep : forall rest k, waitForDep cs = Some (k, rest) ->
                (k = true -> In KillCase cs)
                /\ (In KillCase rest -> In KillCase cs)).
      { induction cs as [|[| |] cs IHcs]; intros rest k; simpl; [done | | |].
        - intros [= <- <-]. split; auto.
        - intros H. destruct (IHcs rest k H). split; auto.
        - intros [= <- <-]. split; [done | auto]. }
      destruct (waitForDep cs) as [[[|] rest]|] eqn:Ew; [| | done].
      - intros _. destruct (Hdep rest true eq_refl) as [H1 _]. by apply H1.
      - intros H. destruct (Hdep rest false eq_refl) as [_ H2]. apply H2.
        by apply IH. }
    destruct (waitForDeps (Package.Dependencies pkg) choices) as [[|]|] eqn:Ew.
    + left. by eapply Hkill.
    + right. by intros results [= <-].
    + right. done.
Qed.

End worker.

(** A has no dependencies: with the kill channel closed and a failing
    cache it sends the error of the cache and the outcome of compiling. *)
Lemma Run_sends_results_witness :
  compilator.Run pkgA [compilator.KillCase] (Some failingCache) None
  = Some [compilator.compileResult.mk pkgA (Some "cache unreachable");
          compilator.compileResult.mk pkgA None].
Proof.
  destruct (Run_sends_results pkgA [compilator.KillCase] (Some failingCache)
              None) as [Hnone _].
  rewrite Hnone; reflexivity.
Defined.

Section ending.
Import model compilator.

Lemma rounds_more_fuel (revDeps : gmap string (list Package.t))
    (packages : list Package.t) (fuel fuel' : nat) (st st' : queueing) :
  rounds fuel revDeps packages st = Some st' -> (fuel <= fuel')%nat ->
  rounds fuel' revDeps packages st = Some st'.
Proof.
  revert fuel' st. induction fuel as [|fuel IH]; intros fuel' st; [done |].
  destruct fuel' as [|fuel']; [lia |]. cbn [rounds].
  destruct (keepRunning (round revDeps packages st)); [| done].
  intros H Hle. apply (IH fuel'); [done | lia].
Qed.

(** X19. For every input, also one with dependency cycles or repeated
    fingerprints, the queueing loop of [createDepBuckets] ends after at
    most one round more than there are packages, and what it returns does
    not depend on how many more rounds it is given. *)
Theorem createDepBuckets_ends (packages : list Package.t) (fuel : nat) :
  (List.length packages < fuel)%nat ->
  createDepBuckets_fuel fuel packages = Some (createDepBuckets packages).
Proof.
  intros Hfuel. pose proof (createDepBuckets_fuel_total packages) as Ht.
  unfold createDepBuckets_fuel in *.
  destruct (countDeps packages) as [depCount0 revDeps].
  destruct (rounds (S (List.length packages)) revDeps packages _) as [st|] eqn:E;
    [| done].
  by rewrite (rounds_more_fuel revDeps packages _ fuel _ st E) by lia.
Qed.

End ending.

Lemma createDepBuckets_ends_witness :
  compilator.createDepBuckets_fuel 10 [pkgX; pkgY; pkgA]
  = Some (compilator.createDepBuckets [pkgX; pkgY; pkgA]).
Proof. apply createDepBuckets_ends. simpl. lia. Defined.

(** ** CalculateRoleRun: the other diagnostics *)

Section run_diagnostics.
Import model.

Variable setScaling : list JobReference.t -> RoleRun.t -> RoleRun.t.
Variable mergeCapabilities : list JobReference.t -> RoleRun.t -> RoleRun.t.
Variable mergeVolumes : list JobReference.t -> RoleRun.t -> RoleRun.t.
Variable setMaxFields : list JobReference.t -> RoleRun.t -> RoleRun.t.

Local Abbreviation CalculateRoleRun :=
  (model.CalculateRoleRun setScaling mergeCapabilities mergeVolumes setMaxFields).

Lemma affinity_has_run (j : JobReference.t) :
  affinityPresent j = true -> runPropertyPresent j = true.
Proof.
  unfold affinityPresent, runPropertyPresent, runOf.
  by destruct (JobReference.Run j).
Qed.

Lemma filter_affinity_WithRunProperty (jobs : list JobReference.t) :
  List.filter affinityPresent (WithRunProperty jobs)
  = List.filter affinityPresent jobs.
Proof.
  unfold WithRunProperty. induction jobs as [|j jobs IH]; simpl; [done |].
  destruct (runPropertyPresent j) eqn:Er; simpl; rewrite IH; [done |].
  destruct (affinityPresent j) eqn:Ea; [| done].
  apply affinity_has_run in Ea. congruence.
Qed.

Lemma no_run_block (jobs : list JobReference.t) :
  (forall j, In j jobs -> JobReference.Run j = None) ->
  atLeastOnce runPropertyPresent jobs = false.
Proof.
  intros Hall. unfold atLeastOnce. induction jobs as [|j jobs IH]; [done |].
  simpl. unfold runPropertyPresent at 1. rewrite (Hall j) by by left.
  apply IH. intros j' Hj'. apply Hall. by right.
Qed.

Lemma some_affinity_has_run (jobs : list JobReference.t) :
  List.filter affinityPresent jobs <> [] ->
  atLeastOnce runPropertyPresent jobs = true.
Proof.
  unfold atLeastOnce. induction jobs as [|j jobs IH]; simpl; [done |].
  destruct (affinityPresent j) eqn:Ea.
  - intros _. by rewrite (affinity_has_run j Ea).
  - intros H. rewrite (IH H). apply orb_true_r.
Qed.

(** X20. When no job of the instance group has a run block,
    [CalculateRoleRun] leaves the empty run block on the group and returns
    the one diagnostic that a run block is required. When more than one job
    declares an affinity, it returns an Invalid diagnostic that carries the
    first health check and the wording of the health check diagnostic.
    Every diagnostic it returns has the instance group as its field. *)
Theorem CalculateRoleRun_other_diagnostics (g : InstanceGroup.t) :
  let jobs := InstanceGroup.JobReferences g in
  let res := CalculateRoleRun g in
  ((forall j, In j jobs -> JobReference.Run j = None) ->
   res = (InstanceGroup.setRun (Some RoleRun.zero) g,
          [validation.Required (groupField g)
             "`properties.bosh_containerization.run` required for at least one Job"]))
  /\ ((1 < List.length (List.filter affinityPresent jobs))%nat ->
      In (validation.Invalid (groupField g)
            (HealthCheckValue (firstHealthCheck (WithRunProperty jobs)))
            "Cannot specify Run.HealthCheck properties on more than one job of the same instance group")
         res.2)
  /\ (forall e, In e res.2 -> validation.Field e = groupField g).
Proof.
  intros jobs res. subst res. unfold model.CalculateRoleRun. fold jobs.
  split; [| split].
  - intros Hnone. by rewrite (no_run_block jobs Hnone).
  - intros Hmany.
    rewrite some_affinity_has_run
      by (destruct (List.filter affinityPresent jobs); [simpl in Hmany; lia | done]).
    cbn [negb].
    assert (atMostOnce affinityPresent (WithRunProperty jobs) = false) as ->.
    { unfold atMostOnce. rewrite filter_affinity_WithRunProperty.
      apply Nat.leb_gt. lia. }
    destruct (equalOrMissing flightStagePresent (WithRunProperty jobs));
      destruct (atMostOnce healthCheckPresent (WithRunProperty jobs));
      destruct (uniqueStringProperty _ (WithRunProperty jobs));
      destruct (uniqueStringProperty _ (WithRunProperty jobs));
      cbn [snd]; apply in_or_app; right; by left.
  - destruct (atLeastOnce runPropertyPresent jobs); cbn [negb].
    + destruct (equalOrMissing flightStagePresent (WithRunProperty jobs));
        destruct (atMostOnce healthCheckPresent (WithRunProperty jobs));
        destruct (uniqueStringProperty _ (WithRunProperty jobs));
        destruct (uniqueStringProperty _ (WithRunProperty jobs));
        destruct (atMostOnce affinityPresent (WithRunProperty jobs));
        cbn [snd]; intros x Hx; rewrite ?in_app_iff in Hx; cbn [In] in Hx;
        repeat match goal with
               | H : _ \/ _ |- _ => destruct H
               | H : False |- _ => destruct H
               end; subst; reflexivity.
    + cbn [snd]. intros x [<- | []]. reflexivity.
Qed.

End run_diagnostics.

(** Two jobs of an instance group declare an affinity. *)
Lemma CalculateRoleRun_other_diagnostics_witness :
  In (validation.Invalid "instance_groups[api]" (model.HealthCheckValue None)
        "Cannot specify Run.HealthCheck properties on more than one job of the same instance group")
     (model.CalculateRoleRun keepRun keepRun keepRun keepRun
        (groupOf "api" [jobWithRun "a" affineRun; jobWithRun "b" affineRun])).2.
Proof.
  pose proof (CalculateRoleRun_other_diagnostics keepRun keepRun keepRun
                keepRun
                (groupOf "api"
                   [jobWithRun "a" affineRun; jobWithRun "b" affineRun])) as H.
  cbv zeta in H. destruct H as (_ & Hmany & _).
  apply Hmany. simpl. lia.
Defined.
